(** * Subscription converter: the conversion pipeline, embedded and verified

    A shallow embedding of [lib/script.js] ([executeScript],
    [validateConfig]), [lib/batch.js] ([batchProcess],
    [batchProcessParallel]) and of [downloadSubscription] in [server.js].

    JavaScript values live in a heap of mutable cells, so that in-place
    mutation and aliasing are visible; thrown exceptions are results of a
    sum type; the file system, the network, the clock and the compiled
    user script are explicit inputs. *)

From Stdlib Require Import Ascii QArith.
From stdpp Require Import gmap strings list.

Local Close Scope Q_scope.
Set Warnings "-clear-no-such-hyp".

(** ** JavaScript values *)

(** A JS number is the rational it denotes, or one of the three specials.
    The code only compares numbers, which is exact on rationals. *)
Inductive number :=
  | Fin (q : Q)
  | NaN
  | PosInf
  | NegInf.

Definition loc := nat.

(** Primitives are immediate; objects and arrays are references into the
    heap.  Functions and dates are kept opaque: the code never looks inside
    them, only at [typeof] and at what [JSON.stringify] makes of them. *)
Inductive val :=
  | VUndef
  | VNull
  | VBool (b : bool)
  | VNum (n : number)
  | VStr (s : string)
  | VFun (id : nat)
  | VDate (iso : string)
  | VRef (l : loc).

(** An object keeps its own properties in insertion order. *)
Inductive cell :=
  | CObj (props : list (string * val))
  | CArr (elems : list val).

Abbreviation heap := (list cell).

(** Exceptions: [err_syntax] is [error instanceof SyntaxError]. *)
Record js_error := JsError { err_syntax : bool; err_message : string }.

Definition Error (msg : string) : js_error := JsError false msg.

Inductive outcome (A : Type) :=
  | Return (a : A)
  | Throw (e : js_error).
Arguments Return {A} a.
Arguments Throw {A} e.

Global Instance outcome_bind : MBind outcome := λ A B k m,
  match m with
  | Return a => k a
  | Throw e => Throw e
  end.

(** ** Primitive operations of the language *)

Definition is_zero (q : Q) : bool := (Qnum q =? 0)%Z.

(** [!v] is [negb (truthy v)]. *)
Definition truthy (v : val) : bool :=
  match v with
  | VUndef | VNull => false
  | VBool b => b
  | VNum (Fin q) => negb (is_zero q)
  | VNum NaN => false
  | VNum _ => true
  | VStr s => negb (String.eqb s "")
  | VFun _ | VDate _ | VRef _ => true
  end.

Inductive js_type := TyUndefined | TyObject | TyBoolean | TyNumber | TyString | TyFunction.

Definition typeof (v : val) : js_type :=
  match v with
  | VUndef => TyUndefined
  | VNull => TyObject
  | VBool _ => TyBoolean
  | VNum _ => TyNumber
  | VStr _ => TyString
  | VFun _ => TyFunction
  | VDate _ => TyObject
  | VRef _ => TyObject
  end.

Definition is_object_type (t : js_type) : bool :=
  match t with TyObject => true | _ => false end.

Definition is_number_type (t : js_type) : bool :=
  match t with TyNumber => true | _ => false end.

(** [a < b] and [a > b] on numbers; every comparison with [NaN] is false. *)
Definition num_lt (a b : number) : bool :=
  match a, b with
  | NaN, _ | _, NaN => false
  | Fin x, Fin y => negb (Qle_bool y x)
  | NegInf, NegInf => false
  | NegInf, _ => true
  | _, PosInf => match a with PosInf => false | _ => true end
  | _, _ => false
  end.

Definition num_gt (a b : number) : bool := num_lt b a.

Definition num_of_Z (z : Z) : number := Fin (inject_Z z).

Fixpoint assoc (k : string) (props : list (string * val)) : option val :=
  match props with
  | [] => None
  | (k', v) :: rest => if String.eqb k k' then Some v else assoc k rest
  end.

(** Canonical array index: a decimal numeral without leading zeros. *)
Definition digit_of (a : ascii) : option nat :=
  let n := nat_of_ascii a in
  if (48 <=? n) && (n <=? 57) then Some (n - 48) else None.

Fixpoint digits_value (s : string) (acc : nat) : option nat :=
  match s with
  | EmptyString => Some acc
  | String a rest =>
      match digit_of a with
      | Some d => digits_value rest (10 * acc + d)
      | None => None
      end
  end.

Definition array_index (k : string) : option nat :=
  match k with
  | EmptyString => None
  | String a rest =>
      if (Ascii.eqb a "0"%char && negb (String.eqb rest "")) then None
      else digits_value k 0
  end.

(** [v[k]] for a property read that does not throw (v is not null or
    undefined in every use below). *)
Definition get (h : heap) (v : val) (k : string) : val :=
  match v with
  | VRef l =>
      match h !! l with
      | Some (CObj props) => default VUndef (assoc k props)
      | Some (CArr elems) =>
          if String.eqb k "length" then VNum (num_of_Z (Z.of_nat (length elems)))
          else match array_index k with
               | Some i => default VUndef (elems !! i)
               | None => VUndef
               end
      | None => VUndef
      end
  | _ => VUndef
  end.

Definition isArray (h : heap) (v : val) : bool :=
  match v with
  | VRef l => match h !! l with Some (CArr _) => true | _ => false end
  | _ => false
  end.

(** [String.prototype.includes]. *)
Fixpoint includes (needle hay : string) : bool :=
  if String.prefix needle hay then true
  else match hay with
       | EmptyString => false
       | String _ rest => includes needle rest
       end.

(** [Array.prototype.includes] on an array of string literals. *)
Definition list_includes (l : list string) (v : val) : bool :=
  match v with
  | VStr s => existsb (String.eqb s) l
  | _ => false
  end.

(** ** [validateConfig] (lib/script.js) *)

Definition msg_invalid_config : string := "配置必须是有效的对象".
Definition msg_not_array (field : string) : string := field +:+ "必须是数组".
Definition msg_bad_port (field : string) : string :=
  field +:+ "必须是0-65535之间的有效端口号".
Definition msg_bad_mode : string := "mode必须是rule、global或direct之一".

Definition portFields : list string := ["port"; "socks-port"; "mixed-port"].
Definition modes : list string := ["rule"; "global"; "direct"].

Definition check_array (h : heap) (config : val) (field : string) : outcome unit :=
  if truthy (get h config field) && negb (isArray h (get h config field))
  then Throw (Error (msg_not_array field))
  else Return tt.

Definition check_port (h : heap) (config : val) (field : string) : outcome unit :=
  match get h config field with
  | VUndef => Return tt
  | v =>
      if negb (is_number_type (typeof v))
         || match v with
            | VNum n => num_lt n (num_of_Z 0) || num_gt n (num_of_Z 65535)
            | _ => false
            end
      then Throw (Error (msg_bad_port field))
      else Return tt
  end.

Definition check_mode (h : heap) (config : val) : outcome unit :=
  if truthy (get h config "mode") && negb (list_includes modes (get h config "mode"))
  then Throw (Error msg_bad_mode)
  else Return tt.

(** [forEach] with a callback that may throw. *)
Fixpoint forEach {A} (f : A → outcome unit) (l : list A) : outcome unit :=
  match l with
  | [] => Return tt
  | x :: rest => f x;; forEach f rest
  end.

Definition validateConfig (h : heap) (config : val) (isResult : bool) : outcome unit :=
  if negb (truthy config) || negb (is_object_type (typeof config))
  then Throw (Error msg_invalid_config)
  else if isResult then
    check_array h config "rules";;
    check_array h config "proxies";;
    check_array h config "proxy-groups";;
    forEach (check_port h config) portFields;;
    check_mode h config
  else Return tt.

(** ** What strict validation accepts *)

(** [config && typeof config === 'object'] *)
Definition valid_object (v : val) : Prop :=
  truthy v = true ∧ typeof v = TyObject.

(** The range test as the code makes it: a number that is neither below 0
    nor above 65535.  [NaN] compares false both ways. *)
Definition in_port_range (n : number) : Prop :=
  match n with
  | Fin q => (0 <= q)%Q ∧ (q <= 65535)%Q
  | NaN => True
  | PosInf | NegInf => False
  end.

Definition port_ok (v : val) : Prop :=
  v = VUndef ∨ ∃ n, v = VNum n ∧ in_port_range n.

Definition array_ok (h : heap) (v : val) : Prop :=
  truthy v = true → isArray h v = true.

Definition mode_ok (v : val) : Prop :=
  truthy v = true → ∃ s, v = VStr s ∧ s ∈ modes.

(** The three fields that must be arrays. *)
Definition arrayFields : list string := ["rules"; "proxies"; "proxy-groups"].

(** Strict validation as the code makes it. *)
Definition strict_ok (h : heap) (config : val) : Prop :=
  valid_object config
  ∧ (∀ f, f ∈ arrayFields → array_ok h (get h config f))
  ∧ (∀ f, f ∈ portFields → port_ok (get h config f))
  ∧ mode_ok (get h config "mode").

(** [k] is an own property of the object [v]. *)
Definition has_key (h : heap) (v : val) (k : string) : bool :=
  match v with
  | VRef l =>
      match h !! l with
      | Some (CObj props) => bool_decide (is_Some (assoc k props))
      | _ => false
      end
  | _ => false
  end.

Definition is_integer (n : number) : bool :=
  match n with
  | Fin q => (Qnum q mod Zpos (Qden q) =? 0)%Z
  | _ => false
  end.

(** Strict validation in the words of the specification: a key that is
    present must hold a sequence, an integer port in range, or one of the
    three modes. *)
Definition spec_port (v : val) : Prop :=
  ∃ q, v = VNum (Fin q) ∧ is_integer (Fin q) = true ∧ (0 <= q)%Q ∧ (q <= 65535)%Q.

Definition spec_strict (h : heap) (config : val) : Prop :=
  valid_object config
  ∧ (∀ f, f ∈ arrayFields → has_key h config f = true → isArray h (get h config f) = true)
  ∧ (∀ f, f ∈ portFields → has_key h config f = true → spec_port (get h config f))
  ∧ (has_key h config "mode" = true → ∃ s, get h config "mode" = VStr s ∧ s ∈ modes).

(** The seven messages strict validation can throw on an object. *)
Definition strict_errors : list js_error :=
  (Error ∘ msg_not_array <$> arrayFields)
  ++ (Error ∘ msg_bad_port <$> portFields)
  ++ [Error msg_bad_mode].

(** An error names a field when its message starts with the field's name. *)
Definition names_field (f : string) (e : js_error) : Prop :=
  String.prefix f (err_message e) = true.

(** ** [JSON.stringify] and [JSON.parse]

    A JSON text is identified with the document it denotes. *)

#[warnings="-register-all"]
Inductive json :=
  | JNull
  | JBool (b : bool)
  | JNum (q : Q)
  | JStr (s : string)
  | JObj (fields : list (string * json))
  | JArr (items : list json).

Definition TypeError (msg : string) : js_error := JsError false msg.
Definition SyntaxError (msg : string) : js_error := JsError true msg.

Definition msg_circular : string := "Converting circular structure to JSON".
Definition msg_json_undefined : string := "Unexpected token u in JSON at position 0".

Fixpoint mapM {A B} (f : A → outcome B) (l : list A) : outcome (list B) :=
  match l with
  | [] => Return []
  | x :: rest => y ← f x; ys ← mapM f rest; Return (y :: ys)
  end.

(** [JSON.stringify(v)]: [None] is the result [undefined].  Properties whose
    value serialises to [undefined] are left out of an object and become
    [null] in an array; non-finite numbers become [null]; a date becomes its
    ISO string.  The fuel counts nested references: a chain of distinct cells
    is no longer than the heap, so with fuel [length h] running out means the
    chain repeats a cell, where the real function throws its [TypeError]. *)
Fixpoint stringify (fuel : nat) (h : heap) (v : val) : outcome (option json) :=
  match v with
  | VUndef | VFun _ => Return None
  | VNull => Return (Some JNull)
  | VBool b => Return (Some (JBool b))
  | VNum (Fin q) => Return (Some (JNum q))
  | VNum _ => Return (Some JNull)
  | VStr s => Return (Some (JStr s))
  | VDate iso => Return (Some (JStr iso))
  | VRef l =>
      match fuel with
      | O => Throw (TypeError msg_circular)
      | S fuel' =>
          match h !! l with
          | Some (CObj props) =>
              fields ← mapM (λ p, j ← stringify fuel' h p.2; Return (p.1, j)) props;
              Return (Some (JObj (omap (λ f, pair f.1 <$> f.2) fields)))
          | Some (CArr elems) =>
              items ← mapM (stringify fuel' h) elems;
              Return (Some (JArr (default JNull <$> items)))
          | None => Return None
          end
      end
  end.

(** [JSON.parse] of a document: every object and array is a new cell at the
    end of the heap. *)
Fixpoint parse (j : json) (h : heap) : val * heap :=
  match j with
  | JNull => (VNull, h)
  | JBool b => (VBool b, h)
  | JNum q => (VNum (Fin q), h)
  | JStr s => (VStr s, h)
  | JObj fields =>
      let fix parse_fields (fs : list (string * json)) (h : heap)
          : list (string * val) * heap :=
        match fs with
        | [] => ([], h)
        | (k, j) :: rest =>
            let '(v, h1) := parse j h in
            let '(props, h2) := parse_fields rest h1 in
            ((k, v) :: props, h2)
        end in
      let '(props, h1) := parse_fields fields h in
      (VRef (length h1), h1 ++ [CObj props])
  | JArr items =>
      let fix parse_items (js : list json) (h : heap) : list val * heap :=
        match js with
        | [] => ([], h)
        | j :: rest =>
            let '(v, h1) := parse j h in
            let '(vs, h2) := parse_items rest h1 in
            (v :: vs, h2)
        end in
      let '(vs, h1) := parse_items items h in
      (VRef (length h1), h1 ++ [CArr vs])
  end.

Fixpoint parse_fields (fs : list (string * json)) (h : heap)
    : list (string * val) * heap :=
  match fs with
  | [] => ([], h)
  | (k, j) :: rest =>
      let '(v, h1) := parse j h in
      let '(props, h2) := parse_fields rest h1 in
      ((k, v) :: props, h2)
  end.

Fixpoint parse_items (js : list json) (h : heap) : list val * heap :=
  match js with
  | [] => ([], h)
  | j :: rest =>
      let '(v, h1) := parse j h in
      let '(vs, h2) := parse_items rest h1 in
      (v :: vs, h2)
  end.

(** [JSON.parse(JSON.stringify(config))]. *)
Definition json_clone (h : heap) (config : val) : outcome (val * heap) :=
  oj ← stringify (length h) h config;
  match oj with
  | None => Throw (SyntaxError msg_json_undefined)
  | Some j => Return (parse j h)
  end.

(** ** [executeScript] (lib/script.js) *)

(** What the compiled wrapper does from [const startTime = Date.now()] up to
    the return of [main(config, profileName)]: the script text is evaluated
    (it may throw, and it may leave [main] undefined or not a function), then
    [main] is called.  [elapsed] is [Date.now() - startTime] as read by the
    [checkTimeout()] that follows the call, in milliseconds. *)
Inductive main_result :=
  | MainThrows (e : js_error)
  | MainMissing
  | MainReturns (v : val) (elapsed : Z).

(** [run_logs] is what the script wrote to the capturing console. *)
Record run := Run {
  run_heap : heap;
  run_logs : list (string * string);
  run_result : main_result
}.

(** A compiled script: a function of the heap, of its two arguments and of
    nothing else it could name. *)
Definition script_fn := heap → val → string → run.

(** What a call does, in order: the validations, the compilation and the
    invocation, the latter with the heap and the arguments it is given. *)
Inductive event :=
  | EvValidate (config : val) (isResult : bool)
  | EvCompile (script : string)
  | EvInvoke (h : heap) (config : val) (profileName : string).

(** The outcome of a call, the heap it leaves, the captured log and the
    trace. *)
Record exec := Exec {
  exec_result : outcome val;
  exec_heap : heap;
  exec_logs : list (string * string);
  exec_trace : list event
}.

Definition timeoutMs : Z := 10000.

Definition msg_missing_decl : string := "脚本中缺少main函数声明".
Definition msg_main_not_function : string := "脚本中缺少main函数或main不是一个函数".
Definition msg_timeout : string := "脚本执行超时".
Definition msg_invalid_return : string := "脚本的main函数必须返回配置对象".

(** The body of the [new Function] wrapper around the script. *)
Definition scriptFunction (f : script_fn) (h : heap) (config : val) (profileName : string)
    : run * outcome val :=
  let r := f h config profileName in
  (r, match run_result r with
      | MainThrows e => Throw e
      | MainMissing => Throw (Error msg_main_not_function)
      | MainReturns result elapsed =>
          if (elapsed >? timeoutMs - 1000)%Z then Throw (Error msg_timeout)
          else Return result
      end).

(** The callback of [setTimeout(..., timeoutMs)] is run by the event loop on
    a later turn: it cannot run while [executeScript], which never yields, is
    on the stack, and [clearTimeout] cancels it before the flag is read. *)
Definition hasTimedOut : bool := false.

(** The [catch] clause: the message is classified and wrapped. *)
Definition rethrow (error : js_error) : js_error :=
  let errorMessage :=
    if err_syntax error then "脚本语法错误: " +:+ err_message error
    else if includes "is not defined" (err_message error)
      then "脚本引用了未定义的变量: " +:+ err_message error
    else if includes "is not a function" (err_message error)
      then "脚本尝试调用不是函数的对象: " +:+ err_message error
    else err_message error in
  Error ("脚本执行失败: " +:+ errorMessage).

Section Executor.
(** [new Function('console', 'config', 'profileName', ...script...)]: the
    engine's parser either throws or yields the function. *)
Variable compile : string → outcome script_fn.

Definition try_block (h : heap) (config : val) (script profileName : string) : exec :=
  match json_clone h config with
  | Throw e => Exec (Throw e) h [] []
  | Return (configCopy, h1) =>
      if negb (includes "function main" script)
      then Exec (Throw (Error msg_missing_decl)) h1 [] []
      else
        match compile script with
        | Throw e => Exec (Throw e) h1 [] [EvCompile script]
        | Return f =>
            let '(r, res) := scriptFunction f h1 configCopy profileName in
            let tr := [EvCompile script; EvInvoke h1 configCopy profileName] in
            match res with
            | Throw e => Exec (Throw e) (run_heap r) (run_logs r) tr
            | Return result =>
                if hasTimedOut
                then Exec (Throw (Error msg_timeout)) (run_heap r) (run_logs r) tr
                else if negb (truthy result) || negb (is_object_type (typeof result))
                then Exec (Throw (Error msg_invalid_return)) (run_heap r) (run_logs r) tr
                else
                  Exec (validateConfig (run_heap r) result true;; Return result)
                       (run_heap r) (run_logs r) (tr ++ [EvValidate result true])
            end
        end
  end.

Definition executeScript (h : heap) (config : val) (script profileName : string) : exec :=
  match validateConfig h config false with
  | Throw e => Exec (Throw e) h [] [EvValidate config false]
  | Return _ =>
      let x := try_block h config script profileName in
      Exec (match exec_result x with
            | Return v => Return v
            | Throw e => Throw (rethrow e)
            end)
           (exec_heap x) (exec_logs x) (EvValidate config false :: exec_trace x)
  end.
End Executor.

(** The spec's error classes, by message. *)
Definition MissingEntryPointError : js_error := Error ("脚本执行失败: " +:+ msg_missing_decl).
Definition TimeoutError : js_error := Error ("脚本执行失败: " +:+ msg_timeout).
Definition InvalidReturnError : js_error := Error ("脚本执行失败: " +:+ msg_invalid_return).
Definition ValidationError (msg : string) : js_error := Error ("脚本执行失败: " +:+ msg).

(** The call gets as far as invoking the compiled script [f] on the copy. *)
Definition reaches_main (compile : string → outcome script_fn)
    (h : heap) (config : val) (script : string)
    (configCopy : val) (h1 : heap) (f : script_fn) : Prop :=
  validateConfig h config false = Return tt
  ∧ json_clone h config = Return (configCopy, h1)
  ∧ includes "function main" script = true
  ∧ compile script = Return f.

(** ** Reachability and the values a heap holds *)

Definition cell_vals (c : cell) : list val :=
  match c with
  | CObj props => props.*2
  | CArr elems => elems
  end.

(** The cells a program holding [v] can get to. *)
Inductive reachable (h : heap) : val → loc → Prop :=
  | reach_here l : reachable h (VRef l) l
  | reach_step l c v l' :
      h !! l = Some c → v ∈ cell_vals c → reachable h v l' →
      reachable h (VRef l) l'.

(** A value that points, if anywhere, at or above [n]. *)
Definition fresh_val (n : nat) (v : val) : Prop :=
  match v with
  | VRef l => n ≤ l
  | _ => True
  end.

Definition fresh_cell (n : nat) (c : cell) : Prop :=
  Forall (fresh_val n) (cell_vals c).

(** A compiled script changes no cell that it cannot reach from the
    argument it is given: it can name [console], [config] and [profileName],
    and the caller's manifest is not among the globals. *)
Definition confined (f : script_fn) : Prop :=
  ∀ h v p l c, h !! l = Some c → ¬ reachable h v l → run_heap (f h v p) !! l = Some c.

(** What [parse] adds: the heap grows at the end, the value and the new
    cells point only into the new part. *)
Definition allocates (h : heap) (vs : list val) (h' : heap) : Prop :=
  ∃ ext, h' = h ++ ext
         ∧ Forall (fresh_val (length h)) vs
         ∧ Forall (fresh_cell (length h)) ext.

(** ** Trees *)

(** The value a program sees when it walks a heap value all the way down. *)
#[warnings="-register-all"]
Inductive tree :=
  | TUndef
  | TNull
  | TBool (b : bool)
  | TNum (n : number)
  | TStr (s : string)
  | TFun (id : nat)
  | TDate (iso : string)
  | TObj (props : list (string * tree))
  | TArr (elems : list tree).

#[warnings="-register-all"]
Inductive represents (h : heap) : val → tree → Prop :=
  | rep_undef : represents h VUndef TUndef
  | rep_null : represents h VNull TNull
  | rep_bool b : represents h (VBool b) (TBool b)
  | rep_num n : represents h (VNum n) (TNum n)
  | rep_str s : represents h (VStr s) (TStr s)
  | rep_fun id : represents h (VFun id) (TFun id)
  | rep_date iso : represents h (VDate iso) (TDate iso)
  | rep_obj l props tprops :
      h !! l = Some (CObj props) →
      Forall2 (λ p tp, p.1 = tp.1 ∧ represents h p.2 tp.2) props tprops →
      represents h (VRef l) (TObj tprops)
  | rep_arr l elems ts :
      h !! l = Some (CArr elems) →
      Forall2 (represents h) elems ts →
      represents h (VRef l) (TArr ts).

(** [JSON.stringify] and [JSON.parse] on trees. *)
Fixpoint toJSON (t : tree) : option json :=
  match t with
  | TUndef | TFun _ => None
  | TNull => Some JNull
  | TBool b => Some (JBool b)
  | TNum (Fin q) => Some (JNum q)
  | TNum _ => Some JNull
  | TStr s => Some (JStr s)
  | TDate iso => Some (JStr iso)
  | TObj props =>
      Some (JObj (omap (λ p, match p with (k, t) => pair k <$> toJSON t end) props))
  | TArr elems => Some (JArr ((λ t, default JNull (toJSON t)) <$> elems))
  end.

Fixpoint ofJSON (j : json) : tree :=
  match j with
  | JNull => TNull
  | JBool b => TBool b
  | JNum q => TNum (Fin q)
  | JStr s => TStr s
  | JObj fields => TObj ((λ f, match f with (k, j) => (k, ofJSON j) end) <$> fields)
  | JArr items => TArr (ofJSON <$> items)
  end.

Definition json_roundtrip (t : tree) : option tree := ofJSON <$> toJSON t.

(** Trees that JSON carries unchanged: no [undefined], function, date or
    non-finite number anywhere. *)
Fixpoint json_clean (t : tree) : bool :=
  match t with
  | TUndef | TFun _ | TDate _ => false
  | TNum (Fin _) => true
  | TNum _ => false
  | TNull | TBool _ | TStr _ => true
  | TObj props => forallb (λ p, match p with (_, t) => json_clean t end) props
  | TArr elems => forallb json_clean elems
  end.

Fixpoint tree_assoc (k : string) (props : list (string * tree)) : option tree :=
  match props with
  | [] => None
  | (k', t) :: rest => if String.eqb k k' then Some t else tree_assoc k rest
  end.

(** The depth of nesting of a tree, and its size. *)
Fixpoint tree_depth (t : tree) : nat :=
  match t with
  | TObj props => S (max_list_with (λ p, match p with (_, t) => tree_depth t end) props)
  | TArr elems => S (max_list_with tree_depth elems)
  | _ => 0
  end.

Fixpoint tree_size (t : tree) : nat :=
  match t with
  | TObj props => S (sum_list_with (λ p, match p with (_, t) => tree_size t end) props)
  | TArr elems => S (sum_list_with tree_size elems)
  | _ => 1
  end.

(** ** The batch runner (lib/batch.js) *)

(** What the batch runner asks of its host: Node's [fs] and [path], [glob]
    and [js-yaml].  [W] is the state of the file system, [Doc] a parsed
    document. *)
Class Host (W Doc : Type) := {
  readFileSync : W → string → outcome string;
  writeFileSync : W → string → string → outcome W;
  existsSync : W → string → bool;
  mkdirSync : W → string → outcome W;
  glob_sync : W → string → outcome (list string);
  yaml_load : string → outcome Doc;
  yaml_dump : Doc → outcome string;
  basename : string → option string → string;
  extname : string → string;
  join : string → string → string
}.

(** [outputDir] is [None] when it is undefined or the empty string. *)
Record options (Doc : Type) := Options {
  inputPattern : string;
  scriptPath : string;
  outputDir : option string;
  overwrite : bool;
  opt_executeScript : Doc → string → string → outcome Doc;
  concurrency : Z
}.
Arguments Options {Doc}.
Arguments inputPattern {Doc}.
Arguments scriptPath {Doc}.
Arguments outputDir {Doc}.
Arguments overwrite {Doc}.
Arguments opt_executeScript {Doc}.
Arguments concurrency {Doc}.

(** One element of the result array; an absent key is [None]. *)
Record entry := Entry {
  input : option string;
  output : option string;
  error : option string;
  success : bool
}.

Definition succeeded (file outputPath : string) : entry :=
  Entry (Some file) (Some outputPath) None true.

Definition failed (file : string) (e : js_error) : entry :=
  Entry (Some file) None (Some (err_message e)) false.

Definition fatal (e : js_error) : entry :=
  Entry None None (Some (err_message e)) false.

(** [try { body } catch (error) { throw new Error(prefix + error.message) }] *)
Definition rewrap {A} (prefix : string) (body : outcome A) : outcome A :=
  match body with
  | Return a => Return a
  | Throw e => Throw (Error (prefix +:+ err_message e))
  end.

Section Batch.
Context {W Doc : Type} {host : Host W Doc}.
Variable opts : options Doc.

Definition outputPathOf (file : string) : string :=
  if overwrite opts then file
  else match outputDir opts with
       | Some dir => join dir (basename file None)
       | None => file +:+ ".converted.yaml"
       end.

(** The body of the sequential loop for one file that has not been seen. *)
Definition convertFile (script : string) (w : W) (file : string) : W * entry :=
  match rewrap "读取或解析文件失败: "
          (content ← readFileSync w file; yaml_load content) with
  | Throw e => (w, failed file e)
  | Return config =>
      let profileName := basename file (Some (extname file)) in
      match opt_executeScript opts config script profileName with
      | Throw e => (w, failed file e)
      | Return processedConfig =>
          let outputPath := outputPathOf file in
          match rewrap "写入结果失败: "
                  (yamlStr ← yaml_dump processedConfig;
                   writeFileSync w outputPath yamlStr) with
          | Throw e => (w, failed file e)
          | Return w' => (w', succeeded file outputPath)
          end
      end
  end.

(** [for (const file of files)] with the set [processedFiles]. *)
Fixpoint batchLoop (script : string) (files : list string)
    (processedFiles : gset string) (w : W) (results : list entry) : W * list entry :=
  match files with
  | [] => (w, results)
  | file :: rest =>
      if decide (file ∈ processedFiles) then
        batchLoop script rest processedFiles w results
      else
        let '(w', e) := convertFile script w file in
        batchLoop script rest ({[file]} ∪ processedFiles) w' (results ++ [e])
  end.

(** The steps before the loop, shared by both variants. *)
Definition readScript (w : W) : outcome string :=
  match readFileSync w (scriptPath opts) with
  | Return s => Return s
  | Throw e =>
      Throw (Error ("无法读取脚本文件 " +:+ scriptPath opts +:+ ": " +:+ err_message e))
  end.

Definition findFiles (w : W) : outcome (list string) :=
  match glob_sync w (inputPattern opts) with
  | Return fs => Return fs
  | Throw e =>
      Throw (Error ("无效的文件模式 " +:+ inputPattern opts +:+ ": " +:+ err_message e))
  end.

Definition ensureOutputDir (w : W) : outcome W :=
  match overwrite opts, outputDir opts with
  | false, Some dir =>
      match (if existsSync w dir then Return w else mkdirSync w dir) with
      | Return w' => Return w'
      | Throw e =>
          Throw (Error ("无法创建输出目录 " +:+ dir +:+ ": " +:+ err_message e))
      end
  | _, _ => Return w
  end.

Definition batchProcess (w : W) : W * list entry :=
  match readScript w with
  | Throw e => (w, [fatal e])
  | Return script =>
      match findFiles w with
      | Throw e => (w, [fatal e])
      | Return files =>
          match files with
          | [] => (w, [])
          | _ =>
              match ensureOutputDir w with
              | Throw e => (w, [fatal e])
              | Return w1 => batchLoop script files ∅ w1 []
              end
          end
      end
  end.

(** [Array.prototype.slice(start, end)]. *)
Definition slice {A} (l : list A) (start end_ : Z) : list A :=
  let len := Z.of_nat (length l) in
  let from := if (start <? 0)%Z then Z.max (len + start) 0 else Z.min start len in
  let to := if (end_ <? 0)%Z then Z.max (len + end_) 0 else Z.min end_ len in
  take (Z.to_nat (to - from)) (drop (Z.to_nat from) l).

(** [for (let i = 0; i < files.length; i += concurrency)]: with a
    concurrency below 1 the loop never ends, which is [None]. *)
Fixpoint groupLoop (fuel : nat) (files : list string) (i : Z)
    (fileGroups : list (list string)) : option (list (list string)) :=
  if (i <? Z.of_nat (length files))%Z then
    match fuel with
    | O => None
    | S fuel' =>
        groupLoop fuel' files (i + concurrency opts)%Z
          (fileGroups ++ [slice files i (i + concurrency opts)%Z])
    end
  else Some fileGroups.

(** [processFile]: an [async] function without an [await], so each call
    runs to its end before the next one of the group starts. *)
Definition processFile (script : string) (w : W) (file : string) : W * entry :=
  match (content ← readFileSync w file; yaml_load content) with
  | Throw e => (w, failed file e)
  | Return config =>
      let profileName := basename file (Some (extname file)) in
      match opt_executeScript opts config script profileName with
      | Throw e => (w, failed file e)
      | Return processedConfig =>
          let outputPath := outputPathOf file in
          match (yamlStr ← yaml_dump processedConfig;
                 writeFileSync w outputPath yamlStr) with
          | Throw e => (w, failed file e)
          | Return w' => (w', succeeded file outputPath)
          end
      end
  end.

(** [group.map(processFile)] followed by [await Promise.all]. *)
Fixpoint processGroup (script : string) (group : list string) (w : W)
    : W * list entry :=
  match group with
  | [] => (w, [])
  | file :: rest =>
      let '(w1, e) := processFile script w file in
      let '(w2, es) := processGroup script rest w1 in
      (w2, e :: es)
  end.

Fixpoint processGroups (script : string) (fileGroups : list (list string))
    (w : W) (results : list entry) : W * list entry :=
  match fileGroups with
  | [] => (w, results)
  | group :: rest =>
      let '(w1, groupResults) := processGroup script group w in
      processGroups script rest w1 (results ++ groupResults)
  end.

(** The promise: [None] never settles, [Some (Throw _)] is rejected. *)
Definition batchProcessParallel (w : W) : option (W * outcome (list entry)) :=
  match readScript w with
  | Throw e => Some (w, Throw e)
  | Return script =>
      match findFiles w with
      | Throw e => Some (w, Throw e)
      | Return files =>
          match files with
          | [] => Some (w, Return [])
          | _ =>
              match ensureOutputDir w with
              | Throw e => Some (w, Throw e)
              | Return w1 =>
                  match groupLoop (length files) files 0 [] with
                  | None => None
                  | Some fileGroups =>
                      let '(w2, results) := processGroups script fileGroups w1 [] in
                      Some (w2, Return results)
                  end
              end
          end
      end
  end.
End Batch.

(** The paths of a match list with later repetitions left out. *)
Fixpoint firstOccurrences (seen : gset string) (files : list string) : list string :=
  match files with
  | [] => []
  | file :: rest =>
      if decide (file ∈ seen) then firstOccurrences seen rest
      else file :: firstOccurrences ({[file]} ∪ seen) rest
  end.

(** The loop body applied to a list of distinct files, one after the other. *)
Fixpoint convertAll {W Doc} {host : Host W Doc} (opts : options Doc) (script : string)
    (files : list string) (w : W) : W * list entry :=
  match files with
  | [] => (w, [])
  | file :: rest =>
      let '(w1, e) := convertFile opts script w file in
      let '(w2, es) := convertAll opts script rest w1 in
      (w2, e :: es)
  end.

(** An entry of the result array is a success or a recorded failure. *)
Definition well_formed_entry (e : entry) : Prop :=
  (success e = true ∧ error e = None ∧ is_Some (output e))
  ∨ (success e = false ∧ is_Some (error e) ∧ output e = None).

(** ** The fetcher ([downloadSubscription], server.js) *)

(** [response.data] is text, or a document when the transport has already
    parsed a JSON body. *)
Inductive content :=
  | Text (s : string)
  | Data (j : json).

Record response := Response {
  status : Z;
  data : content;
  resp_headers : json
}.

Inductive io_event :=
  | HttpGet (url : string)
  | CacheExists (path : string)
  | CacheRead (path : string)
  | CacheWrite (path : string).

Record download := Download {
  dl_result : outcome (content * json);
  dl_files : gmap string string;
  dl_trace : list io_event
}.

(** [String.prototype.trim] at the front of a UTF-8 string: the white space
    and line terminators of the language, byte by byte. *)
Definition ws3 (a b c : nat) : bool :=
  ((a =? 225) && (b =? 154) && (c =? 128))
  || ((a =? 226) && (b =? 128) && ((128 <=? c) && (c <=? 138)))
  || ((a =? 226) && (b =? 128) && ((c =? 168) || (c =? 169) || (c =? 175)))
  || ((a =? 226) && (b =? 129) && (c =? 159))
  || ((a =? 227) && (b =? 128) && (c =? 128))
  || ((a =? 239) && (b =? 187) && (c =? 191)).

Fixpoint trimStart (s : string) : string :=
  match s with
  | EmptyString => s
  | String a r1 =>
      let n := nat_of_ascii a in
      if ((9 <=? n) && (n <=? 13)) || (n =? 32) then trimStart r1
      else
        match r1 with
        | EmptyString => s
        | String b r2 =>
            let m := nat_of_ascii b in
            if (n =? 194) && (m =? 160) then trimStart r2
            else
              match r2 with
              | EmptyString => s
              | String c r3 => if ws3 n m (nat_of_ascii c) then trimStart r3 else s
              end
        end
  end.

(** [cachedContent.trim().startsWith('{')] *)
Definition json_looking (cachedContent : string) : bool :=
  String.prefix "{" (trimStart cachedContent).

Definition msg_no_cache (url : string) : string := "下载订阅失败且无可用缓存: " +:+ url.
Definition msg_bad_cache (url : string) : string := "下载订阅失败且缓存内容无效: " +:+ url.

(** The spec's error classes of the fetcher. *)
Definition DownloadError (url : string) : js_error := Error (msg_no_cache url).
Definition CacheCorruptError (url : string) : js_error := Error (msg_bad_cache url).

Section Fetcher.
(** [crypto]'s MD5 in hex, the cache directory, [path.join], the text form
    of JSON, and what the network answers to a GET of a URL (with the 15 s
    timeout and the client string of the code). *)
Variable md5hex : string → string.
Variable CACHE_DIR : string.
Variable path_join : string → string → string.
Variable JSON_stringify : json → string.
Variable JSON_parse : string → outcome json.
Variable request : string → outcome response.

Definition cachePath (url : string) : string :=
  path_join CACHE_DIR (md5hex url +:+ ".cache").

Definition headersCachePath (url : string) : string :=
  path_join CACHE_DIR (md5hex url +:+ ".headers.json").

(** [axios.get] with [validateStatus: status => status < 400]. *)
Definition axios_get (url : string) : outcome response :=
  r ← request url;
  if (status r <? 400)%Z then Return r
  else Throw (Error "Request failed with status code").

(** The headers stored with a cache entry: [{}] when the file is missing or
    does not parse. *)
Definition cachedHeaders (files : gmap string string) (url : string) : json :=
  match files !! headersCachePath url with
  | Some text =>
      match JSON_parse text with
      | Return headers => headers
      | Throw _ => JObj []
      end
  | None => JObj []
  end.

Definition headersEvents (files : gmap string string) (url : string) : list io_event :=
  CacheExists (headersCachePath url)
  :: match files !! headersCachePath url with
     | Some _ => [CacheRead (headersCachePath url)]
     | None => []
     end.

(** File operations in the cache directory, which the server creates when
    it starts, are taken to succeed. *)
Definition downloadSubscription (url : string) (useCache : bool)
    (files : gmap string string) : download :=
  match axios_get url with
  | Return response =>
      let body := match data response with
                  | Text s => s
                  | Data j => JSON_stringify j
                  end in
      let files1 := <[cachePath url := body]> files in
      let files2 := <[headersCachePath url := JSON_stringify (resp_headers response)]> files1 in
      Download (Return (data response, resp_headers response)) files2
        [HttpGet url; CacheWrite (cachePath url); CacheWrite (headersCachePath url)]
  | Throw error =>
      if useCache then
        match files !! cachePath url with
        | Some cachedContent =>
            let headers := cachedHeaders files url in
            let tr := [HttpGet url; CacheExists (cachePath url); CacheRead (cachePath url)]
                      ++ headersEvents files url in
            if json_looking cachedContent then
              match JSON_parse cachedContent with
              | Return j => Download (Return (Data j, headers)) files tr
              | Throw _ => Download (Throw (CacheCorruptError url)) files tr
              end
            else Download (Return (Text cachedContent, headers)) files tr
        | None =>
            Download (Throw (DownloadError url)) files [HttpGet url; CacheExists (cachePath url)]
        end
      else Download (Throw (DownloadError url)) files [HttpGet url]
  end.
End Fetcher.

(** An event that looks into the cache. *)
Definition consults_cache (e : io_event) : Prop :=
  match e with
  | CacheExists _ | CacheRead _ => True
  | _ => False
  end.

(** The entry the cache holds for a body: the text, or the document it
    spells when it looks like JSON. *)
Definition decodeCached (JSON_parse : string → outcome json) (cachedContent : string)
    : outcome content :=
  if json_looking cachedContent then
    match JSON_parse cachedContent with
    | Return j => Return (Data j)
    | Throw e => Throw e
    end
  else Return (Text cachedContent).

(** ** Sample inputs *)

(** [{ rules: "", port: 80.5, "socks-port": NaN, mode: "" }] *)
Definition lax_heap : heap :=
  [CObj [("rules", VStr ""); ("port", VNum (Fin (161 # 2)));
         ("socks-port", VNum NaN); ("mode", VStr "")]].

(** [{ port: 70000 }] *)
Definition port70000_heap : heap := [CObj [("port", VNum (num_of_Z 70000))]].

(** [{ mode: "rule", rules: ["A"] }] at location 1. *)
Definition sample_heap : heap :=
  [CArr [VStr "A"]; CObj [("mode", VStr "rule"); ("rules", VRef 0)]].

Definition sample_script : string :=
  "function main(config, profileName) { return config; }".

(** [return config;] after [ms] milliseconds. *)
Definition identity_after (ms : Z) : script_fn :=
  λ h config _, Run h [] (MainReturns config ms).

(** [return [];] after [ms] milliseconds. *)
Definition empty_array_after (ms : Z) : script_fn :=
  λ h _ _, Run (h ++ [CArr []]) [] (MainReturns (VRef (length h)) ms).

(** [return 42;] after [ms] milliseconds. *)
Definition number_after (ms : Z) : script_fn :=
  λ h _ _, Run h [] (MainReturns (VNum (num_of_Z 42)) ms).

(** In-place updates a routine can make. *)
Fixpoint set_prop (k : string) (v : val) (props : list (string * val))
    : list (string * val) :=
  match props with
  | [] => [(k, v)]
  | (k', v') :: rest =>
      if String.eqb k k' then (k, v) :: rest else (k', v') :: set_prop k v rest
  end.

(** [target[k] = v] on an object. *)
Definition heap_set (h : heap) (target : val) (k : string) (v : val) : heap :=
  match target with
  | VRef l =>
      match h !! l with
      | Some (CObj props) => <[l := CObj (set_prop k v props)]> h
      | _ => h
      end
  | _ => h
  end.

(** [target.unshift(v)] on an array. *)
Definition heap_unshift (h : heap) (target : val) (v : val) : heap :=
  match target with
  | VRef l =>
      match h !! l with
      | Some (CArr elems) => <[l := CArr (v :: elems)]> h
      | _ => h
      end
  | _ => h
  end.

(** [config.rules.unshift("B"); config.mode = "global"; return config;] *)
Definition mutating_main : script_fn :=
  λ h config _,
    let h1 := heap_unshift h (get h config "rules") (VStr "B") in
    let h2 := heap_set h1 config "mode" (VStr "global") in
    Run h2 [] (MainReturns config 5).

(** [{ port: 7890, secret: undefined, hook: function, updated: Date }] *)
Definition exotic_heap : heap :=
  [CObj [("port", VNum (num_of_Z 7890)); ("secret", VUndef); ("hook", VFun 0);
         ("updated", VDate "2024-01-01T00:00:00.000Z")]].

Definition exotic_tree : tree :=
  TObj [("port", TNum (num_of_Z 7890)); ("secret", TUndef); ("hook", TFun 0);
        ("updated", TDate "2024-01-01T00:00:00.000Z")].

(** *** An in-memory host for the examples *)

Fixpoint last_segment (s : string) : string :=
  match s with
  | EmptyString => EmptyString
  | String c r =>
      if includes "/" r then last_segment r
      else if Ascii.eqb c "/" then r else s
  end.

Fixpoint last_extension (s : string) : string :=
  match s with
  | EmptyString => EmptyString
  | String c r =>
      if includes "." r then last_extension r
      else if Ascii.eqb c "." then s else EmptyString
  end.

Definition strip_suffix (ext s : string) : string :=
  if String.prefix (String.rev ext) (String.rev s)
  then String.substring 0 (String.length s - String.length ext) s
  else s.

(** Files are a map from paths to contents, directories always exist, the
    matcher returns [matches], and a document is its own text, ill-formed
    when it starts with the reserved indicator [@]. *)
Definition mem_host (matches : list string) : Host (gmap string string) string := {|
  readFileSync w p :=
    match w !! p with
    | Some c => Return c
    | None => Throw (Error ("ENOENT: no such file or directory, open " +:+ p))
    end;
  writeFileSync w p c := Return (<[p := c]> w);
  existsSync w p := true;
  mkdirSync w p := Return w;
  glob_sync w pattern := Return matches;
  yaml_load s :=
    if String.prefix "@" s
    then Throw (Error "end of the stream or a document separator is expected")
    else Return s;
  yaml_dump d := Return d;
  basename p ext := match ext with
                    | Some e => strip_suffix e (last_segment p)
                    | None => last_segment p
                    end;
  extname p := last_extension (last_segment p);
  join a b := a +:+ "/" +:+ b
|}.

Definition five_files : list string :=
  ["configs/a.yaml"; "configs/b.yaml"; "configs/c.yaml"; "configs/d.yaml";
   "configs/e.yaml"].

(** Five manifests, the third one ill-formed, and the script. *)
Definition five_world : gmap string string :=
  list_to_map [("rules.js", sample_script);
               ("configs/a.yaml", "mode: rule");
               ("configs/b.yaml", "mode: global");
               ("configs/c.yaml", "@mode: rule");
               ("configs/d.yaml", "mode: direct");
               ("configs/e.yaml", "port: 7890")].

Definition five_options : options string :=
  Options "configs/*.yaml" "rules.js" (Some "out") false (λ config _ _, Return config) 2.

(** *** A network that is down and a cache with one entry, for the examples *)

Definition toy_parse (s : string) : outcome json :=
  if String.eqb s "{}" then Return (JObj []) else Throw (SyntaxError "Unexpected token").

Definition toy_join (a b : string) : string := a +:+ "/" +:+ b.

Definition offline (url : string) : outcome response := Throw (Error "connect ECONNREFUSED").

Definition sample_url : string := "https://example.com/sub".

Definition sample_cache : gmap string string :=
  {[ "cache/https://example.com/sub.cache" := "mode: rule" ]}.

(** ** More of the executor *)

Definition is_invoke (e : event) : bool :=
  match e with EvInvoke _ _ _ => true | _ => false end.

Definition is_compile (e : event) : bool :=
  match e with EvCompile _ => true | _ => false end.

(** The prefix the [catch] clause puts on every message. *)
Definition msg_failed : string := "脚本执行失败: ".

(** The keys [validateConfig] reads. *)
Definition recognizedFields : list string := arrayFields ++ portFields ++ ["mode"].

(** A property read on a tree. *)
Definition tget (t : tree) (k : string) : tree :=
  match t with
  | TObj props => default TUndef (tree_assoc k props)
  | _ => TUndef
  end.

(** ** More of the batch runner *)

(** Two entries that differ at most in the text of their error. *)
Definition same_outcome (e1 e2 : entry) : Prop :=
  input e1 = input e2 ∧ output e1 = output e2 ∧ success e1 = success e2.

(** A string option as the code tests it: the empty string is falsy. *)
Definition truthy_string (s : string) : option string :=
  if String.eqb s "" then None else Some s.

(** [main] of lib/cli-batch.js: the batch is run with the output directory
    of the command line, or [output] under the working directory; the exit
    status is 1 when an entry failed, 0 otherwise.  The command line passes
    no concurrency, which the sequential variant does not read. *)
Definition cliBatch {W Doc} {host : Host W Doc}
    (input_ script : string) (outputDirOption : option string) (overwriteFlag : bool)
    (cwd : string) (executeScript : Doc → string → string → outcome Doc) (w : W)
    : W * list entry * Z :=
  let outputDir := match outputDirOption with
                   | Some d => d
                   | None => join cwd "output"
                   end in
  let '(w', results) :=
    batchProcess (Options input_ script (truthy_string outputDir) overwriteFlag
                    executeScript 4) w in
  let successful := length (filter (λ r, success r = true) results) in
  let failed := length results - successful in
  (w', results, if 0 <? failed then 1%Z else 0%Z).

(** ** More of the fetcher *)

Definition is_cache_write (e : io_event) : bool :=
  match e with CacheWrite _ => true | _ => false end.

(** A network that answers every request with [r]. *)
Definition answering (r : response) (url : string) : outcome response := Return r.

(** ** The orchestrator ([processSubscription], server.js) *)

Record artifact := Artifact {
  filePath : string;
  fileName : string;
  art_headers : json
}.

Record processed := Processed {
  ps_result : outcome artifact;
  ps_files : gmap string string;
  ps_heap : heap
}.

Definition enoent (p : string) : js_error :=
  Error ("ENOENT: no such file or directory, open " +:+ p).

Definition msg_not_yaml : string := "订阅内容不是有效的YAML".
Definition msg_parse_failed : string := "解析订阅内容失败: ".
Definition msg_script_unreadable : string := "读取修改脚本失败: ".
Definition msg_script_failed : string := "执行修改脚本失败: ".
Definition msg_write_failed : string := "写入配置文件失败: ".

Section Orchestrator.
(** The parameters of the fetcher, the compiler of the executor, [js-yaml]
    on heap values, the temporary directory and the text of [Date.now()]. *)
Variable md5hex : string → string.
Variable CACHE_DIR : string.
Variable path_join : string → string → string.
Variable JSON_stringify : json → string.
Variable JSON_parse : string → outcome json.
Variable request : string → outcome response.
Variable compile : string → outcome script_fn.
Variable yaml_load_value : content → heap → outcome (val * heap).
Variable yaml_dump_value : heap → val → outcome string.
Variable OS_TEMP_DIR : string.
Variable now : string.

Definition tempFilePathOf (profileName : string) : string :=
  path_join OS_TEMP_DIR
    ("clash_" +:+ (if String.eqb profileName "" then "config" else profileName)
     +:+ "_" +:+ now +:+ ".yaml").

Definition fileNameOf (profileName : string) : string :=
  if String.eqb profileName "" then "config.yaml" else profileName +:+ ".yaml".

(** [yaml.load] followed by the object test, inside its [try]. *)
Definition parseSubscription (subscriptionContent : content) (h : heap)
    : outcome (val * heap) :=
  rewrap msg_parse_failed
    ('(config, h1) ← yaml_load_value subscriptionContent h;
     if negb (truthy config) || negb (is_object_type (typeof config))
     then Throw (Error msg_not_yaml)
     else Return (config, h1)).

Definition processSubscription (subscriptionUrl profileName scriptPath : string)
    (useCache : bool) (files : gmap string string) (h : heap) : processed :=
  let tempFilePath := tempFilePathOf profileName in
  let d := downloadSubscription md5hex CACHE_DIR path_join JSON_stringify JSON_parse
             request subscriptionUrl useCache files in
  match dl_result d with
  | Throw e => Processed (Throw e) (dl_files d) h
  | Return (subscriptionContent, responseHeaders) =>
      match parseSubscription subscriptionContent h with
      | Throw e => Processed (Throw e) (dl_files d) h
      | Return (config, h1) =>
          match rewrap msg_script_unreadable
                  (match dl_files d !! scriptPath with
                   | Some script => Return script
                   | None => Throw (enoent scriptPath)
                   end) with
          | Throw e => Processed (Throw e) (dl_files d) h1
          | Return script =>
              let x := executeScript compile h1 config script profileName in
              match rewrap msg_script_failed (exec_result x) with
              | Throw e => Processed (Throw e) (dl_files d) (exec_heap x)
              | Return processedConfig =>
                  match rewrap msg_write_failed
                          (yaml_dump_value (exec_heap x) processedConfig) with
                  | Throw e => Processed (Throw e) (dl_files d) (exec_heap x)
                  | Return yamlStr =>
                      Processed
                        (Return (Artifact tempFilePath (fileNameOf profileName)
                                   responseHeaders))
                        (<[tempFilePath := yamlStr]> (dl_files d))
                        (exec_heap x)
                  end
              end
          end
      end
  end.
End Orchestrator.

(** The prefixes the orchestrator puts on a failure of its own steps.  The
    executor's step carries the prefix of the executor's own [catch] clause
    as well. *)
Definition stage_prefixes : list string :=
  [msg_parse_failed; msg_script_unreadable; msg_script_failed +:+ msg_failed;
   msg_write_failed].

(** A loader and a dumper for examples: the empty text loads as [undefined],
    every other document as the manifest [{mode: rule}]. *)
Definition toy_load (c : content) (h : heap) : outcome (val * heap) :=
  match c with
  | Text "" => Return (VUndef, h)
  | _ => Return (VRef (length h), h ++ [CObj [("mode", VStr "rule")]])
  end.

Definition toy_dump (h : heap) (v : val) : outcome string := Return "mode: rule".

Definition sample_disk : gmap string string := {[ "script.js" := sample_script ]}.

(** ** The request handlers ([/convert], server.js) *)

(** [encodeURIComponent] on UTF-8 text: the unreserved characters stay,
    every other byte becomes [%] and two upper-case hex digits. *)
Definition is_unreserved (a : ascii) : bool :=
  let n := nat_of_ascii a in
  ((65 <=? n) && (n <=? 90)) || ((97 <=? n) && (n <=? 122)) || ((48 <=? n) && (n <=? 57))
  || bool_decide (a ∈ ["-"; "_"; "."; "!"; "~"; "*"; "'"; "("; ")"]%char).

Definition hex_digit (n : nat) : ascii :=
  ascii_of_nat (if n <? 10 then 48 + n else 55 + n).

Fixpoint encodeURIComponent (s : string) : string :=
  match s with
  | EmptyString => EmptyString
  | String a rest =>
      if is_unreserved a then String a (encodeURIComponent rest)
      else String "%" (String (hex_digit (nat_of_ascii a / 16))
                         (String (hex_digit (nat_of_ascii a mod 16))
                            (encodeURIComponent rest)))
  end.

(** A character of an encoded component. *)
Definition is_encoded_char (a : ascii) : bool :=
  is_unreserved a || bool_decide (a = "%"%char).

Fixpoint string_forallb (f : ascii → bool) (s : string) : bool :=
  match s with
  | EmptyString => true
  | String a rest => f a && string_forallb f rest
  end.

(** [originalHeaders[key]] for a key that is neither [length] nor an index:
    reading a property of [null] throws, a primitive or an array has none,
    an object gives the value [get] would read once it is parsed.  [None]
    is [undefined]. *)
Fixpoint jassoc (k : string) (fields : list (string * json)) : option json :=
  match fields with
  | [] => None
  | (k', j) :: rest => if String.eqb k k' then Some j else jassoc k rest
  end.

Definition msg_null_property (key : string) : string :=
  "Cannot read properties of null (reading '" +:+ key +:+ "')".

Definition jget (j : json) (key : string) : outcome (option json) :=
  match j with
  | JNull => Throw (TypeError (msg_null_property key))
  | JObj fields => Return (jassoc key fields)
  | _ => Return None
  end.

Definition jtruthy (v : option json) : bool :=
  match v with
  | None | Some JNull => false
  | Some (JBool b) => b
  | Some (JNum q) => negb (is_zero q)
  | Some (JStr s) => negb (String.eqb s "")
  | Some (JObj _) | Some (JArr _) => true
  end.
Arguments jtruthy : simpl never.

(** The response under construction: the calls of [res.setHeader] so far,
    in order.  A step either goes on or throws; the headers set before a
    throw stay set. *)
Definition resM : Type := list (string * json) → outcome unit * list (string * json).

Definition seqR (a b : resM) : resM :=
  λ res, match a res with
         | (Return _, res1) => b res1
         | (Throw e, res1) => (Throw e, res1)
         end.

Definition skipR : resM := λ res, (Return tt, res).
Definition throwR (e : js_error) : resM := λ res, (Throw e, res).

Definition attachment (fileName : string) : json :=
  JStr ("attachment; filename=" +:+ encodeURIComponent fileName).

Definition msg_missing_url : string := "缺少订阅链接参数 (url)".
Definition msg_convert_failed : string := "处理订阅时出错: ".

(** [fs.unlinkSync]. *)
Definition unlinkSync (p : string) (files : gmap string string)
    : outcome (gmap string string) :=
  match files !! p with
  | Some _ => Return (delete p files)
  | None => Throw (Error ("ENOENT: no such file or directory, unlink '" +:+ p +:+ "'"))
  end.

(** The closure [cleanupTemp] and its flag; [cl_unlinks] counts the calls of
    [fs.unlinkSync]. *)
Record cleanup := Cleanup {
  cleaned : bool;
  cl_files : gmap string string;
  cl_unlinks : nat
}.

Definition cleanupTemp (tempFilePath : string) (s : cleanup) : cleanup :=
  if negb (cleaned s) && negb (String.eqb tempFilePath "") then
    match unlinkSync tempFilePath (cl_files s) with
    | Return files' => Cleanup true files' (S (cl_unlinks s))
    | Throw _ => Cleanup (cleaned s) (cl_files s) (S (cl_unlinks s))
    end
  else s.

(** The four events the closure listens to. *)
Inductive stream_event := FileEnd | FileError | ResFinish | ResClose.

Definition afterEvents (tempFilePath : string) (events : list stream_event)
    (files : gmap string string) : cleanup :=
  foldl (λ s _, cleanupTemp tempFilePath s) (Cleanup false files 0) events.

(** What the handler has done when it returns: a status and a body sent, or
    the temporary file piped into the response. *)
Inductive reply :=
  | Sent (status : Z) (body : string)
  | Piped (path : string).

Record handled := Handled {
  hd_reply : reply;
  hd_headers : list (string * json);
  hd_files : gmap string string;
  hd_heap : heap
}.

(** The two fields of the service configuration a handler reads. *)
Record service := Service {
  sc_scriptPath : string;
  sc_useCache : val
}.

(** [!noCache && config.useCache] as [downloadSubscription] takes it: its
    parameter defaults to [true] when the argument is [undefined], and is
    used as a condition. *)
Definition useCacheOf (noCache : bool) (configUseCache : val) : bool :=
  if noCache then false
  else match configUseCache with
       | VUndef => true
       | v => truthy v
       end.

(** The query of a GET and the body of a POST: each parameter absent or a
    string, [noCache] of a body any JSON value. *)
Record query := Query {
  q_url : option string;
  q_name : option string;
  q_noCache : option string
}.

Record body := Body {
  b_url : option string;
  b_name : option string;
  b_noCache : option json
}.

Section Handlers.
Variable md5hex : string → string.
Variable CACHE_DIR : string.
Variable path_join : string → string → string.
Variable JSON_stringify : json → string.
Variable JSON_parse : string → outcome json.
Variable request : string → outcome response.
Variable compile : string → outcome script_fn.
Variable yaml_load_value : content → heap → outcome (val * heap).
Variable yaml_dump_value : heap → val → outcome string.
Variable OS_TEMP_DIR : string.
Variable now : string.
(** [String.prototype.toLowerCase], and the error with which
    [res.setHeader] refuses a name and a value, if it does. *)
Variable toLowerCase : string → string.
Variable header_error : string → json → option js_error.

Definition setHeader (name : string) (value : json) : resM :=
  λ res, match header_error name value with
         | Some e => (Throw e, res)
         | None => (Return tt, res ++ [(name, value)])
         end.

Definition isClashClient (userAgent : option string) : bool :=
  match userAgent with
  | Some ua => negb (String.eqb ua "") && includes "clash" (toLowerCase ua)
  | None => false
  end.

(** [if (originalHeaders[key]) res.setHeader(name, originalHeaders[key])] *)
Definition forward (originalHeaders : json) (key name : string) : resM :=
  match jget originalHeaders key with
  | Throw e => throwR e
  | Return v =>
      match v with
      | Some value => if jtruthy v then setHeader name value else skipR
      | None => skipR
      end
  end.

Definition setResponseHeaders (userAgent : option string) (originalHeaders : json)
    (fileName : string) : resM :=
  seqR
    (if isClashClient userAgent then
       seqR (match jget originalHeaders "content-disposition" with
             | Throw e => throwR e
             | Return v =>
                 match v with
                 | Some value =>
                     if jtruthy v then setHeader "Content-Disposition" value
                     else setHeader "Content-Disposition" (attachment fileName)
                 | None => setHeader "Content-Disposition" (attachment fileName)
                 end
             end)
      (seqR (forward originalHeaders "profile-update-interval" "Profile-Update-Interval")
      (seqR (forward originalHeaders "subscription-userinfo" "Subscription-Userinfo")
            (forward originalHeaders "profile-web-page-url" "Profile-Web-Page-Url")))
     else setHeader "Content-Disposition" (attachment fileName))
    (setHeader "Content-Type" (JStr "application/x-yaml")).

(** The handler once the configuration is read and the parameters are
    taken from the request. *)
Definition convertRequest (config : service) (userAgent : option string)
    (subscriptionUrl profileName : string) (noCache : bool)
    (files : gmap string string) (h : heap) : handled :=
  if String.eqb subscriptionUrl "" then Handled (Sent 400 msg_missing_url) [] files h
  else
    let p := processSubscription md5hex CACHE_DIR path_join JSON_stringify JSON_parse
               request compile yaml_load_value yaml_dump_value OS_TEMP_DIR now
               subscriptionUrl profileName (sc_scriptPath config)
               (useCacheOf noCache (sc_useCache config)) files h in
    match ps_result p with
    | Throw error =>
        Handled (Sent 500 (msg_convert_failed +:+ err_message error)) []
          (ps_files p) (ps_heap p)
    | Return result =>
        let tempFilePath := filePath result in
        match setResponseHeaders userAgent (art_headers result) (fileName result) [] with
        | (Return _, res) => Handled (Piped tempFilePath) res (ps_files p) (ps_heap p)
        | (Throw error, res) =>
            let files1 :=
              if String.eqb tempFilePath "" then ps_files p
              else match unlinkSync tempFilePath (ps_files p) with
                   | Return files' => files'
                   | Throw _ => ps_files p
                   end in
            Handled (Sent 500 (msg_convert_failed +:+ err_message error)) res
              files1 (ps_heap p)
        end
    end.

(** [app.get('/convert', ...)] *)
Definition getConvert (config : service) (userAgent : option string) (q : query)
    (files : gmap string string) (h : heap) : handled :=
  convertRequest config userAgent (default "" (q_url q)) (default "" (q_name q))
    (bool_decide (q_noCache q = Some "1")) files h.

(** [app.post('/convert', ...)] *)
Definition postConvert (config : service) (userAgent : option string) (b : body)
    (files : gmap string string) (h : heap) : handled :=
  convertRequest config userAgent (default "" (b_url b)) (default "" (b_name b))
    (jtruthy (b_noCache b)) files h.
End Handlers.

(** The files once the response is over: the closure has run on each event
    of a piped response. *)
Definition settled (hd : handled) (events : list stream_event) : gmap string string :=
  match hd_reply hd with
  | Piped path => cl_files (afterEvents path events (hd_files hd))
  | Sent _ _ => hd_files hd
  end.

(** A response that refuses a line break in a value. *)
Definition no_line_break (name : string) (value : json) : option js_error :=
  match value with
  | JStr s =>
      if includes (String (ascii_of_nat 10) EmptyString) s
      then Some (TypeError "Invalid character in header content")
      else None
  | _ => None
  end.

Definition sample_service : service := Service "script.js" (VBool true).

(** The value the handlers forward for a key of the upstream headers: the
    one stored there, when it is truthy. *)
Definition wanted (originalHeaders : json) (key : string) : option json :=
  match jget originalHeaders key with
  | Return (Some v) => if jtruthy (Some v) then Some v else None
  | _ => None
  end.

(** The upstream keys forwarded to a Clash client, with the names they are
    forwarded under. *)
Definition forwarded : list (string * string) :=
  [("profile-update-interval", "Profile-Update-Interval");
   ("subscription-userinfo", "Subscription-Userinfo");
   ("profile-web-page-url", "Profile-Web-Page-Url")].

(** ** The service configuration ([readServiceConfig], server.js) *)

(** [target[k] = x] in a module that is not strict, on a target that is
    neither [null] nor [undefined]: an object takes the property, a
    primitive drops it without a word.  An array, a date or a function
    would take it as a named property, which the heap does not hold:
    [None]. *)
Definition assign (h : heap) (target : val) (k : string) (x : val) : option heap :=
  match target with
  | VRef l =>
      match h !! l with
      | Some (CObj _) => Some (heap_set h target k x)
      | _ => None
      end
  | VFun _ | VDate _ => None
  | _ => Some h
  end.

Definition falsy (v : val) : bool := negb (truthy v).

Definition is_undefined (v : val) : bool :=
  match v with VUndef => true | _ => false end.

(** [if (missing(target[k])) target[k] = x] *)
Definition setDefault (missing : val → bool) (h : heap) (target : val) (k : string)
    (x : val) : option heap :=
  if missing (get h target k) then assign h target k x else Some h.

(** The cells of [DEFAULT_CONFIG] and of its [https] object. *)
Definition default_props (https : val) : list (string * val) :=
  [("scriptPath", VStr "./rules-script.js"); ("port", VNum (num_of_Z 3000));
   ("useCache", VBool true); ("https", https)].

Definition default_https_props : list (string * val) :=
  [("enabled", VBool false); ("forceHttps", VBool false);
   ("port", VNum (num_of_Z 443)); ("certPath", VStr "./cert/server.crt");
   ("keyPath", VStr "./cert/server.key")].

Definition holds_defaults (h : heap) (d dh : loc) : Prop :=
  h !! d = Some (CObj (default_props (VRef dh)))
  ∧ h !! dh = Some (CObj default_https_props).

Section ServiceConfig.
(** The path of the configuration file, the object [DEFAULT_CONFIG] of the
    module, and [js-yaml]. *)
Variable CONFIG_FILE : string.
Variable DEFAULT_CONFIG : val.
Variable yaml_load_value : content → heap → outcome (val * heap).
Variable yaml_dump_value : heap → val → outcome string.

(** The defaults, for a document that is neither [null] nor [undefined].
    Each statement reads [config.https] and [DEFAULT_CONFIG.https] anew. *)
Definition applyDefaults (h : heap) (config : val) : option heap :=
  h ← setDefault falsy h config "scriptPath" (get h DEFAULT_CONFIG "scriptPath");
  h ← setDefault falsy h config "port" (get h DEFAULT_CONFIG "port");
  h ← setDefault is_undefined h config "useCache" (get h DEFAULT_CONFIG "useCache");
  if falsy (get h config "https")
  then assign h config "https" (get h DEFAULT_CONFIG "https")
  else
    h ← setDefault is_undefined h (get h config "https") "enabled"
           (get h (get h DEFAULT_CONFIG "https") "enabled");
    h ← setDefault is_undefined h (get h config "https") "forceHttps"
           (get h (get h DEFAULT_CONFIG "https") "forceHttps");
    h ← setDefault falsy h (get h config "https") "port"
           (get h (get h DEFAULT_CONFIG "https") "port");
    h ← setDefault falsy h (get h config "https") "certPath"
           (get h (get h DEFAULT_CONFIG "https") "certPath");
    setDefault falsy h (get h config "https") "keyPath"
      (get h (get h DEFAULT_CONFIG "https") "keyPath").

(** The file is written when it is missing, then read and loaded; reading
    a property of a document that is [null] or [undefined] throws, and
    whatever is thrown inside the [try] gives [DEFAULT_CONFIG] itself. *)
Definition readServiceConfig (files : gmap string string) (h : heap)
    : option (val * gmap string string * heap) :=
  let written :=
    match files !! CONFIG_FILE with
    | Some _ => Return files
    | None => s ← yaml_dump_value h DEFAULT_CONFIG; Return (<[CONFIG_FILE := s]> files)
    end in
  match written with
  | Throw _ => Some (DEFAULT_CONFIG, files, h)
  | Return files1 =>
      let loaded :=
        match files1 !! CONFIG_FILE with
        | Some configContent => yaml_load_value (Text configContent) h
        | None => Throw (enoent CONFIG_FILE)
        end in
      match loaded with
      | Throw _ => Some (DEFAULT_CONFIG, files1, h)
      | Return (config, h1) =>
          match config with
          | VUndef | VNull => Some (DEFAULT_CONFIG, files1, h1)
          | _ => h2 ← applyDefaults h1 config; Some (config, files1, h2)
          end
      end
  end.
End ServiceConfig.

(** A heap with the defaults at 0 and 1 and a document that gives a port
    and part of an [https] object at 2 and 3. *)
Definition service_heap : heap :=
  [CObj (default_props (VRef 1)); CObj default_https_props;
   CObj [("port", VNum (num_of_Z 8080)); ("https", VRef 3)];
   CObj [("enabled", VBool true); ("port", VNum (num_of_Z 0))]].

(** A value an assignment of a named property is modelled on: a primitive
    or an object. *)
Definition plain (h : heap) (v : val) : Prop :=
  match v with
  | VRef l => ∃ props, h !! l = Some (CObj props)
  | VFun _ | VDate _ => False
  | _ => True
  end.

(** ** The single-file command (lib/index.js) *)

(** How the command ends: [main] returns, a helper calls
    [process.exit(code)], or an exception leaves [main]. *)
Inductive ending :=
  | Finished
  | Exited (code : Z)
  | Uncaught (e : js_error).

Section SingleFile.
Context {W Doc : Type} {host : Host W Doc}.
(** [path.resolve], and the executor on documents. *)
Variable resolve : string → string.
Variable executeScript : Doc → string → string → outcome Doc.

(** [main] with the options [--input], [--script], [--output] and [--name];
    the helpers [readYamlFile], [readScriptFile] and [writeYamlFile] exit
    with status 1 on whatever is thrown in them, the call of the executor
    is not guarded. *)
Definition cliMain (input_ script : string) (output_ : option string) (name : string)
    (w : W) : W * ending :=
  let configPath := resolve input_ in
  match (content ← readFileSync w configPath; yaml_load content) with
  | Throw _ => (w, Exited 1)
  | Return config =>
      let scriptPath := resolve script in
      match readFileSync w scriptPath with
      | Throw _ => (w, Exited 1)
      | Return scriptText =>
          let profileName :=
            if String.eqb name "" then basename configPath (Some (extname configPath))
            else name in
          match executeScript config scriptText profileName with
          | Throw e => (w, Uncaught e)
          | Return processedConfig =>
              let outputPath := match output_ ≫= truthy_string with
                                | Some o => resolve o
                                | None => configPath
                                end in
              match (yamlStr ← yaml_dump processedConfig;
                     writeFileSync w outputPath yamlStr) with
              | Throw _ => (w, Exited 1)
              | Return w' => (w', Finished)
              end
          end
      end
  end.
End SingleFile.

(** * Properties *)

(** ** Strings *)

Lemma prefix_split (n h : string) : String.prefix n h = true ↔ ∃ b, h = n +:+ b.
Proof.
  revert h. induction n as [|c n IH]; intros h.
  - simpl. split; [intros _; by exists h | by destruct h].
  - destruct h as [|c' h]; simpl; [split; [done | intros [b [=]]]|].
    destruct (Ascii.ascii_dec c c') as [<-|Hne].
    + split.
      * intros [b ->]%IH. by exists b.
      * intros [b [= ->]]. apply IH. by exists b.
    + split; [done|]. intros [b [= ? _]]. done.
Qed.

(** [includes] is the substring test. *)
Lemma includes_spec (n h : string) :
  includes n h = true ↔ ∃ a b, h = a +:+ n +:+ b.
Proof.
  split.
  - induction h as [|c h IH].
    + unfold includes. destruct (String.prefix n "") eqn:Hp; [|discriminate].
      intros _. apply prefix_split in Hp as [b Hb]. by exists "", b.
    + change (includes n (String c h))
        with (if String.prefix n (String c h) then true else includes n h).
      destruct (String.prefix n (String c h)) eqn:Hp.
      * intros _. apply prefix_split in Hp as [b Hb]. by exists "", b.
      * intros (a & b & ->)%IH. by exists (String c a), b.
  - intros (a & b & ->). induction a as [|c a IH].
    + assert (String.prefix n (n +:+ b) = true) as Hp by (apply prefix_split; by exists b).
      change ("" +:+ n +:+ b) with (n +:+ b).
      destruct (n +:+ b) as [|c s]; unfold includes; fold includes; by rewrite Hp.
    + change (includes n (String c a +:+ n +:+ b))
        with (if String.prefix n (String c (a +:+ n +:+ b)) then true
              else includes n (a +:+ n +:+ b)).
      destruct (String.prefix n (String c (a +:+ n +:+ b))); [done | exact IH].
Qed.

(** ** Strict validation *)

Lemma outcome_seq_ok (m k : outcome unit) :
  (m;; k) = Return tt ↔ m = Return tt ∧ k = Return tt.
Proof.
  destruct m as [[]|e]; simpl; split; try tauto; try (intros [? ?]; congruence).
  all: intros H; try discriminate.
Qed.

Lemma check_array_spec h config f :
  check_array h config f = Return tt ↔ array_ok h (get h config f).
Proof.
  unfold check_array, array_ok.
  destruct (truthy _), (isArray _ _); simpl; split; intros H; try done.
  specialize (H eq_refl). discriminate.
Qed.

Lemma num_lt_0 n : num_lt n (num_of_Z 0) = false ∧ num_gt n (num_of_Z 65535) = false
  ↔ in_port_range n.
Proof.
  destruct n as [q| | |]; simpl; unfold num_gt, num_lt, num_of_Z; simpl; try tauto.
  - rewrite !negb_false_iff, !Qle_bool_iff. tauto.
  - split; [intros [? ?]; discriminate | tauto].
  - split; [intros [? ?]; discriminate | tauto].
Qed.

Lemma check_port_spec h config f :
  check_port h config f = Return tt ↔ port_ok (get h config f).
Proof.
  unfold check_port, port_ok.
  destruct (get h config f) as [| |b|n|s|i|d|l] eqn:E;
    try (split; [discriminate | intros [?|(? & ? & ?)]; discriminate]).
  - split; auto.
  - pose proof (num_lt_0 n) as Hn. cbn [typeof is_number_type negb orb].
    destruct (num_lt n (num_of_Z 0)), (num_gt n (num_of_Z 65535));
      cbn [orb]; split.
    all: try discriminate.
    all: try (intros _; right; exists n; split; [reflexivity | apply Hn; split; reflexivity]).
    all: intros [Hu|(n' & Hn' & Hr)]; [discriminate Hu|].
    all: injection Hn' as <-; try reflexivity; destruct (proj2 Hn Hr); congruence.
Qed.

Lemma list_includes_spec l v :
  list_includes l v = true ↔ ∃ s, v = VStr s ∧ s ∈ l.
Proof.
  destruct v; simpl; try (split; [discriminate | intros (? & ? & ?); discriminate]).
  rewrite existsb_exists. split.
  - intros (x & Hin & Heq). apply String.eqb_eq in Heq as <-.
    exists s. split; [done | by apply list_elem_of_In].
  - intros (s' & [= <-] & Hin). exists s. split; [by apply list_elem_of_In | apply String.eqb_refl].
Qed.

Lemma check_mode_spec h config :
  check_mode h config = Return tt ↔ mode_ok (get h config "mode").
Proof.
  unfold check_mode, mode_ok. rewrite <- list_includes_spec.
  destruct (truthy _), (list_includes _ _); simpl; split; intros H; try done.
  specialize (H eq_refl). discriminate.
Qed.

Lemma valid_object_spec v :
  negb (truthy v) || negb (is_object_type (typeof v)) = false ↔ valid_object v.
Proof.
  unfold valid_object. rewrite orb_false_iff, !negb_false_iff.
  destruct (typeof v); simpl; naive_solver.
Qed.

Lemma validateConfig_strict_iff h config :
  validateConfig h config true = Return tt ↔ strict_ok h config.
Proof.
  unfold validateConfig, strict_ok.
  pose proof (valid_object_spec config) as Hv.
  destruct (negb (truthy config) || negb (is_object_type (typeof config))).
  - split; [discriminate | intros [Hvo _]; apply Hv in Hvo; discriminate].
  - simpl forEach. rewrite !outcome_seq_ok, !check_array_spec, !check_port_spec, check_mode_spec.
    unfold arrayFields, portFields. split.
    + intros (Hr & Hp & Hg & (H1 & H2 & H3 & _) & Hm).
      split; [by apply Hv|]. split; [|split; [|done]].
      * intros f Hf. set_solver.
      * intros f Hf. set_solver.
    + intros (_ & Ha & Hp & Hm). repeat split; try done.
      all: first [apply Ha | apply Hp]; set_solver.
Qed.

Lemma prefix_app (a b : string) : String.prefix a (a +:+ b) = true.
Proof.
  induction a as [|c a IH]; simpl.
  - by destruct b.
  - destruct (Ascii.ascii_dec c c); [done | congruence].
Qed.

Lemma outcome_seq_throw (m k : outcome unit) e :
  (m;; k) = Throw e ↔ m = Throw e ∨ (m = Return tt ∧ k = Throw e).
Proof.
  destruct m as [[]|e']; simpl; split; intros H.
  - by right.
  - destruct H as [H|[_ H]]; [discriminate | done].
  - by left.
  - destruct H as [H|[H _]]; [done | discriminate].
Qed.

Lemma check_array_throw h config f e :
  check_array h config f = Throw e →
  e = Error (msg_not_array f) ∧ ¬ array_ok h (get h config f).
Proof.
  intros H. split.
  - unfold check_array in H. destruct (_ && _); congruence.
  - intros Hok. apply check_array_spec in Hok. congruence.
Qed.

Lemma check_port_throw h config f e :
  check_port h config f = Throw e →
  e = Error (msg_bad_port f) ∧ ¬ port_ok (get h config f).
Proof.
  intros H. split.
  - unfold check_port in H. destruct (get h config f); try congruence.
    all: destruct (_ || _); congruence.
  - intros Hok. apply check_port_spec in Hok. congruence.
Qed.

Lemma check_mode_throw h config e :
  check_mode h config = Throw e →
  e = Error msg_bad_mode ∧ ¬ mode_ok (get h config "mode").
Proof.
  intros H. split.
  - unfold check_mode in H. destruct (_ && _); congruence.
  - intros Hok. apply check_mode_spec in Hok. congruence.
Qed.

(** Whatever strict validation throws is about the first field, in the
    order [rules], [proxies], [proxy-groups], [port], [socks-port],
    [mixed-port], [mode], that breaks its rule. *)
Lemma validateConfig_strict_throw h config e :
  validateConfig h config true = Throw e →
  (e = Error msg_invalid_config ∧ ¬ valid_object config)
  ∨ (∃ f, f ∈ arrayFields ∧ e = Error (msg_not_array f) ∧ ¬ array_ok h (get h config f))
  ∨ (∃ f, f ∈ portFields ∧ e = Error (msg_bad_port f) ∧ ¬ port_ok (get h config f))
  ∨ (e = Error msg_bad_mode ∧ ¬ mode_ok (get h config "mode")).
Proof.
  unfold validateConfig.
  pose proof (valid_object_spec config) as Hv.
  destruct (negb (truthy config) || negb (is_object_type (typeof config))).
  - intros [= <-]. left. split; [done|]. intros Hvo. apply Hv in Hvo. discriminate.
  - simpl forEach. rewrite !outcome_seq_throw.
    intros [H|[_ [H|[_ [H|[_ [[H|[_ [H|[_ [H|[_ H]]]]]]|[_ H]]]]]]]].
    1-3: apply check_array_throw in H as [-> ?]; right; left;
         eexists; split; [|done]; unfold arrayFields; set_solver.
    1-3: apply check_port_throw in H as [-> ?]; right; right; left;
         eexists; split; [|done]; unfold portFields; set_solver.
    + discriminate.
    + apply check_mode_throw in H as [-> ?]. by right; right; right.
Qed.

Lemma validateConfig_strict_errors h config e :
  valid_object config → validateConfig h config true = Throw e → e ∈ strict_errors.
Proof.
  intros Hvo H. apply validateConfig_strict_throw in H.
  unfold strict_errors, arrayFields, portFields in *. simpl.
  destruct H as [[_ H]|[(f & Hf & -> & _)|[(f & Hf & -> & _)|[-> _]]]];
    [done | | | set_solver].
  - apply list_elem_of_In in Hf. simpl in Hf. set_solver.
  - apply list_elem_of_In in Hf. simpl in Hf. set_solver.
Qed.




(** ** [JSON.parse] *)

Lemma parse_obj fields h :
  parse (JObj fields) h =
  let '(props, h1) := parse_fields fields h in (VRef (length h1), h1 ++ [CObj props]).
Proof. reflexivity. Qed.

Lemma parse_arr items h :
  parse (JArr items) h =
  let '(vs, h1) := parse_items items h in (VRef (length h1), h1 ++ [CArr vs]).
Proof. reflexivity. Qed.

(** ** Induction over nested documents *)

Lemma json_ind' (P : json → Prop) :
  P JNull → (∀ b, P (JBool b)) → (∀ q, P (JNum q)) → (∀ s, P (JStr s)) →
  (∀ fields, Forall (λ f, P f.2) fields → P (JObj fields)) →
  (∀ items, Forall P items → P (JArr items)) →
  ∀ j, P j.
Proof.
  intros HN HB HQ HS HO HA. fix IH 1.
  intros [|b|q|s|fields|items]; [apply HN|apply HB|apply HQ|apply HS| |].
  - apply HO. induction fields as [|[k j] fs IHfs]; constructor; [apply IH | exact IHfs].
  - apply HA. induction items as [|j js IHjs]; constructor; [apply IH | exact IHjs].
Qed.

Lemma tree_ind' (P : tree → Prop) :
  P TUndef → P TNull → (∀ b, P (TBool b)) → (∀ n, P (TNum n)) → (∀ s, P (TStr s)) →
  (∀ id, P (TFun id)) → (∀ iso, P (TDate iso)) →
  (∀ props, Forall (λ p, P p.2) props → P (TObj props)) →
  (∀ elems, Forall P elems → P (TArr elems)) →
  ∀ t, P t.
Proof.
  intros HU HN HB HQ HS HF HD HO HA. fix IH 1.
  intros [| |b|n|s|id|iso|props|elems];
    [apply HU|apply HN|apply HB|apply HQ|apply HS|apply HF|apply HD| |].
  - apply HO. induction props as [|[k t] ps IHps]; constructor; [apply IH | exact IHps].
  - apply HA. induction elems as [|t ts IHts]; constructor; [apply IH | exact IHts].
Qed.

(** ** The copy lives in new cells *)

Lemma fresh_val_mono n n' v : n' ≤ n → fresh_val n v → fresh_val n' v.
Proof. destruct v; simpl; lia. Qed.

Lemma fresh_cell_mono n n' c : n' ≤ n → fresh_cell n c → fresh_cell n' c.
Proof.
  intros Hle H. eapply Forall_impl; [exact H|]. intros v. by apply fresh_val_mono.
Qed.

Lemma allocates_step h vs1 h1 vs2 h2 :
  allocates h vs1 h1 → allocates h1 vs2 h2 → allocates h (vs1 ++ vs2) h2.
Proof.
  intros (e1 & -> & Hv1 & Hc1) (e2 & -> & Hv2 & Hc2).
  exists (e1 ++ e2). rewrite length_app in *. split; [by rewrite app_assoc|].
  split; apply Forall_app; split; try done.
  - eapply Forall_impl; [exact Hv2|]. intros v. apply fresh_val_mono. lia.
  - eapply Forall_impl; [exact Hc2|]. intros c. apply fresh_cell_mono. lia.
Qed.

Lemma allocates_cell h vs h1 c :
  allocates h vs h1 → cell_vals c = vs →
  allocates h [VRef (length h1)] (h1 ++ [c]).
Proof.
  intros (e & -> & Hv & Hc) Hvs. exists (e ++ [c]).
  split; [by rewrite app_assoc|]. split.
  - constructor; [|done]. simpl. rewrite length_app. lia.
  - apply Forall_app. split; [done|]. constructor; [|done].
    unfold fresh_cell. by rewrite Hvs.
Qed.

Lemma parse_fields_allocates fields :
  Forall (λ f, ∀ h, allocates h [(parse f.2 h).1] (parse f.2 h).2) fields →
  ∀ h, allocates h (parse_fields fields h).1.*2 (parse_fields fields h).2.
Proof.
  induction 1 as [|[k j] fs Hj _ IH]; intros h; simpl.
  - exists []. by rewrite app_nil_r.
  - specialize (Hj h). simpl in Hj. destruct (parse j h) as [v h1]. simpl in Hj.
    specialize (IH h1). destruct (parse_fields fs h1) as [props h2]. simpl in *.
    by apply (allocates_step h [v] h1 (props.*2) h2).
Qed.

Lemma parse_items_allocates items :
  Forall (λ j, ∀ h, allocates h [(parse j h).1] (parse j h).2) items →
  ∀ h, allocates h (parse_items items h).1 (parse_items items h).2.
Proof.
  induction 1 as [|j js Hj _ IH]; intros h; simpl.
  - exists []. by rewrite app_nil_r.
  - specialize (Hj h). destruct (parse j h) as [v h1]. simpl in Hj.
    specialize (IH h1). destruct (parse_items js h1) as [vs h2]. simpl in *.
    by apply (allocates_step h [v] h1 vs h2).
Qed.

Lemma parse_allocates j h : allocates h [(parse j h).1] (parse j h).2.
Proof.
  revert h. induction j as [|b|q|s|fields IH|items IH] using json_ind'; intros h.
  1-4: exists []; rewrite app_nil_r; repeat split; repeat constructor.
  - rewrite parse_obj. pose proof (parse_fields_allocates fields IH h) as Ha.
    destruct (parse_fields fields h) as [props h1]. simpl in *.
    by eapply allocates_cell.
  - rewrite parse_arr. pose proof (parse_items_allocates items IH h) as Ha.
    destruct (parse_items items h) as [vs h1]. simpl in *.
    by eapply allocates_cell.
Qed.

Lemma reachable_fresh h n v l :
  (∀ l c, n ≤ l → h !! l = Some c → fresh_cell n c) →
  fresh_val n v → reachable h v l → n ≤ l.
Proof.
  intros Hclosed Hv Hr. induction Hr as [l|l c v l' Hl Hin _ IH]; [done|].
  apply IH. simpl in Hv. specialize (Hclosed l c Hv Hl).
  unfold fresh_cell in Hclosed. rewrite Forall_forall in Hclosed. by apply Hclosed.
Qed.

(** The copy shares no cell with the caller's heap, which it leaves as it
    was. *)
Lemma json_clone_fresh h config copy h1 :
  json_clone h config = Return (copy, h1) →
  (∀ l c, h !! l = Some c → h1 !! l = Some c)
  ∧ (∀ l, reachable h1 copy l → length h ≤ l).
Proof.
  unfold json_clone. destruct (stringify _ h config) as [[j|]|e]; simpl; try done.
  intros [= Hp]. pose proof (parse_allocates j h) as (ext & Hh & Hv & Hc).
  rewrite Hp in *. simpl in *. subst h1. split.
  - intros l c Hl. by apply lookup_app_l_Some.
  - intros l. apply reachable_fresh; [|by inversion Hv].
    intros l' c Hle Hl'. rewrite lookup_app_r in Hl' by done.
    rewrite Forall_forall in Hc. apply Hc. by eapply list_elem_of_lookup_2.
Qed.

(** The only invocation a call makes is on the copy. *)

(** ** Values and the trees they stand for *)

Lemma Forall2_Forall_r {A B} (P : B → Prop) (R R' : A → B → Prop) l k :
  Forall P k → Forall2 R l k → (∀ a b, P b → R a b → R' a b) → Forall2 R' l k.
Proof.
  intros HP HR Himp. induction HR as [|a b l k Hab _ IH]; [constructor|].
  inversion HP; subst. constructor; [by apply Himp | by apply IH].
Qed.

Lemma represents_app h ext v t : represents h v t → represents (h ++ ext) v t.
Proof.
  revert v. induction t as [| |b|n|s|id|iso|props IH|elems IH] using tree_ind';
    intros v Hr; inversion Hr; subst; try constructor.
  - eapply rep_obj; [by apply lookup_app_l_Some|].
    eapply Forall2_Forall_r; [exact IH|done|]. simpl. intros p [k t] Hp [? ?]. simpl in *.
    split; [done|]. by apply Hp.
  - eapply rep_arr; [by apply lookup_app_l_Some|].
    eapply Forall2_Forall_r; [exact IH|done|]. simpl. intros e t Ht ?. by apply Ht.
Qed.

(** A heap value stands for one tree only. *)
Lemma represents_inj h v t1 t2 : represents h v t1 → represents h v t2 → t1 = t2.
Proof.
  revert v t2. induction t1 as [| |b|n|s|id|iso|props IH|elems IH] using tree_ind';
    intros v t2 H1 H2; inversion H1; subst; inversion H2; subst; try done.
  - f_equal. match goal with
      | Ha : h !! l = Some (CObj ?a), Hb : h !! l = Some (CObj ?b) |- _ =>
          assert (a = b) as -> by congruence; clear Ha Hb
      end.
    clear H1 H2.
    match goal with
    | Ha : Forall2 _ ?ps props, Hb : Forall2 _ ?ps ?tp |- _ =>
        revert tp Hb; induction Ha as [|p [k t] ps' tps [Hk Hp] _ IHf];
          intros tp Hb; inversion Hb as [|? [k' t'] ? ? [Hk' Hp']]; subst; [done|]
    end.
    inversion IH as [|? ? IHhd IHtl]; subst. simpl in *.
    f_equal; [|by apply IHf]. f_equal; [congruence|]. by eapply IHhd.
  - congruence.
  - congruence.
  - f_equal. match goal with
      | Ha : h !! l = Some (CArr ?a), Hb : h !! l = Some (CArr ?b) |- _ =>
          assert (a = b) as -> by congruence; clear Ha Hb
      end.
    clear H1 H2.
    match goal with
    | Ha : Forall2 _ ?es elems, Hb : Forall2 _ ?es ?ts |- _ =>
        revert ts Hb; induction Ha as [|e t es' ts' Hp _ IHf];
          intros ts Hb; inversion Hb as [|? t' ? ? Hp']; subst; [done|]
    end.
    inversion IH as [|? ? IHhd IHtl]; subst.
    f_equal; [by eapply IHhd | by apply IHf].
Qed.

Lemma mapM_Return {A B} (f : A → outcome B) l ys :
  mapM f l = Return ys → Forall2 (λ x y, f x = Return y) l ys.
Proof.
  revert ys. induction l as [|x l IH]; simpl; intros ys.
  - intros [= <-]. constructor.
  - destruct (f x) as [y|e] eqn:Hx; simpl; [|done].
    destruct (mapM f l) as [ys'|e]; simpl; [|done].
    intros [= <-]. constructor; [done | by apply IH].
Qed.

(** [stringify] on a heap value is [toJSON] on the tree it stands for. *)
Lemma stringify_represents fuel h v t oj :
  represents h v t → stringify fuel h v = Return oj → oj = toJSON t.
Proof.
  revert fuel v oj.
  induction t as [| |b|n|s|id|iso|props IH|elems IH] using tree_ind';
    intros fuel v oj Hr; inversion Hr; subst;
    destruct fuel as [|fuel]; simpl; try congruence;
    try (match goal with m : number |- _ => destruct m end; congruence).
  - match goal with Hl : h !! l = Some _ |- _ => rewrite Hl; clear Hl end.
    destruct (mapM _ _) as [fields|e] eqn:Hm; simpl; [|done].
    intros [= <-]. do 2 f_equal. apply mapM_Return in Hm.
    match goal with Hf : Forall2 _ _ props |- _ => rename Hf into Hps end.
    clear Hr. revert fields Hm.
    induction Hps as [|p [k t] ps tps [Hk Hp] _ IHf]; intros fields Hm;
      inversion Hm as [|? [k' oj] ? fs Hhd Htl]; subst; [done|].
    inversion IH as [|? ? IHhd IHtl]; subst. simpl in *.
    destruct (stringify fuel h p.2) as [oj'|e] eqn:Hs; simpl in Hhd; [|done].
    injection Hhd as <- <-. apply (IHhd _ _ _ Hp) in Hs as ->.
    specialize (IHf IHtl _ Htl). unfold omap in *. simpl. rewrite IHf, Hk.
    by destruct (toJSON t).
  - match goal with Hl : h !! l = Some _ |- _ => rewrite Hl; clear Hl end.
    destruct (mapM _ _) as [items|e] eqn:Hm; simpl; [|done].
    intros [= <-]. do 2 f_equal. apply mapM_Return in Hm.
    match goal with Hf : Forall2 _ _ elems |- _ => rename Hf into Hes end.
    clear Hr. revert items Hm.
    induction Hes as [|e t es ts Hp _ IHf]; intros items Hm;
      inversion Hm as [|? oj ? its Hhd Htl]; subst; [done|].
    inversion IH as [|? ? IHhd IHtl]; subst.
    apply (IHhd _ _ _ Hp) in Hhd as ->. specialize (IHf IHtl _ Htl).
    rewrite !fmap_cons. by rewrite IHf.
Qed.

Lemma represents_allocates h vs h' v t :
  allocates h vs h' → represents h v t → represents h' v t.
Proof. intros (ext & -> & _). apply represents_app. Qed.

Lemma parse_fields_represents fields :
  Forall (λ f, ∀ h, represents (parse f.2 h).2 (parse f.2 h).1 (ofJSON f.2)) fields →
  ∀ h, Forall2 (λ p tp, p.1 = tp.1 ∧ represents (parse_fields fields h).2 p.2 tp.2)
         (parse_fields fields h).1
         ((λ f, match f with (k, j) => (k, ofJSON j) end) <$> fields).
Proof.
  induction 1 as [|[k j] fs Hj Hall IH]; intros h; simpl; [constructor|].
  specialize (Hj h). simpl in Hj. destruct (parse j h) as [v h1] eqn:Hp. simpl in Hj.
  specialize (IH h1).
  assert (allocates h1 (parse_fields fs h1).1.*2 (parse_fields fs h1).2) as Ha.
  { apply parse_fields_allocates. apply Forall_forall. intros ? _ ?. apply parse_allocates. }
  destruct (parse_fields fs h1) as [props h2]. simpl in *.
  constructor; [|done]. simpl. split; [done|]. by eapply represents_allocates.
Qed.

Lemma parse_items_represents items :
  Forall (λ j, ∀ h, represents (parse j h).2 (parse j h).1 (ofJSON j)) items →
  ∀ h, Forall2 (represents (parse_items items h).2)
         (parse_items items h).1 (ofJSON <$> items).
Proof.
  induction 1 as [|j js Hj Hall IH]; intros h; simpl; [constructor|].
  specialize (Hj h). destruct (parse j h) as [v h1] eqn:Hp. simpl in Hj.
  specialize (IH h1).
  assert (allocates h1 (parse_items js h1).1 (parse_items js h1).2) as Ha.
  { apply parse_items_allocates. apply Forall_forall. intros ? _ ?. apply parse_allocates. }
  destruct (parse_items js h1) as [vs h2]. simpl in *.
  constructor; [|done]. by eapply represents_allocates.
Qed.

(** [parse] builds a value that stands for the document. *)
Lemma parse_represents j h : represents (parse j h).2 (parse j h).1 (ofJSON j).
Proof.
  revert h. induction j as [|b|q|s|fields IH|items IH] using json_ind'; intros h;
    try (simpl; constructor).
  - rewrite parse_obj. pose proof (parse_fields_represents fields IH h) as Hf.
    destruct (parse_fields fields h) as [props h1]. simpl in *.
    eapply rep_obj; [apply list_lookup_middle; done|].
    eapply Forall2_impl; [exact Hf|]. simpl. intros p tp [? ?].
    split; [done|]. by apply represents_app.
  - rewrite parse_arr. pose proof (parse_items_represents items IH h) as Hf.
    destruct (parse_items items h) as [vs h1]. simpl in *.
    eapply rep_arr; [apply list_lookup_middle; done|].
    eapply Forall2_impl; [exact Hf|]. simpl. intros e t ?. by apply represents_app.
Qed.

Lemma omap_length_le {A B} (f : A → option B) (l : list A) :
  length (omap f l) ≤ length l.
Proof.
  unfold omap. induction l as [|x l IH]; simpl; [done|]. destruct (f x); simpl; lia.
Qed.

(** JSON carries a tree unchanged exactly when the tree is clean. *)
Lemma json_roundtrip_clean t : json_roundtrip t = Some t ↔ json_clean t = true.
Proof.
  unfold json_roundtrip.
  induction t as [| |b|n|s|id|iso|props IH|elems IH] using tree_ind'; simpl;
    try (split; congruence).
  - destruct n; simpl; split; congruence.
  - split.
    + intros [= H]. revert H. induction IH as [|[k t] ps Hhd _ IHps]; simpl; [done|].
      simpl in Hhd. unfold omap in *. simpl.
      destruct (toJSON t) as [j|] eqn:Hj; simpl.
      * intros [= Ht Hps]. apply andb_true_iff. split.
        -- apply Hhd. simpl. congruence.
        -- by apply IHps.
      * intros H. apply (f_equal length) in H. rewrite length_fmap in H. simpl in H.
        pose proof (omap_length_le
          (λ p : string * tree, let (k0, t0) := p in pair k0 <$> toJSON t0) ps) as Hle.
        unfold omap in Hle. lia.
    + intros H. do 2 f_equal. revert H.
      induction IH as [|[k t] ps Hhd _ IHps]; simpl; [done|].
      simpl in Hhd. rewrite andb_true_iff. intros [Ht Hps].
      apply Hhd in Ht. unfold omap in *. simpl.
      destruct (toJSON t) as [j|]; simpl in *; [|done].
      injection Ht as ->. f_equal. by apply IHps.
  - split.
    + intros [= H]. revert H. induction IH as [|t ts Hhd _ IHts]; simpl; [done|].
      intros [= Ht Hts]. apply andb_true_iff. split; [|by apply IHts].
      apply Hhd. destruct (toJSON t) as [j|] eqn:Hj; simpl in *; [congruence|].
      subst t. discriminate.
    + intros H. do 2 f_equal. revert H.
      induction IH as [|t ts Hhd _ IHts]; simpl; [done|].
      rewrite andb_true_iff. intros [Ht Hts]. apply Hhd in Ht.
      destruct (toJSON t) as [j|]; simpl in *; [|done].
      injection Ht as ->. f_equal. by apply IHts.
Qed.

Lemma roundtrip_drops_key props k :
  (∀ u, (k, u) ∈ props → u = TUndef ∨ ∃ id, u = TFun id) →
  k ∉ ((λ f : string * json, match f with (k, j) => (k, ofJSON j) end) <$>
        omap (λ p : string * tree, match p with (k, t) => pair k <$> toJSON t end) props).*1.
Proof.
  induction props as [|[k' t] ps IH]; intros Hall; [set_solver|].
  unfold omap in *. simpl.
  destruct (toJSON t) as [j|] eqn:Hj; simpl.
  - apply not_elem_of_cons. split; [|apply IH; set_solver].
    intros ->. destruct (Hall t) as [->|[id ->]]; [set_solver|done..].
  - apply IH. set_solver.
Qed.

Lemma roundtrip_converts_date props k iso :
  tree_assoc k props = Some (TDate iso) →
  tree_assoc k ((λ f : string * json, match f with (k, j) => (k, ofJSON j) end) <$>
                omap (λ p : string * tree, match p with (k, t) => pair k <$> toJSON t end)
                  props)
  = Some (TStr iso).
Proof.
  induction props as [|[k' t] ps IH]; simpl; [done|].
  unfold omap in *. simpl. destruct (String.eqb k k') eqn:Hk.
  - intros [= ->]. simpl. by rewrite Hk.
  - intros H. destruct (toJSON t); simpl; [rewrite Hk|]; by apply IH.
Qed.

(** ** The fuel of [stringify] is enough for every manifest that is a tree *)

Lemma max_list_with_le {A} (f : A → nat) l x : x ∈ l → f x ≤ max_list_with f l.
Proof.
  induction l as [|y l IH]; [set_solver|]. simpl.
  intros [->|Hin]%elem_of_cons; [lia|]. specialize (IH Hin). lia.
Qed.

Lemma max_list_with_attained {A} (f : A → nat) l :
  l ≠ [] → ∃ x, x ∈ l ∧ f x = max_list_with f l.
Proof.
  induction l as [|y l IH]; [done|]. intros _. simpl.
  destruct l as [|z l].
  - exists y. split; [set_solver|]. simpl. lia.
  - destruct IH as (x & Hx & Hmax); [done|].
    destruct (decide (f y ≤ max_list_with f (z :: l))).
    + exists x. split; [set_solver|]. lia.
    + exists y. split; [set_solver|]. lia.
Qed.

Lemma sum_list_with_le {A} (f : A → nat) l x : x ∈ l → f x ≤ sum_list_with f l.
Proof.
  induction l as [|y l IH]; [set_solver|]. simpl.
  intros [->|Hin]%elem_of_cons; [lia|]. specialize (IH Hin). lia.
Qed.

Lemma Forall2_elem_of_r {A B} (R : A → B → Prop) l k y :
  Forall2 R l k → y ∈ k → ∃ x, x ∈ l ∧ R x y.
Proof.
  induction 1 as [|a b l k Hab _ IH]; [set_solver|].
  intros [->|Hin]%elem_of_cons; [exists a; set_solver|].
  destruct (IH Hin) as (x & ? & ?). exists x. set_solver.
Qed.

(** Below a tree of depth [d] hangs a chain of [d] distinct cells. *)
Lemma represents_chain h v t :
  represents h v t →
  ∃ ls, length ls = tree_depth t ∧ NoDup ls
        ∧ ∀ l, l ∈ ls →
            l < length h
            ∧ ∃ t', represents h (VRef l) t' ∧ tree_size t' ≤ tree_size t.
Proof.
  revert v. induction t as [| |b|n|s|id|iso|props IH|elems IH] using tree_ind';
    intros v Hr; inversion Hr; subst;
    try (exists []; split; [done|]; split; [constructor|set_solver]).
  - match goal with Hl : h !! l = Some _ |- _ => apply lookup_lt_Some in Hl as Hlt end.
    destruct props as [|tp tps].
    { exists [l]. split; [done|]. split; [apply NoDup_singleton|].
      intros l' ->%list_elem_of_singleton. split; [done|]. by exists (TObj []). }
    destruct (max_list_with_attained
                (λ p : string * tree, match p with (_, t) => tree_depth t end) (tp :: tps))
      as ([k c] & Hc & Hmax); [done|].
    match goal with Hf : Forall2 _ _ (tp :: tps) |- _ =>
      destruct (Forall2_elem_of_r _ _ _ _ Hf Hc) as (p & _ & _ & Hp) end.
    rewrite Forall_forall in IH. destruct (IH _ Hc _ Hp) as (ls & Hlen & Hnd & Hall).
    pose proof (sum_list_with_le
      (λ p : string * tree, match p with (_, t) => tree_size t end) _ _ Hc) as Hsz.
    simpl in Hsz, Hp, Hmax, Hlen, Hall.
    exists (l :: ls). split; [simpl; lia|]. split.
    + constructor; [|done]. intros Hin. destruct (Hall _ Hin) as (_ & t' & Hr' & Hle).
      pose proof (represents_inj _ _ _ _ Hr' Hr) as ->. simpl in Hle. lia.
    + intros l' [->|Hin]%elem_of_cons.
      * split; [done|]. eexists. split; [exact Hr|done].
      * destruct (Hall _ Hin) as (? & t' & ? & ?). split; [done|].
        exists t'. split; [done|]. simpl. lia.
  - match goal with Hl : h !! l = Some _ |- _ => apply lookup_lt_Some in Hl as Hlt end.
    destruct elems as [|e es].
    { exists [l]. split; [done|]. split; [apply NoDup_singleton|].
      intros l' ->%list_elem_of_singleton. split; [done|]. by exists (TArr []). }
    destruct (max_list_with_attained tree_depth (e :: es)) as (c & Hc & Hmax); [done|].
    match goal with Hf : Forall2 _ _ (e :: es) |- _ =>
      destruct (Forall2_elem_of_r _ _ _ _ Hf Hc) as (p & _ & Hp) end.
    rewrite Forall_forall in IH. destruct (IH _ Hc _ Hp) as (ls & Hlen & Hnd & Hall).
    pose proof (sum_list_with_le tree_size _ _ Hc) as Hsz.
    simpl in Hsz, Hmax.
    exists (l :: ls). split; [simpl; lia|]. split.
    + constructor; [|done]. intros Hin. destruct (Hall _ Hin) as (_ & t' & Hr' & Hle).
      pose proof (represents_inj _ _ _ _ Hr' Hr) as ->. simpl in Hle. lia.
    + intros l' [->|Hin]%elem_of_cons.
      * split; [done|]. eexists. split; [exact Hr|done].
      * destruct (Hall _ Hin) as (? & t' & ? & ?). split; [done|].
        exists t'. split; [done|]. simpl. lia.
Qed.

Lemma represents_depth h v t : represents h v t → tree_depth t ≤ length h.
Proof.
  intros (ls & <- & Hnd & Hall)%represents_chain.
  transitivity (length (seq 0 (length h))); [|by rewrite length_seq].
  apply submseteq_length.
  apply NoDup_submseteq; [done|]. intros l Hl. apply elem_of_seq.
  destruct (Hall l Hl) as [? _]. lia.
Qed.

Lemma mapM_total {A B} (f : A → outcome B) l :
  Forall (λ x, ∃ y, f x = Return y) l → ∃ ys, mapM f l = Return ys.
Proof.
  induction 1 as [|x l [y Hy] _ [ys IH]]; simpl; [by eexists|].
  rewrite Hy, IH. simpl. by eexists.
Qed.

Lemma Forall2_Forall_l {A B} (R : A → B → Prop) (Q : A → Prop) l k :
  Forall2 R l k → (∀ a b, b ∈ k → R a b → Q a) → Forall Q l.
Proof.
  induction 1 as [|a b l k Hab _ IH]; intros Himp; constructor.
  - eapply Himp; [|done]. set_solver.
  - apply IH. intros a' b' Hb'. apply Himp. set_solver.
Qed.

(** With fuel for the depth of the tree, [stringify] does not throw. *)
Lemma stringify_total fuel h v t :
  represents h v t → tree_depth t ≤ fuel → stringify fuel h v = Return (toJSON t).
Proof.
  intros Hr Hfuel.
  enough (∃ oj, stringify fuel h v = Return oj) as [oj Hs].
  { rewrite Hs. f_equal. by eapply stringify_represents. }
  revert fuel v Hr Hfuel.
  induction t as [| |b|n|s|id|iso|props IH|elems IH] using tree_ind';
    intros fuel v Hr Hfuel; inversion Hr; subst;
    try (destruct fuel; simpl; by eexists);
    try (match goal with m : number |- _ => destruct m end;
         destruct fuel; simpl; by eexists).
  - destruct fuel as [|fuel]; [simpl in Hfuel; lia|]. simpl in Hfuel |- *.
    match goal with Hl : h !! l = Some _ |- _ => rewrite Hl end.
    destruct (mapM_total (λ p : string * val, j ← stringify fuel h p.2; Return (p.1, j))
                props0) as [fields ->]; [|simpl; by eexists].
    rewrite Forall_forall in IH.
    match goal with Hf : Forall2 _ _ props |- _ =>
      apply (Forall2_Forall_l _ _ _ _ Hf) end.
    intros p tp Htp [_ Hp].
    destruct (IH tp Htp fuel _ Hp) as [oj ->]; [|simpl; by eexists].
    pose proof (max_list_with_le
      (λ p : string * tree, match p with (_, t) => tree_depth t end) _ _ Htp) as Hle.
    destruct tp as [k c]. simpl in *. lia.
  - destruct fuel as [|fuel]; [simpl in Hfuel; lia|]. simpl in Hfuel |- *.
    match goal with Hl : h !! l = Some _ |- _ => rewrite Hl end.
    destruct (mapM_total (stringify fuel h) elems0) as [items ->]; [|simpl; by eexists].
    rewrite Forall_forall in IH.
    match goal with Hf : Forall2 _ _ elems |- _ =>
      apply (Forall2_Forall_l _ _ _ _ Hf) end.
    intros e c Hc Hp. apply (IH c Hc fuel _ Hp).
    pose proof (max_list_with_le tree_depth _ _ Hc) as Hle. lia.
Qed.

(** The copy of a manifest that is a tree succeeds, whatever its shape. *)
Lemma json_clone_total h config t :
  represents h config t →
  json_clone h config =
    match toJSON t with
    | Some j => Return (parse j h)
    | None => Throw (SyntaxError msg_json_undefined)
    end.
Proof.
  intros Hr. unfold json_clone.
  rewrite (stringify_total _ _ _ _ Hr (represents_depth _ _ _ Hr)). done.
Qed.

Lemma validateConfig_loose_iff h config :
  validateConfig h config false = Return tt ↔ valid_object config.
Proof.
  unfold validateConfig. pose proof (valid_object_spec config) as Hv.
  destruct (negb (truthy config) || negb (is_object_type (typeof config))).
  - split; [discriminate|]. intros Hvo. apply Hv in Hvo. discriminate.
  - split; [intros _; by apply Hv | done].
Qed.

(** A manifest that is an object and a tree is copied. *)
Lemma json_clone_object h config t :
  valid_object config → represents h config t →
  ∃ j, toJSON t = Some j ∧ json_clone h config = Return (parse j h).
Proof.
  intros [Ht Ho] Hr. rewrite (json_clone_total _ _ _ Hr).
  inversion Hr; subst; try discriminate; simpl; by eexists.
Qed.

(** ** The executor *)

Lemma rethrow_strict_errors e :
  e ∈ strict_errors → rethrow e ≠ TimeoutError ∧ rethrow e ≠ InvalidReturnError.
Proof.
  intros He. apply list_elem_of_In in He. simpl in He.
  repeat (destruct He as [<-|He]; [split; vm_compute; discriminate|]).
  destruct He.
Qed.

(** What the call computes once [main] has returned [v]. *)
Lemma executeScript_main_returns compile h config script p copy h1 f v elapsed :
  reaches_main compile h config script copy h1 f →
  run_result (f h1 copy p) = MainReturns v elapsed →
  let r := f h1 copy p in
  let x := executeScript compile h config script p in
  exec_heap x = run_heap r
  ∧ (if (elapsed >? timeoutMs - 1000)%Z then
       exec_result x = Throw TimeoutError
       ∧ exec_trace x = [EvValidate config false; EvCompile script; EvInvoke h1 copy p]
     else if negb (truthy v) || negb (is_object_type (typeof v)) then
       exec_result x = Throw InvalidReturnError
       ∧ exec_trace x = [EvValidate config false; EvCompile script; EvInvoke h1 copy p]
     else
       exec_result x =
         match validateConfig (run_heap r) v true with
         | Return _ => Return v
         | Throw e => Throw (rethrow e)
         end
       ∧ exec_trace x = [EvValidate config false; EvCompile script; EvInvoke h1 copy p;
                         EvValidate v true]).
Proof.
  intros (Hv & Hc & Hi & Hf) Hr. simpl.
  unfold executeScript, try_block, scriptFunction.
  rewrite Hv, Hc, Hi, Hf, Hr. simpl.
  destruct (elapsed >? timeoutMs - 1000)%Z; [done|].
  unfold hasTimedOut.
  destruct (negb (truthy v) || negb (is_object_type (typeof v))); [done|].
  simpl. split; [done|]. split; [|done].
  by destruct (validateConfig _ v true) as [[]|e].
Qed.

(** C6 (as amended). The clock is read before the script text is evaluated
    and once more right after [main] returns.  When [main] has returned, the
    call fails with the timeout error exactly when that second reading is
    more than 9000 ms ([timeoutMs - 1000]) after the first, whatever [main]
    returned; the 10 s timer plays no part in the decision. *)
Theorem executeScript_timeout_amended compile h config script p copy h1 f v elapsed :
  reaches_main compile h config script copy h1 f →
  run_result (f h1 copy p) = MainReturns v elapsed →
  exec_result (executeScript compile h config script p) = Throw TimeoutError
  ↔ (elapsed > 9000)%Z.
Proof.
  intros Hreach Hr.
  destruct (executeScript_main_returns _ _ _ _ _ _ _ _ _ _ Hreach Hr) as [_ H].
  cbv zeta in H. change (timeoutMs - 1000)%Z with 9000%Z in H.
  destruct (elapsed >? 9000)%Z eqn:E.
  - destruct H as [-> _]. split; [lia | done].
  - split; [|lia]. intros Hx. exfalso.
    destruct (negb (truthy v) || negb (is_object_type (typeof v))) eqn:Ev.
    + destruct H as [H _]. rewrite H in Hx. by vm_compute in Hx.
    + destruct H as [H _]. rewrite H in Hx.
      destruct (validateConfig _ v true) as [[]|e] eqn:Ee; [done|].
      apply validateConfig_strict_errors in Ee; [|by apply valid_object_spec].
      apply rethrow_strict_errors in Ee as [Ee _]. congruence.
Qed.

Lemma executeScript_timeout_amended_witness :
  exec_result (executeScript (λ _, Return (identity_after 9500))
                 sample_heap (VRef 1) sample_script "home") = Throw TimeoutError.
Proof.
  apply (executeScript_timeout_amended (λ _, Return (identity_after 9500))
           sample_heap (VRef 1) sample_script "home"
           (VRef 3) (sample_heap ++ [CArr [VStr "A"];
                                     CObj [("mode", VStr "rule"); ("rules", VRef 2)]])
           (identity_after 9500) (VRef 3) 9500).
  - repeat split; reflexivity.
  - reflexivity.
  - lia.
Defined.

(** C6, as stated, fails: [main] returns 9.5 s after the start, within the
    10 s budget, and the call is rejected for timeout. *)
Lemma executeScript_timeout_counterexample :
  (9500 <= timeoutMs)%Z
  ∧ exec_result (executeScript (λ _, Return (identity_after 9500))
                   sample_heap (VRef 1) sample_script "home") = Throw TimeoutError.
Proof. split; [unfold timeoutMs; lia | reflexivity]. Qed.

(** C4 (as amended). When [main] has returned [v] and the timeout check has
    passed, the call fails with the invalid-return error exactly when [v] is
    falsy or [typeof v] is not [object] (so [null], [undefined], numbers,
    strings, booleans and functions); in that case strict validation is not
    run.  Every other value, arrays included, goes on to strict validation. *)
Theorem executeScript_invalid_return_amended
    compile h config script p copy h1 f v elapsed :
  reaches_main compile h config script copy h1 f →
  run_result (f h1 copy p) = MainReturns v elapsed →
  (elapsed <= 9000)%Z →
  let x := executeScript compile h config script p in
  (exec_result x = Throw InvalidReturnError ↔ truthy v = false ∨ typeof v ≠ TyObject)
  ∧ (truthy v = false ∨ typeof v ≠ TyObject → ∀ c, EvValidate c true ∉ exec_trace x)
  ∧ (truthy v = true ∧ typeof v = TyObject → EvValidate v true ∈ exec_trace x).
Proof.
  intros Hreach Hr Hel.
  destruct (executeScript_main_returns _ _ _ _ _ _ _ _ _ _ Hreach Hr) as [_ H].
  cbv zeta in *. change (timeoutMs - 1000)%Z with 9000%Z in H.
  replace (elapsed >? 9000)%Z with false in H by lia.
  pose proof (valid_object_spec v) as Hv. unfold valid_object in Hv.
  destruct (negb (truthy v) || negb (is_object_type (typeof v))) eqn:Ev.
  - destruct H as [-> ->].
    assert (truthy v = false ∨ typeof v ≠ TyObject) as Hbad.
    { destruct (truthy v); [right|by left]. intros Ht. destruct Hv as [Hv _].
      simpl in Ev. rewrite Ht in *. discriminate. }
    split; [done|]. split.
    + intros _ c Hin. set_solver.
    + intros [Ht Ho]. destruct Hbad; congruence.
  - destruct H as [Hres ->]. destruct (proj1 Hv eq_refl) as [Ht Ho].
    split; [|split].
    + split; [|intros [?|?]; congruence].
      intros Hx. rewrite Hres in Hx.
      destruct (validateConfig _ v true) as [[]|e] eqn:Ee; [done|].
      apply validateConfig_strict_errors in Ee; [|done].
      apply rethrow_strict_errors in Ee as [_ Ee]. congruence.
    + intros [?|?]; congruence.
    + intros _. set_solver.
Qed.

Lemma executeScript_invalid_return_amended_witness :
  exec_result (executeScript (λ _, Return (number_after 5))
                 sample_heap (VRef 1) sample_script "home") = Throw InvalidReturnError.
Proof.
  apply (executeScript_invalid_return_amended (λ _, Return (number_after 5))
           sample_heap (VRef 1) sample_script "home"
           (VRef 3) (sample_heap ++ [CArr [VStr "A"];
                                     CObj [("mode", VStr "rule"); ("rules", VRef 2)]])
           (number_after 5) (VNum (num_of_Z 42)) 5).
  - repeat split; reflexivity.
  - reflexivity.
  - lia.
  - right. discriminate.
Defined.

(** C4, as stated, fails: a routine that returns the sequence [[]] is not
    rejected, the call returns the array; and a routine that returns 42 after
    9.5 s fails with the timeout error, not the invalid-return error. *)
Lemma executeScript_invalid_return_counterexample :
  let x := executeScript (λ _, Return (empty_array_after 5))
             sample_heap (VRef 1) sample_script "home" in
  let y := executeScript (λ _, Return (number_after 9500))
             sample_heap (VRef 1) sample_script "home" in
  (exec_result x = Return (VRef 4)
   ∧ exec_heap x !! 4 = Some (CArr [])
   ∧ isArray (exec_heap x) (VRef 4) = true)
  ∧ (exec_result y = Throw TimeoutError ∧ exec_result y ≠ Throw InvalidReturnError).
Proof. repeat split; try reflexivity. vm_compute. discriminate. Qed.



(** *** Isolation *)

Lemma executeScript_invoke_inv compile h config script p h1 v p' :
  EvInvoke h1 v p' ∈ exec_trace (executeScript compile h config script p) →
  json_clone h config = Return (v, h1) ∧ p' = p.
Proof.
  unfold executeScript, try_block.
  destruct (validateConfig h config false) as [[]|e]; simpl; [|set_solver].
  destruct (json_clone h config) as [[copy h1']|e] eqn:Hc; simpl; [|set_solver].
  destruct (includes "function main" script); simpl; [|set_solver].
  destruct (compile script) as [f|e] eqn:Hf; simpl; [|set_solver].
  unfold hasTimedOut.
  assert (∀ tr, EvInvoke h1 v p' ∈ EvValidate config false :: tr →
            (∀ ev, ev ∈ tr → ev = EvCompile script ∨ ev = EvInvoke h1' copy p
                             ∨ ∃ r, ev = EvValidate r true) →
            Return (copy, h1') = Return (v, h1) ∧ p' = p) as Htr.
  { intros tr Hin Hall. apply elem_of_cons in Hin as [Hin|Hin]; [done|].
    destruct (Hall _ Hin) as [?|[[= -> -> ->]|[r ?]]]; done. }
  destruct (run_result (f h1' copy p)) as [e| |r elapsed]; simpl.
  1-2: intros Hin; apply (Htr _ Hin); set_solver.
  destruct (elapsed >? _)%Z; simpl.
  { intros Hin. apply (Htr _ Hin). set_solver. }
  destruct (_ || _); simpl.
  all: intros Hin; apply (Htr _ Hin).
  all: intros ev Hev; set_unfold; naive_solver.
Qed.

(** The heap a call leaves behind is the one the routine left, or the
    caller's heap with, at most, the copy added. *)
Lemma executeScript_heap compile h config script p :
  let x := executeScript compile h config script p in
  exec_heap x = h
  ∨ (∃ copy h1, json_clone h config = Return (copy, h1)
       ∧ (exec_heap x = h1
          ∨ ∃ f, compile script = Return f ∧ exec_heap x = run_heap (f h1 copy p))).
Proof.
  cbv zeta. unfold executeScript, try_block.
  destruct (validateConfig h config false) as [[]|e]; simpl; [|by left].
  destruct (json_clone h config) as [[copy h1]|e] eqn:Hc; simpl; [|by left].
  right. exists copy, h1. split; [done|].
  destruct (includes "function main" script); simpl; [|by left].
  destruct (compile script) as [f|e] eqn:Hf; simpl; [|by left].
  right. exists f. split; [done|]. unfold hasTimedOut.
  destruct (run_result (f h1 copy p)) as [e| |r elapsed]; simpl; try done.
  destruct (elapsed >? _)%Z; simpl; [done|].
  by destruct (_ || _).
Qed.

(** C1. The routine is run on a copy made of new cells only, and whatever it
    does to the object it is given, every cell of the caller's heap, and so
    the caller's manifest, is the same after the call, whether the call
    returns or throws. *)
Theorem executeScript_isolation compile h config script p :
  (∀ f, compile script = Return f → confined f) →
  let x := executeScript compile h config script p in
  (∀ l c, h !! l = Some c → exec_heap x !! l = Some c)
  ∧ (∀ h1 v p', EvInvoke h1 v p' ∈ exec_trace x →
       json_clone h config = Return (v, h1)
       ∧ (∀ l, reachable h1 v l → length h ≤ l)).
Proof.
  intros Hconf. cbv zeta. split.
  - intros l c Hl.
    destruct (executeScript_heap compile h config script p)
      as [->|(copy & h1 & Hc & [->|(f & Hf & ->)])]; [done| |].
    + apply json_clone_fresh in Hc as [Hkeep _]. by apply Hkeep.
    + apply json_clone_fresh in Hc as [Hkeep Hnew].
      apply (Hconf f Hf); [by apply Hkeep|].
      intros Hr. apply Hnew in Hr. apply lookup_lt_Some in Hl. lia.
  - intros h1 v p' Hin. apply executeScript_invoke_inv in Hin as [Hc _].
    split; [done|]. by apply json_clone_fresh in Hc as [_ Hnew].
Qed.

Lemma assoc_elem k props u : assoc k props = Some u → u ∈ props.*2.
Proof.
  induction props as [|[k' v'] rest IH]; simpl; [done|].
  destruct (String.eqb k k'); [intros [= ->]; set_solver | set_solver].
Qed.

Lemma get_reachable h v k l : get h v k = VRef l → reachable h v l.
Proof.
  destruct v as [| | | | | | |l0]; simpl; try done.
  destruct (h !! l0) as [[props|elems]|] eqn:Hl0; [| |done].
  - destruct (assoc k props) as [u|] eqn:Hk; simpl; [intros ->|done].
    eapply reach_step; [done| |apply reach_here]. simpl. by eapply assoc_elem.
  - destruct (String.eqb k "length"); [done|].
    destruct (array_index k) as [i|]; [|done].
    destruct (elems !! i) as [u|] eqn:Hi; simpl; [intros ->|done].
    eapply reach_step; [done| |apply reach_here]. simpl. by eapply list_elem_of_lookup_2.
Qed.

Lemma heap_set_other h target k v l :
  target ≠ VRef l → heap_set h target k v !! l = h !! l.
Proof.
  intros Hne. destruct target as [| | | | | | |l0]; simpl; try done.
  destruct (h !! l0) as [[props|elems]|]; try done.
  apply list_lookup_insert_ne. congruence.
Qed.

Lemma heap_unshift_other h target v l :
  target ≠ VRef l → heap_unshift h target v !! l = h !! l.
Proof.
  intros Hne. destruct target as [| | | | | | |l0]; simpl; try done.
  destruct (h !! l0) as [[props|elems]|]; try done.
  apply list_lookup_insert_ne. congruence.
Qed.

(** The sample routine writes to its argument and to the array under its
    [rules], and to nothing else. *)
Lemma mutating_main_confined : confined mutating_main.
Proof.
  intros h v p l c Hl Hnr. simpl.
  rewrite heap_set_other; [rewrite heap_unshift_other; [done|]|].
  - intros Hg. apply Hnr. by eapply get_reachable.
  - intros ->. apply Hnr. apply reach_here.
Qed.

Lemma executeScript_isolation_witness :
  let x := executeScript (λ _, Return mutating_main) sample_heap (VRef 1)
             sample_script "home" in
  (∀ l c, sample_heap !! l = Some c → exec_heap x !! l = Some c)
  ∧ exec_result x = Return (VRef 3)
  ∧ exec_heap x !! 2 = Some (CArr [VStr "B"; VStr "A"])
  ∧ exec_heap x !! 3 = Some (CObj [("mode", VStr "global"); ("rules", VRef 2)]).
Proof.
  split; [|repeat split; reflexivity].
  apply (executeScript_isolation (λ _, Return mutating_main) sample_heap (VRef 1)
           sample_script "home").
  intros f [= <-]. apply mutating_main_confined.
Defined.

(** *** What the routine sees *)



(** ** The batch runner *)

Lemma firstOccurrences_spec seen files :
  NoDup (firstOccurrences seen files)
  ∧ (∀ f, f ∈ firstOccurrences seen files ↔ f ∈ files ∧ f ∉ seen).
Proof.
  revert seen. induction files as [|file rest IH]; intros seen; simpl.
  - split; [constructor | set_solver].
  - destruct (decide (file ∈ seen)) as [Hin|Hnin].
    + destruct (IH seen) as [Hnd Hmem]. split; [done|].
      intros f. rewrite Hmem. set_solver.
    + destruct (IH ({[file]} ∪ seen)) as [Hnd Hmem]. split.
      * constructor; [|done]. rewrite Hmem. set_solver.
      * intros f. rewrite elem_of_cons, Hmem.
        destruct (decide (f = file)); set_solver.
Qed.

Section BatchFacts.
Context {W Doc : Type} {host : Host W Doc}.
Variable opts : options Doc.

(** The loop is the loop body run over the first occurrences. *)
Lemma batchLoop_convertAll script files seen w results :
  batchLoop opts script files seen w results =
  let '(w', es) := convertAll opts script (firstOccurrences seen files) w in
  (w', results ++ es).
Proof.
  revert seen w results. induction files as [|file rest IH]; intros seen w results; simpl.
  - by rewrite app_nil_r.
  - destruct (decide (file ∈ seen)); [apply IH|]. simpl.
    destruct (convertFile opts script w file) as [w1 e]. rewrite IH.
    destruct (convertAll _ _ _ w1) as [w2 es]. by rewrite <- app_assoc.
Qed.

Lemma convertFile_entry script w file :
  input (convertFile opts script w file).2 = Some file
  ∧ well_formed_entry (convertFile opts script w file).2.
Proof.
  unfold convertFile, well_formed_entry.
  destruct (rewrap _ (_ ≫= _)) as [config|e]; simpl; [|by eauto 10].
  destruct (opt_executeScript _ _ _ _) as [processed|e]; simpl; [|by eauto 10].
  destruct (rewrap _ (_ ≫= _)) as [w'|e]; simpl; by eauto 10.
Qed.

Lemma convertAll_entries script files w :
  input <$> (convertAll opts script files w).2 = Some <$> files
  ∧ Forall well_formed_entry (convertAll opts script files w).2.
Proof.
  revert w. induction files as [|file rest IH]; intros w; simpl; [done|].
  pose proof (convertFile_entry script w file) as [Hi Hwf].
  destruct (convertFile opts script w file) as [w1 e].
  specialize (IH w1). destruct (convertAll _ _ _ w1) as [w2 es]. cbn [snd] in *.
  destruct IH as [IH1 IH2]. split; [|by constructor].
  rewrite !fmap_cons. by rewrite Hi, IH1.
Qed.

(** The three ways a file can fail, each recorded and none thrown on. *)
Lemma convertFile_failures script w file :
  (∀ e, readFileSync w file = Throw e →
     convertFile opts script w file =
     (w, failed file (Error ("读取或解析文件失败: " +:+ err_message e))))
  ∧ (∀ content e, readFileSync w file = Return content → yaml_load content = Throw e →
     convertFile opts script w file =
     (w, failed file (Error ("读取或解析文件失败: " +:+ err_message e))))
  ∧ (∀ content config e,
       readFileSync w file = Return content → yaml_load content = Return config →
       opt_executeScript opts config script (basename file (Some (extname file))) = Throw e →
       convertFile opts script w file = (w, failed file e)).
Proof.
  unfold convertFile. repeat split.
  - intros e ->. done.
  - intros content e -> Hy. unfold mbind, outcome_bind. by rewrite Hy.
  - intros content config e -> Hy Hx. unfold mbind, outcome_bind. rewrite Hy.
    unfold rewrap. by rewrite Hx.
Qed.
End BatchFacts.



Section ParallelFacts.
Context {W Doc : Type} {host : Host W Doc}.
Variable opts : options Doc.

Lemma slice_chunk (files : list string) (i c : Z) :
  (0 <= i)%Z → (1 <= c)%Z → (i < Z.of_nat (length files))%Z →
  slice files i (i + c) ++ drop (Z.to_nat (i + c)) files = drop (Z.to_nat i) files.
Proof.
  intros Hi Hc Hlt. unfold slice.
  replace (i <? 0)%Z with false by lia. replace (i + c <? 0)%Z with false by lia.
  rewrite (Z.min_l i) by lia.
  replace (Z.to_nat (i + c)) with (Z.to_nat i + Z.to_nat c) by lia.
  rewrite <- drop_drop.
  destruct (decide (i + c <= Z.of_nat (length files))%Z) as [Hle|Hgt].
  - rewrite Z.min_l by lia. replace (Z.to_nat (i + c - i)) with (Z.to_nat c) by lia.
    apply take_drop.
  - rewrite Z.min_r by lia.
    rewrite take_ge by (rewrite length_drop; lia).
    rewrite (drop_ge (drop _ _)) by (rewrite length_drop; lia).
    apply app_nil_r.
Qed.

(** With a concurrency of at least 1 the grouping ends and cuts the list
    into consecutive pieces. *)
Lemma groupLoop_concat fuel (files : list string) (i : Z) acc :
  (1 <= concurrency opts)%Z → (0 <= i)%Z →
  (Z.of_nat (length files) - i <= Z.of_nat fuel)%Z →
  ∃ gs, groupLoop opts fuel files i acc = Some (acc ++ gs)
        ∧ concat gs = drop (Z.to_nat i) files.
Proof.
  intros Hc. revert i acc. induction fuel as [|fuel IH]; intros i acc Hi Hfuel.
  - exists []. simpl. replace (i <? Z.of_nat (length files))%Z with false by lia.
    rewrite app_nil_r. split; [done|]. simpl. symmetry. apply drop_ge. lia.
  - simpl. destruct (i <? Z.of_nat (length files))%Z eqn:Hlt.
    + destruct (IH (i + concurrency opts)%Z
                  (acc ++ [slice files i (i + concurrency opts)])) as (gs & -> & Hgs);
        [lia..|].
      exists (slice files i (i + concurrency opts) :: gs).
      rewrite <- app_assoc. split; [done|]. simpl. rewrite Hgs.
      apply slice_chunk; lia.
    + exists []. rewrite app_nil_r. split; [done|]. simpl. symmetry. apply drop_ge. lia.
Qed.

Lemma processGroup_app script g1 g2 (w : W) :
  processGroup opts script (g1 ++ g2) w =
  let '(w1, es1) := processGroup opts script g1 w in
  let '(w2, es2) := processGroup opts script g2 w1 in
  (w2, es1 ++ es2).
Proof.
  revert w. induction g1 as [|file rest IH]; intros w; simpl.
  - by destruct (processGroup opts script g2 w).
  - destruct (processFile opts script w file) as [w1 e]. rewrite IH.
    destruct (processGroup opts script rest w1) as [w2 es].
    by destruct (processGroup opts script g2 w2).
Qed.

Lemma processGroups_concat script gs (w : W) results :
  processGroups opts script gs w results =
  let '(w', es) := processGroup opts script (concat gs) w in (w', results ++ es).
Proof.
  revert w results. induction gs as [|g gs IH]; intros w results; simpl.
  - by rewrite app_nil_r.
  - rewrite processGroup_app. destruct (processGroup opts script g w) as [w1 es1].
    rewrite IH. destruct (processGroup opts script (concat gs) w1) as [w2 es2].
    by rewrite app_assoc.
Qed.

Lemma processFile_input script (w : W) file :
  input (processFile opts script w file).2 = Some file.
Proof.
  unfold processFile.
  destruct (_ ≫= _) as [config|e]; simpl; [|done].
  destruct (opt_executeScript _ _ _ _) as [processed|e]; simpl; [|done].
  by destruct (_ ≫= _) as [w'|e].
Qed.

Lemma processGroup_inputs script files (w : W) :
  input <$> (processGroup opts script files w).2 = Some <$> files.
Proof.
  revert w. induction files as [|file rest IH]; intros w; simpl; [done|].
  pose proof (processFile_input script w file) as Hi.
  destruct (processFile opts script w file) as [w1 e]. specialize (IH w1).
  destruct (processGroup opts script rest w1) as [w2 es]. cbn [snd] in *.
  rewrite !fmap_cons. by rewrite Hi, IH.
Qed.

(** The grouped variant converts every element of the match list, in order,
    a path as often as the list holds it. *)
Lemma batchProcessParallel_all (w w1 : W) script files :
  (1 <= concurrency opts)%Z →
  readFileSync w (scriptPath opts) = Return script →
  glob_sync w (inputPattern opts) = Return files →
  ensureOutputDir opts w = Return w1 →
  ∃ w' results,
    batchProcessParallel opts w = Some (w', Return results)
    ∧ input <$> results = Some <$> files.
Proof.
  intros Hc Hs Hg Hd. unfold batchProcessParallel, readScript, findFiles.
  rewrite Hs, Hg. destruct files as [|file rest] eqn:Hfiles; [by eexists _, _|].
  rewrite Hd. rewrite <- Hfiles.
  destruct (groupLoop_concat (length files) files 0 [] Hc) as (gs & -> & Hgs); [lia..|].
  change ([] ++ gs) with gs.
  rewrite processGroups_concat, Hgs. change (Z.to_nat 0) with 0. rewrite drop_0.
  pose proof (processGroup_inputs script files w1) as Hi.
  destruct (processGroup opts script files w1) as [w2 es]. by eexists _, _.
Qed.
End ParallelFacts.

(** The run over five files in groups of two, one file ill-formed: four
    successes and one recorded failure, as in the sequential variant. *)
Lemma batchProcessParallel_five_files :
  snd <$> batchProcessParallel (host := mem_host five_files) five_options five_world
  = Some (Return
      [succeeded "configs/a.yaml" "out/a.yaml";
       succeeded "configs/b.yaml" "out/b.yaml";
       failed "configs/c.yaml"
         (Error "end of the stream or a document separator is expected");
       succeeded "configs/d.yaml" "out/d.yaml";
       succeeded "configs/e.yaml" "out/e.yaml"]).
Proof. vm_compute. reflexivity. Qed.


(** ** The fetcher *)

Lemma prefix_refl (s : string) : String.prefix s s = true.
Proof.
  induction s as [|c s IH]; simpl; [done|].
  destruct (Ascii.ascii_dec c c); [done | congruence].
Qed.

Lemma includes_app (p s : string) : includes s (p +:+ s) = true.
Proof.
  induction p as [|c p IH]; simpl.
  - destruct s as [|c s]; simpl; [done|].
    destruct (Ascii.ascii_dec c c); [|congruence]. by rewrite prefix_refl.
  - match goal with |- (if ?b then _ else _) = _ => destruct b end; [done|]. exact IH.
Qed.

Section FetcherFacts.
Variable md5hex : string → string.
Variable CACHE_DIR : string.
Variable path_join : string → string → string.
Variable JSON_stringify : json → string.
Variable JSON_parse : string → outcome json.
Variable request : string → outcome response.

Local Abbreviation fetch :=
  (downloadSubscription md5hex CACHE_DIR path_join JSON_stringify JSON_parse request).
Local Abbreviation bodyPath := (cachePath md5hex CACHE_DIR path_join).

(** A successful request is answered from the network, whatever the flag. *)
Lemma downloadSubscription_live url useCache files r :
  axios_get request url = Return r →
  dl_result (fetch url useCache files) = Return (data r, resp_headers r)
  ∧ Forall (λ e, ¬ consults_cache e) (dl_trace (fetch url useCache files)).
Proof.
  intros Hr. unfold downloadSubscription. rewrite Hr. simpl.
  split; [done|]. repeat constructor; simpl; tauto.
Qed.

Lemma downloadSubscription_no_fallback url files :
  Forall (λ e, ¬ consults_cache e) (dl_trace (fetch url false files))
  ∧ (∀ e, axios_get request url = Throw e →
       dl_result (fetch url false files) = Throw (DownloadError url)).
Proof.
  unfold downloadSubscription. destruct (axios_get request url) as [r|e]; simpl.
  - split; [|done]. repeat constructor; simpl; tauto.
  - split; [|done]. repeat constructor; simpl; tauto.
Qed.

Lemma downloadSubscription_cached url files e body :
  axios_get request url = Throw e → files !! bodyPath url = Some body →
  dl_result (fetch url true files) =
    match decodeCached JSON_parse body with
    | Return c =>
        Return (c, cachedHeaders md5hex CACHE_DIR path_join JSON_parse files url)
    | Throw _ => Throw (CacheCorruptError url)
    end
  ∧ dl_files (fetch url true files) = files
  ∧ CacheRead (bodyPath url) ∈ dl_trace (fetch url true files).
Proof.
  intros He Hb. unfold downloadSubscription, decodeCached. rewrite He, Hb.
  destruct (json_looking body); [destruct (JSON_parse body)|]; simpl.
  all: split; [done|]; split; [done|]; set_solver.
Qed.
End FetcherFacts.



(** * Further properties *)

(** ** The executor, case by case *)

Ltac exec_cases compile h config script p :=
  unfold executeScript, try_block, scriptFunction, hasTimedOut;
  destruct (validateConfig h config false) as [[]|?] eqn:Hloose; simpl;
  [ destruct (json_clone h config) as [[copy h1]|?] eqn:Hclone; simpl;
    [ destruct (includes "function main" script) eqn:Hinc; simpl;
      [ destruct (compile script) as [f|?] eqn:Hcomp; simpl;
        [ destruct (run_result (f h1 copy p)) as [?| |v0 elapsed] eqn:Hrun; simpl;
          [ | | destruct (elapsed >? timeoutMs - 1000)%Z eqn:Hel; simpl;
                [ | destruct (negb (truthy v0) || negb (is_object_type (typeof v0)))
                      eqn:Hobj; simpl;
                    [ | destruct (validateConfig (run_heap (f h1 copy p)) v0 true)
                          as [[]|?] eqn:Hstrict; simpl ] ] ]
        | ]
      | ]
    | ]
  | ].



Lemma rethrow_wrapped e :
  err_syntax (rethrow e) = false
  ∧ String.prefix msg_failed (err_message (rethrow e)) = true.
Proof. split; [done|]. unfold rethrow. simpl. apply prefix_app. Qed.




(** ** Validation looks at the shape of a value only *)

Lemma assoc_represents h (props : list (string * val)) tprops k :
  Forall2 (λ p tp, p.1 = tp.1 ∧ represents h p.2 tp.2) props tprops →
  represents h (default VUndef (assoc k props)) (default TUndef (tree_assoc k tprops)).
Proof.
  induction 1 as [|[k1 v1] [k2 t2] ps tps [Hk Hr] _ IH]; simpl; [constructor|].
  simpl in Hk, Hr. subst k2. by destruct (String.eqb k k1).
Qed.

(** Reading a named property commutes with [represents]. *)
Lemma get_represents h v t k :
  k ≠ "length" → array_index k = None →
  represents h v t → represents h (get h v k) (tget t k).
Proof.
  intros Hlen Hidx Hr. inversion Hr; subst; simpl; try constructor.
  - match goal with Hl : h !! l = Some _ |- _ => rewrite Hl end.
    by apply assoc_represents.
  - match goal with Hl : h !! l = Some _ |- _ => rewrite Hl end.
    destruct (String.eqb k "length") eqn:E; [by apply String.eqb_eq in E|].
    rewrite Hidx. constructor.
Qed.

(** Two values that stand for the same tree look the same to the checks. *)
Lemma represents_shallow h v h' v' t :
  represents h v t → represents h' v' t →
  truthy v = truthy v' ∧ typeof v = typeof v'
  ∧ isArray h v = isArray h' v'
  ∧ (v = v' ∨ ∃ l l', v = VRef l ∧ v' = VRef l').
Proof.
  intros H1 H2. inversion H1; subst; inversion H2; subst; simpl;
    repeat match goal with Hl : _ !! _ = Some _ |- _ => rewrite Hl; clear Hl end;
    repeat split; eauto.
Qed.

Lemma check_array_represents h v h' v' t f :
  f ∈ arrayFields →
  represents h v t → represents h' v' t →
  check_array h v f = check_array h' v' f.
Proof.
  intros Hf H1 H2. unfold check_array.
  assert (f ≠ "length" ∧ array_index f = None) as [Hl Hi].
  { unfold arrayFields in Hf. apply list_elem_of_In in Hf. simpl in Hf.
    destruct Hf as [<-|[<-|[<-|[]]]]; split; done. }
  destruct (represents_shallow _ _ _ _ _
              (get_represents _ _ _ f Hl Hi H1) (get_represents _ _ _ f Hl Hi H2))
    as (-> & _ & -> & _).
  done.
Qed.

Lemma check_port_represents h v h' v' t f :
  f ∈ portFields →
  represents h v t → represents h' v' t →
  check_port h v f = check_port h' v' f.
Proof.
  intros Hf H1 H2. unfold check_port.
  assert (f ≠ "length" ∧ array_index f = None) as [Hl Hi].
  { unfold portFields in Hf. apply list_elem_of_In in Hf. simpl in Hf.
    destruct Hf as [<-|[<-|[<-|[]]]]; split; done. }
  destruct (represents_shallow _ _ _ _ _
              (get_represents _ _ _ f Hl Hi H1) (get_represents _ _ _ f Hl Hi H2))
    as (_ & _ & _ & [->|(l & l' & -> & ->)]); done.
Qed.

Lemma check_mode_represents h v h' v' t :
  represents h v t → represents h' v' t → check_mode h v = check_mode h' v'.
Proof.
  intros H1 H2. unfold check_mode.
  destruct (represents_shallow _ _ _ _ _
              (get_represents _ _ _ "mode" ltac:(done) eq_refl H1)
              (get_represents _ _ _ "mode" ltac:(done) eq_refl H2))
    as (-> & _ & _ & [->|(l & l' & -> & ->)]); done.
Qed.

(** The verdict of [validateConfig] is the same on every value that stands
    for the same tree, in whatever heap. *)
Lemma validateConfig_represents h v h' v' t b :
  represents h v t → represents h' v' t →
  validateConfig h v b = validateConfig h' v' b.
Proof.
  intros H1 H2. unfold validateConfig.
  destruct (represents_shallow _ _ _ _ _ H1 H2) as (-> & -> & _).
  destruct (_ || _); [done|]. destruct b; [|done]. simpl forEach.
  rewrite !(check_array_represents h v h' v' t) by (done || unfold arrayFields; set_solver).
  rewrite !(check_port_represents h v h' v' t) by (done || unfold portFields; set_solver).
  by rewrite (check_mode_represents h v h' v' t).
Qed.

(** The copy of a clean tree stands for the same tree. *)
Lemma json_clone_clean h config t :
  represents h config t → json_clean t = true →
  ∃ copy h1, json_clone h config = Return (copy, h1) ∧ represents h1 copy t.
Proof.
  intros Hr Hclean. apply json_roundtrip_clean in Hclean.
  unfold json_roundtrip in Hclean. rewrite (json_clone_total _ _ _ Hr).
  destruct (toJSON t) as [j|]; [|done]. simpl in Hclean. injection Hclean as Hj.
  pose proof (parse_represents j h) as Hp. rewrite Hj in Hp.
  destruct (parse j h) as [copy h1]. by exists copy, h1.
Qed.

(** X4. Round trip through the executor: on a manifest that JSON carries
    unchanged and that passes strict validation, a routine that returns its
    argument untouched, in time, makes the call return a value that stands for
    the same tree as the caller's manifest, in a heap that still holds the
    caller's cells. *)
Theorem executeScript_identity_roundtrip compile h config script p t ms :
  represents h config t → json_clean t = true →
  validateConfig h config true = Return tt →
  includes "function main" script = true →
  compile script = Return (identity_after ms) → (ms <= 9000)%Z →
  let x := executeScript compile h config script p in
  ∃ v, exec_result x = Return v
       ∧ represents (exec_heap x) v t
       ∧ (∀ l c, h !! l = Some c → exec_heap x !! l = Some c).
Proof.
  intros Hr Hclean Hstrict Hinc Hcomp Hms. cbv zeta.
  destruct (json_clone_clean _ _ _ Hr Hclean) as (copy & h1 & Hc & Hcopy).
  assert (valid_object config) as Hvo.
  { by apply validateConfig_strict_iff in Hstrict as [? _]. }
  apply (validateConfig_loose_iff h) in Hvo as Hloose.
  assert (validateConfig h1 copy true = Return tt) as Hstrict'.
  { by rewrite (validateConfig_represents h1 copy h config t true). }
  apply validateConfig_strict_iff in Hstrict' as Hvo'. destruct Hvo' as [Hvo' _].
  apply valid_object_spec in Hvo'.
  unfold executeScript, try_block, scriptFunction, hasTimedOut.
  rewrite Hloose, Hc, Hinc, Hcomp. simpl.
  replace (ms >? timeoutMs - 1000)%Z with false by (unfold timeoutMs; lia).
  rewrite Hvo', Hstrict'. simpl.
  exists copy. split; [done|]. split; [done|].
  by apply json_clone_fresh in Hc as [? _].
Qed.

Lemma executeScript_identity_roundtrip_witness :
  let x := executeScript (λ _, Return (identity_after 5)) sample_heap (VRef 1)
             sample_script "home" in
  ∃ v, exec_result x = Return v
       ∧ represents (exec_heap x) v (TObj [("mode", TStr "rule"); ("rules", TArr [TStr "A"])])
       ∧ (∀ l c, sample_heap !! l = Some c → exec_heap x !! l = Some c).
Proof.
  apply (executeScript_identity_roundtrip (λ _, Return (identity_after 5)) sample_heap
           (VRef 1) sample_script "home"
           (TObj [("mode", TStr "rule"); ("rules", TArr [TStr "A"])]) 5).
  - eapply rep_obj; [reflexivity|]. repeat constructor.
    eapply rep_arr; [reflexivity|]. repeat constructor.
  - reflexivity.
  - reflexivity.
  - reflexivity.
  - reflexivity.
  - lia.
Defined.

(** ** Keys the validator does not read *)

Lemma set_prop_assoc_ne k k' v props :
  k' ≠ k → assoc k' (set_prop k v props) = assoc k' props.
Proof.
  intros Hne. induction props as [|[k0 v0] rest IH]; simpl.
  - destruct (String.eqb k' k) eqn:E; [by apply String.eqb_eq in E | done].
  - destruct (String.eqb k k0) eqn:E; simpl.
    + apply String.eqb_eq in E as <-.
      destruct (String.eqb k' k) eqn:E'; [by apply String.eqb_eq in E' | done].
    + destruct (String.eqb k' k0); [done | exact IH].
Qed.

Lemma get_heap_set_ne h target k v k' :
  k' ≠ k → get (heap_set h target k v) target k' = get h target k'.
Proof.
  intros Hne. destruct target as [| | | | | | |l]; try done. simpl.
  destruct (h !! l) as [[props|elems]|] eqn:Hl; simpl; rewrite ?Hl; try done.
  rewrite list_lookup_insert_eq by (by eapply lookup_lt_Some).
  by rewrite set_prop_assoc_ne.
Qed.

Lemma isArray_heap_set h target k v x :
  isArray (heap_set h target k v) x = isArray h x.
Proof.
  destruct target as [| | | | | | |l]; try done. simpl.
  destruct (h !! l) as [[props|elems]|] eqn:Hl; try done.
  destruct x as [| | | | | | |l']; try done. simpl.
  destruct (decide (l = l')) as [<-|Hne].
  - rewrite list_lookup_insert_eq by (by eapply lookup_lt_Some). by rewrite Hl.
  - by rewrite list_lookup_insert_ne.
Qed.



(** ** The batch runner: before the first file *)

(** X6. When the script cannot be read or the pattern is refused, the
    sequential variant returns a single entry without [input] and the grouped
    variant rejects with the same message; when nothing matches, both return
    the empty list.  In all three cases the state is the one they were given:
    no output directory is made. *)
Theorem batch_nothing_to_do {W Doc} {host : Host W Doc} (opts : options Doc) (w : W) :
  (∀ e, readFileSync w (scriptPath opts) = Throw e →
     let err := Error ("无法读取脚本文件 " +:+ scriptPath opts +:+ ": " +:+ err_message e) in
     batchProcess opts w = (w, [fatal err])
     ∧ batchProcessParallel opts w = Some (w, Throw err))
  ∧ (∀ script e, readFileSync w (scriptPath opts) = Return script →
     glob_sync w (inputPattern opts) = Throw e →
     let err := Error ("无效的文件模式 " +:+ inputPattern opts +:+ ": " +:+ err_message e) in
     batchProcess opts w = (w, [fatal err])
     ∧ batchProcessParallel opts w = Some (w, Throw err))
  ∧ (∀ script, readFileSync w (scriptPath opts) = Return script →
     glob_sync w (inputPattern opts) = Return [] →
     batchProcess opts w = (w, [])
     ∧ batchProcessParallel opts w = Some (w, Return [])).
Proof.
  unfold batchProcess, batchProcessParallel, readScript, findFiles.
  split; [|split].
  - intros e ->. done.
  - intros script e -> ->. done.
  - intros script -> ->. done.
Qed.

Lemma batch_nothing_to_do_witness :
  batchProcess (host := mem_host []) five_options five_world = (five_world, [])
  ∧ batchProcessParallel (host := mem_host []) five_options five_world
    = Some (five_world, Return []).
Proof.
  destruct (batch_nothing_to_do (host := mem_host []) five_options five_world)
    as (_ & _ & H).
  exact (H sample_script eq_refl eq_refl).
Defined.

(** ** The batch runner: grouping *)

Section GroupingFacts.
Context {W Doc : Type} {host : Host W Doc}.
Variable opts : options Doc.

Lemma slice_length (files : list string) (i c : Z) :
  (0 <= i)%Z → (1 <= c)%Z → (i < Z.of_nat (length files))%Z →
  1 ≤ length (slice files i (i + c))
  ∧ (Z.of_nat (length (slice files i (i + c))) <= c)%Z.
Proof.
  intros Hi Hc Hlt. unfold slice.
  replace (i <? 0)%Z with false by lia. replace (i + c <? 0)%Z with false by lia.
  rewrite length_take, length_drop. lia.
Qed.

Lemma groupLoop_groups fuel (files : list string) (i : Z) acc :
  (1 <= concurrency opts)%Z → (0 <= i)%Z →
  (Z.of_nat (length files) - i <= Z.of_nat fuel)%Z →
  ∃ gs, groupLoop opts fuel files i acc = Some (acc ++ gs)
        ∧ concat gs = drop (Z.to_nat i) files
        ∧ Forall (λ g, 1 ≤ length g ∧ (Z.of_nat (length g) <= concurrency opts)%Z) gs.
Proof.
  intros Hc. revert i acc. induction fuel as [|fuel IH]; intros i acc Hi Hfuel.
  - exists []. simpl. replace (i <? Z.of_nat (length files))%Z with false by lia.
    rewrite app_nil_r. repeat split; [|constructor]. simpl. symmetry. apply drop_ge. lia.
  - simpl. destruct (i <? Z.of_nat (length files))%Z eqn:Hlt.
    + destruct (IH (i + concurrency opts)%Z
                  (acc ++ [slice files i (i + concurrency opts)]))
        as (gs & -> & Hgs & Hall); [lia..|].
      exists (slice files i (i + concurrency opts) :: gs).
      rewrite <- app_assoc. split; [done|]. split.
      * simpl. rewrite Hgs. apply slice_chunk; lia.
      * constructor; [|done]. apply slice_length; lia.
    + exists []. rewrite app_nil_r. repeat split; [|constructor].
      simpl. symmetry. apply drop_ge. lia.
Qed.

(** With a concurrency below 1 and something to do, the grouping loop never
    ends. *)
Lemma groupLoop_diverges fuel (files : list string) (i : Z) acc :
  (concurrency opts <= 0)%Z → (i <= 0)%Z → files ≠ [] →
  groupLoop opts fuel files i acc = None.
Proof.
  intros Hc Hi Hne.
  assert (0 < length files) by (destruct files; [done | simpl; lia]).
  revert i acc Hi. induction fuel as [|fuel IH]; intros i acc Hi; simpl.
  - by replace (i <? Z.of_nat (length files))%Z with true by lia.
  - replace (i <? Z.of_nat (length files))%Z with true by lia. apply IH. lia.
Qed.
End GroupingFacts.

(** X7. With a concurrency of at least 1 the grouped variant cuts the match
    list into consecutive groups, none empty and none longer than the
    concurrency, that together are the match list: no more than
    [concurrency] files are in flight and none is left out. *)
Theorem groupLoop_bounded {Doc} (opts : options Doc) (files : list string) :
  (1 <= concurrency opts)%Z →
  ∃ gs, groupLoop opts (length files) files 0 [] = Some gs
        ∧ concat gs = files
        ∧ Forall (λ g, 1 ≤ length g ∧ (Z.of_nat (length g) <= concurrency opts)%Z) gs.
Proof.
  intros Hc.
  destruct (groupLoop_groups opts (length files) files 0 [] Hc) as (gs & Hg & Hcat & Hall);
    [lia..|].
  exists gs. split; [done|]. split; [|done].
  by rewrite Hcat.
Qed.

Lemma groupLoop_bounded_witness :
  ∃ gs, groupLoop five_options (length five_files) five_files 0 [] = Some gs
        ∧ concat gs = five_files
        ∧ Forall (λ g, 1 ≤ length g
                       ∧ (Z.of_nat (length g) <= concurrency five_options)%Z) gs.
Proof.
  apply (groupLoop_bounded five_options five_files).
  simpl. lia.
Defined.

(** X8. With a concurrency of 0 or less and at least one matched file, the
    grouped variant never settles: its grouping loop does not end, whatever
    the number of steps it is given. *)
Theorem batchProcessParallel_hangs {W Doc} {host : Host W Doc} (opts : options Doc)
    (w w1 : W) (script : string) (files : list string) :
  (concurrency opts <= 0)%Z → files ≠ [] →
  readFileSync w (scriptPath opts) = Return script →
  glob_sync w (inputPattern opts) = Return files →
  ensureOutputDir opts w = Return w1 →
  (∀ fuel, groupLoop opts fuel files 0 [] = None)
  ∧ batchProcessParallel opts w = None.
Proof.
  intros Hc Hne Hs Hg Hd. split.
  - intros fuel. by apply groupLoop_diverges.
  - unfold batchProcessParallel, readScript, findFiles. rewrite Hs, Hg.
    destruct files as [|file rest] eqn:Hfiles; [done|]. rewrite Hd.
    by rewrite groupLoop_diverges.
Qed.

Lemma batchProcessParallel_hangs_witness :
  (∀ fuel, groupLoop (Options "configs/*.yaml" "rules.js" (Some "out") false
                        (λ config : string, λ _ _, Return config) 0)
             fuel five_files 0 [] = None)
  ∧ batchProcessParallel (host := mem_host five_files)
      (Options "configs/*.yaml" "rules.js" (Some "out") false
         (λ config _ _, Return config) 0)
      five_world = None.
Proof.
  apply (batchProcessParallel_hangs (host := mem_host five_files)
           (Options "configs/*.yaml" "rules.js" (Some "out") false
              (λ config _ _, Return config) 0)
           five_world five_world sample_script five_files).
  - simpl. lia.
  - discriminate.
  - reflexivity.
  - reflexivity.
  - reflexivity.
Defined.

(** ** The two variants side by side *)

Lemma firstOccurrences_NoDup seen files :
  NoDup files → (∀ f, f ∈ files → f ∉ seen) → firstOccurrences seen files = files.
Proof.
  intros Hnd. revert seen. induction Hnd as [|file rest Hnin _ IH]; intros seen Hseen; simpl.
  - done.
  - destruct (decide (file ∈ seen)) as [Hin|_]; [exfalso; apply (Hseen file); set_solver|].
    f_equal. apply IH. intros f Hf. specialize (Hseen f). set_solver.
Qed.

Section VariantFacts.
Context {W Doc : Type} {host : Host W Doc}.
Variable opts : options Doc.

(** For one file the two loop bodies leave the same state and report the
    same input, output and success; the sequential one prefixes the message
    of a read, parse or write failure. *)
Lemma convertFile_processFile script (w : W) file :
  (convertFile opts script w file).1 = (processFile opts script w file).1
  ∧ same_outcome (convertFile opts script w file).2 (processFile opts script w file).2.
Proof.
  unfold convertFile, processFile, same_outcome.
  destruct (readFileSync w file) as [content|e]; simpl; [|done].
  destruct (yaml_load content) as [config|e]; simpl; [|done].
  destruct (opt_executeScript _ _ _ _) as [processed|e]; simpl; [|done].
  destruct (yaml_dump processed) as [yamlStr|e]; simpl; [|done].
  by destruct (writeFileSync w _ yamlStr) as [w'|e].
Qed.

Lemma convertAll_processGroup script files (w : W) :
  (convertAll opts script files w).1 = (processGroup opts script files w).1
  ∧ Forall2 same_outcome (convertAll opts script files w).2
      (processGroup opts script files w).2.
Proof.
  revert w. induction files as [|file rest IH]; intros w; simpl; [by split|].
  destruct (convertFile_processFile script w file) as [Hw He].
  destruct (convertFile opts script w file) as [w1 e1].
  destruct (processFile opts script w file) as [w1' e1']. simpl in Hw, He. subst w1'.
  specialize (IH w1).
  destruct (convertAll opts script rest w1) as [w2 es].
  destruct (processGroup opts script rest w1) as [w2' es']. simpl in *.
  destruct IH as [-> IH]. split; [done | by constructor].
Qed.
End VariantFacts.



(** ** The command line of the batch *)

Lemma filter_all_length {A} (P : A → Prop) `{∀ x, Decision (P x)} (l : list A) :
  length (filter P l) = length l ↔ Forall P l.
Proof.
  induction l as [|x l IH]; simpl; [split; [constructor|done]|].
  pose proof (length_filter P l) as Hle.
  rewrite filter_cons. destruct (decide (P x)); simpl.
  - rewrite Forall_cons. split; [intros [= Hl]; split; [done | by apply IH]|].
    intros [_ Hl]. f_equal. by apply IH.
  - split; [lia|]. by intros [? _]%Forall_cons.
Qed.

(** X10. The batch command exits with status 0 exactly when every entry of
    the result succeeded, and with status 1 otherwise: so 1 when the script
    cannot be read, and 0, with nothing done, when nothing matches. *)
Theorem cliBatch_exit_status {W Doc} {host : Host W Doc}
    (input_ script : string) (outputDirOption : option string) (overwriteFlag : bool)
    (cwd : string) (executeScript : Doc → string → string → outcome Doc) (w : W) :
  let run := cliBatch input_ script outputDirOption overwriteFlag cwd executeScript w in
  let results := run.1.2 in
  let exit := run.2 in
  (exit = 0%Z ∨ exit = 1%Z)
  ∧ (exit = 0%Z ↔ Forall (λ e, success e = true) results)
  ∧ ((∃ e, readFileSync w script = Throw e) → exit = 1%Z)
  ∧ ((∃ s, readFileSync w script = Return s) → glob_sync w input_ = Return [] →
     exit = 0%Z ∧ results = [] ∧ run.1.1 = w).
Proof.
  cbv zeta. unfold cliBatch.
  destruct (batchProcess _ w) as [w' results] eqn:Hb. simpl.
  pose proof (length_filter (λ e, success e = true) results) as Hle.
  pose proof (filter_all_length (λ e, success e = true) results) as Hall.
  split; [|split; [|split]].
  - destruct (0 <? _); auto.
  - split.
    + destruct (0 <? _) eqn:E; [done|]. intros _. apply Hall.
      apply Nat.ltb_ge in E. lia.
    + intros Hf. apply Hall in Hf. rewrite Hf. by rewrite Nat.sub_diag.
  - intros [e He]. unfold batchProcess, readScript in Hb. simpl in Hb. rewrite He in Hb.
    by injection Hb as <- <-.
  - intros [s Hs] Hg. unfold batchProcess, readScript, findFiles in Hb. simpl in Hb.
    rewrite Hs, Hg in Hb. by injection Hb as <- <-.
Qed.

Lemma cliBatch_exit_status_witness :
  (cliBatch (host := mem_host five_files) "configs/*.yaml" "missing.js" None false "/work"
     (λ config : string, λ _ _, Return config) five_world).2 = 1%Z.
Proof.
  destruct (cliBatch_exit_status (host := mem_host five_files) "configs/*.yaml"
              "missing.js" None false "/work"
              (λ config : string, λ _ _, Return config) five_world)
    as (_ & _ & H & _).
  apply H. eexists. reflexivity.
Defined.

(** ** The fetcher: what a call does to the cache *)

Section CacheFacts.
Variable md5hex : string → string.
Variable CACHE_DIR : string.
Variable path_join : string → string → string.
Variable JSON_stringify : json → string.
Variable JSON_parse : string → outcome json.

Local Abbreviation fetchWith :=
  (downloadSubscription md5hex CACHE_DIR path_join JSON_stringify JSON_parse).
Local Abbreviation bodyPath := (cachePath md5hex CACHE_DIR path_join).
Local Abbreviation headersPath := (headersCachePath md5hex CACHE_DIR path_join).

Lemma downloadSubscription_failed request url useCache files e :
  axios_get request url = Throw e →
  dl_files (fetchWith request url useCache files) = files
  ∧ filter is_cache_write (dl_trace (fetchWith request url useCache files)) = [].
Proof.
  intros He. unfold downloadSubscription. rewrite He.
  destruct useCache; [|done].
  destruct (files !! bodyPath url) as [body|]; [|done].
  unfold headersEvents.
  destruct (json_looking body); [destruct (JSON_parse body)|];
    destruct (files !! headersPath url); done.
Qed.

Lemma downloadSubscription_stored request url useCache files r :
  axios_get request url = Return r →
  dl_files (fetchWith request url useCache files) =
    <[headersPath url := JSON_stringify (resp_headers r)]>
      (<[bodyPath url := match data r with
                         | Text s => s
                         | Data j => JSON_stringify j
                         end]> files).
Proof. intros Hr. unfold downloadSubscription. by rewrite Hr. Qed.

Lemma axios_get_status request url r :
  request url = Return r →
  axios_get request url =
    if (status r <? 400)%Z then Return r else Throw (Error "Request failed with status code").
Proof. intros Hr. unfold axios_get. by rewrite Hr. Qed.
End CacheFacts.

(** X11. A request that fails leaves every file as it was; a request that
    succeeds writes the two files of its own URL and changes no other
    path. *)
Theorem downloadSubscription_frame
    (md5hex : string → string) (CACHE_DIR : string) (path_join : string → string → string)
    (JSON_stringify : json → string) (JSON_parse : string → outcome json)
    (request : string → outcome response) (url : string) (useCache : bool)
    (files : gmap string string) :
  let d := downloadSubscription md5hex CACHE_DIR path_join JSON_stringify JSON_parse
             request url useCache files in
  ((∃ e, axios_get request url = Throw e) → dl_files d = files)
  ∧ (∀ p, p ≠ cachePath md5hex CACHE_DIR path_join url →
          p ≠ headersCachePath md5hex CACHE_DIR path_join url →
          dl_files d !! p = files !! p).
Proof.
  cbv zeta. split.
  - intros [e He]. by eapply downloadSubscription_failed.
  - intros p Hb Hh. destruct (axios_get request url) as [r|e] eqn:Hr.
    + rewrite (downloadSubscription_stored _ _ _ _ _ _ _ _ _ r Hr).
      by rewrite !lookup_insert_ne.
    + by rewrite (proj1 (downloadSubscription_failed _ _ _ _ _ _ _ _ _ e Hr)).
Qed.

Lemma downloadSubscription_frame_witness :
  dl_files (downloadSubscription id "cache" toy_join (λ _, "{}") toy_parse offline
              sample_url false sample_cache) = sample_cache.
Proof.
  apply (downloadSubscription_frame id "cache" toy_join (λ _, "{}") toy_parse offline
           sample_url false sample_cache).
  eexists. reflexivity.
Defined.



(** ** The fetcher: a fetch, then the network goes down *)





(** ** The orchestrator *)

Lemma rewrap_Throw {A} pre (m : outcome A) e :
  rewrap pre m = Throw e → String.prefix pre (err_message e) = true.
Proof. destruct m; simpl; [done|]. intros [= <-]. apply prefix_app. Qed.

Lemma prefix_nested (a b s : string) :
  String.prefix b s = true → String.prefix (a +:+ b) (a +:+ s) = true.
Proof.
  intros [t ->]%prefix_split. apply prefix_split. exists t.
  induction a as [|c a IH]; [done|].
  change (String c (a +:+ b +:+ t) = String c ((a +:+ b) +:+ t)). by rewrite IH.
Qed.

Lemma executeScript_return_strict compile h config script p v :
  exec_result (executeScript compile h config script p) = Return v →
  strict_ok (exec_heap (executeScript compile h config script p)) v.
Proof.
  exec_cases compile h config script p; try discriminate.
  intros [= <-]. by apply validateConfig_strict_iff.
Qed.

Lemma executeScript_throw_object compile h config script p e :
  valid_object config →
  exec_result (executeScript compile h config script p) = Throw e →
  String.prefix msg_failed (err_message e) = true.
Proof.
  intros Hvo. apply (validateConfig_loose_iff h) in Hvo.
  exec_cases compile h config script p; try discriminate.
  all: intros [= <-]; apply rethrow_wrapped.
Qed.

Section OrchestratorFacts.
Variable md5hex : string → string.
Variable CACHE_DIR : string.
Variable path_join : string → string → string.
Variable JSON_stringify : json → string.
Variable JSON_parse : string → outcome json.
Variable request : string → outcome response.
Variable compile : string → outcome script_fn.
Variable yaml_load_value : content → heap → outcome (val * heap).
Variable yaml_dump_value : heap → val → outcome string.
Variable OS_TEMP_DIR : string.
Variable now : string.

Local Abbreviation convert :=
  (processSubscription md5hex CACHE_DIR path_join JSON_stringify JSON_parse request
     compile yaml_load_value yaml_dump_value OS_TEMP_DIR now).
Local Abbreviation fetched :=
  (downloadSubscription md5hex CACHE_DIR path_join JSON_stringify JSON_parse request).

Lemma parseSubscription_object subscriptionContent h config h1 :
  parseSubscription yaml_load_value subscriptionContent h = Return (config, h1) →
  valid_object config ∧ yaml_load_value subscriptionContent h = Return (config, h1).
Proof.
  unfold parseSubscription.
  destruct (yaml_load_value subscriptionContent h) as [[c h']|?]; simpl; [|done].
  pose proof (valid_object_spec c) as Hv.
  destruct (negb (truthy c) || negb (is_object_type (typeof c))); simpl; [done|].
  intros [= <- <-]. split; [by apply Hv | done].
Qed.

(** The stages of a conversion, one after the other. *)
Lemma processSubscription_stages url profileName scriptPath useCache files h :
  let p := convert url profileName scriptPath useCache files h in
  let d := fetched url useCache files in
  (∃ e, dl_result d = Throw e ∧ p = Processed (Throw e) (dl_files d) h)
  ∨ ∃ content headers, dl_result d = Return (content, headers) ∧
    ((∃ e, parseSubscription yaml_load_value content h = Throw e
           ∧ p = Processed (Throw e) (dl_files d) h)
     ∨ ∃ config h1, parseSubscription yaml_load_value content h = Return (config, h1) ∧
       ((dl_files d !! scriptPath = None
         ∧ p = Processed
                 (Throw (Error (msg_script_unreadable +:+ err_message (enoent scriptPath))))
                 (dl_files d) h1)
        ∨ ∃ script, dl_files d !! scriptPath = Some script ∧
          let x := executeScript compile h1 config script profileName in
          ((∃ e, exec_result x = Throw e
                 ∧ p = Processed (Throw (Error (msg_script_failed +:+ err_message e)))
                         (dl_files d) (exec_heap x))
           ∨ ∃ v, exec_result x = Return v ∧
             ((∃ e, yaml_dump_value (exec_heap x) v = Throw e
                    ∧ p = Processed (Throw (Error (msg_write_failed +:+ err_message e)))
                            (dl_files d) (exec_heap x))
              ∨ ∃ yamlStr, yaml_dump_value (exec_heap x) v = Return yamlStr
                  ∧ p = Processed
                          (Return (Artifact
                                     (tempFilePathOf path_join OS_TEMP_DIR now profileName)
                                     (fileNameOf profileName) headers))
                          (<[tempFilePathOf path_join OS_TEMP_DIR now profileName
                             := yamlStr]> (dl_files d))
                          (exec_heap x))))).
Proof.
  cbv zeta. unfold processSubscription.
  destruct (dl_result (fetched url useCache files)) as [[content headers]|e0];
    [right; exists content, headers; split; [done|] | left; by exists e0].
  destruct (parseSubscription yaml_load_value content h) as [[config h1]|e1];
    [right; exists config, h1; split; [done|] | left; by exists e1].
  destruct (dl_files (fetched url useCache files) !! scriptPath) as [script|]; simpl;
    [right; exists script; split; [done|] | by left].
  destruct (exec_result (executeScript compile h1 config script profileName)) as [v|e2];
    simpl; [right; exists v; split; [done|] | left; by exists e2].
  destruct (yaml_dump_value
              (exec_heap (executeScript compile h1 config script profileName)) v)
    as [yamlStr|e3]; simpl; [right; by exists yamlStr | left; by exists e3].
Qed.
End OrchestratorFacts.

(** X15. A conversion that returns names the temporary file and the
    download name after the profile (or [config] when it is empty), hands
    on the headers of the fetch, and has written to the temporary file, and
    to no other, the dump of a manifest that passed strict validation. *)
Theorem processSubscription_artifact
    (md5hex : string → string) (CACHE_DIR : string) (path_join : string → string → string)
    (JSON_stringify : json → string) (JSON_parse : string → outcome json)
    (request : string → outcome response) (compile : string → outcome script_fn)
    (yaml_load_value : content → heap → outcome (val * heap))
    (yaml_dump_value : heap → val → outcome string) (OS_TEMP_DIR now : string)
    (url profileName scriptPath : string) (useCache : bool)
    (files : gmap string string) (h : heap) (a : artifact) :
  let p := processSubscription md5hex CACHE_DIR path_join JSON_stringify JSON_parse
             request compile yaml_load_value yaml_dump_value OS_TEMP_DIR now
             url profileName scriptPath useCache files h in
  let d := downloadSubscription md5hex CACHE_DIR path_join JSON_stringify JSON_parse
             request url useCache files in
  ps_result p = Return a →
  filePath a = tempFilePathOf path_join OS_TEMP_DIR now profileName
  ∧ fileName a = fileNameOf profileName
  ∧ (∃ content, dl_result d = Return (content, art_headers a))
  ∧ ∃ v yamlStr,
      strict_ok (ps_heap p) v
      ∧ yaml_dump_value (ps_heap p) v = Return yamlStr
      ∧ ps_files p = <[filePath a := yamlStr]> (dl_files d).
Proof.
  cbv zeta.
  destruct (processSubscription_stages md5hex CACHE_DIR path_join JSON_stringify
              JSON_parse request compile yaml_load_value yaml_dump_value OS_TEMP_DIR now
              url profileName scriptPath useCache files h)
    as [(e & _ & ->)|(content & headers & Hdl & [(e & _ & ->)|(config & h1 & Hparse &
         [[_ ->]|(script & Hscript & [(e & _ & ->)|(v & Hexec &
           [(e & _ & ->)|(yamlStr & Hdump & ->)])])])])]; simpl; try discriminate.
  intros [= <-]. simpl. split; [done|]. split; [done|].
  split; [by exists content|].
  exists v, yamlStr. split; [by apply executeScript_return_strict|]. by split.
Qed.

Lemma processSubscription_artifact_witness :
  let p := processSubscription id "cache" toy_join (λ _, "{}") toy_parse
             (answering (Response 200 (Text "mode: rule") (JObj [])))
             (λ _, Return (identity_after 5)) toy_load toy_dump "/tmp" "1700000000000"
             sample_url "" "script.js" true sample_disk [] in
  let d := downloadSubscription id "cache" toy_join (λ _, "{}") toy_parse
             (answering (Response 200 (Text "mode: rule") (JObj [])))
             sample_url true sample_disk in
  let a := Artifact "/tmp/clash_config_1700000000000.yaml" "config.yaml" (JObj []) in
  filePath a = "/tmp/clash_config_1700000000000.yaml"
  ∧ fileName a = "config.yaml"
  ∧ (∃ content, dl_result d = Return (content, art_headers a))
  ∧ ∃ v yamlStr,
      strict_ok (ps_heap p) v
      ∧ toy_dump (ps_heap p) v = Return yamlStr
      ∧ ps_files p = <[filePath a := yamlStr]> (dl_files d).
Proof.
  apply (processSubscription_artifact id "cache" toy_join (λ _, "{}") toy_parse
           (answering (Response 200 (Text "mode: rule") (JObj [])))
           (λ _, Return (identity_after 5)) toy_load toy_dump "/tmp" "1700000000000"
           sample_url "" "script.js" true sample_disk []
           (Artifact "/tmp/clash_config_1700000000000.yaml" "config.yaml" (JObj []))).
  reflexivity.
Defined.



(** ** The request handlers *)

Lemma cleanupTemp_done p s : cleaned s = true → cleanupTemp p s = s.
Proof. unfold cleanupTemp. by intros ->. Qed.

Lemma cleanupTemp_events_done p (events : list stream_event) s :
  cleaned s = true → foldl (λ s _, cleanupTemp p s) s events = s.
Proof.
  revert s. induction events as [|ev events IH]; intros s Hs; [done|].
  simpl. rewrite cleanupTemp_done by done. by apply IH.
Qed.

Lemma cleanupTemp_present p files n text :
  p ≠ "" → files !! p = Some text →
  cleanupTemp p (Cleanup false files n) = Cleanup true (delete p files) (S n).
Proof.
  intros Hp Hf. unfold cleanupTemp, unlinkSync. simpl.
  apply String.eqb_neq in Hp. by rewrite Hp, Hf.
Qed.

Lemma cleanupTemp_absent p files n :
  p ≠ "" → files !! p = None →
  cleanupTemp p (Cleanup false files n) = Cleanup false files (S n).
Proof.
  intros Hp Hf. unfold cleanupTemp, unlinkSync. simpl.
  apply String.eqb_neq in Hp. by rewrite Hp, Hf.
Qed.

Lemma cleanupTemp_events_absent p (events : list stream_event) files n :
  p ≠ "" → files !! p = None →
  foldl (λ s _, cleanupTemp p s) (Cleanup false files n) events
  = Cleanup false files (length events + n).
Proof.
  intros Hp Hf. revert n. induction events as [|ev events IH]; intros n; [done|].
  simpl. rewrite cleanupTemp_absent by done.
  rewrite IH. f_equal. lia.
Qed.

(** X17. The closure that removes the temporary file: once at least one of
    the four events has come, the file is gone and every other file is as it
    was.  When the file was there, it was unlinked by the first event and
    the later ones did nothing; when it was not, the flag never rises and
    every event tries again. *)
Theorem cleanupTemp_after_events (tempFilePath : string) (events : list stream_event)
    (files : gmap string string) :
  tempFilePath ≠ "" → events ≠ [] →
  let s := afterEvents tempFilePath events files in
  cl_files s = delete tempFilePath files
  ∧ (is_Some (files !! tempFilePath) → cleaned s = true ∧ cl_unlinks s = 1)
  ∧ (files !! tempFilePath = None → cleaned s = false ∧ cl_unlinks s = length events).
Proof.
  intros Hp Hev. cbv zeta. unfold afterEvents.
  destruct (files !! tempFilePath) as [text|] eqn:Hf.
  - destruct events as [|ev events]; [done|]. simpl.
    rewrite (cleanupTemp_present tempFilePath files 0 text) by done.
    rewrite cleanupTemp_events_done by done. simpl.
    split; [done|]. split; [by intros _ | intros [=]].
  - rewrite cleanupTemp_events_absent by done. simpl.
    split; [by rewrite delete_id|]. split; [by intros [? [=]]|].
    intros _. split; [done | lia].
Qed.

Lemma cleanupTemp_after_events_witness :
  let s := afterEvents "/tmp/clash_config_1.yaml" [FileEnd; ResFinish; ResClose]
             {[ "/tmp/clash_config_1.yaml" := "mode: rule" ]} in
  cl_files s = delete "/tmp/clash_config_1.yaml"
                 {[ "/tmp/clash_config_1.yaml" := "mode: rule" ]}
  ∧ (is_Some (({[ "/tmp/clash_config_1.yaml" := "mode: rule" ]} : gmap string string)
               !! "/tmp/clash_config_1.yaml")
     → cleaned s = true ∧ cl_unlinks s = 1)
  ∧ (({[ "/tmp/clash_config_1.yaml" := "mode: rule" ]} : gmap string string)
       !! "/tmp/clash_config_1.yaml" = None
     → cleaned s = false ∧ cl_unlinks s = length [FileEnd; ResFinish; ResClose]).
Proof.
  apply (cleanupTemp_after_events "/tmp/clash_config_1.yaml"
           [FileEnd; ResFinish; ResClose]
           {[ "/tmp/clash_config_1.yaml" := "mode: rule" ]}).
  - discriminate.
  - discriminate.
Defined.

Lemma afterEvents_files p (events : list stream_event) (files : gmap string string) :
  p ≠ "" → events ≠ [] → cl_files (afterEvents p events files) = delete p files.
Proof.
  intros Hp Hev. unfold afterEvents.
  destruct (files !! p) as [text|] eqn:Hf.
  - destruct events as [|ev events]; [done|]. simpl.
    rewrite (cleanupTemp_present p files 0 text) by done.
    by rewrite cleanupTemp_events_done.
  - rewrite cleanupTemp_events_absent by done. simpl. by rewrite delete_id.
Qed.

(** X18. No temporary file outlives a request.  When the temporary path is
    not empty and names no file after the fetch, then, whatever the
    conversion and the response do, the files once the response is over
    are exactly those the fetch left; and a response that pipes a file
    pipes the temporary file, which is there when the handler returns. *)
Theorem convertRequest_leaves_no_temp
    (md5hex : string → string) (CACHE_DIR : string) (path_join : string → string → string)
    (JSON_stringify : json → string) (JSON_parse : string → outcome json)
    (request : string → outcome response) (compile : string → outcome script_fn)
    (yaml_load_value : content → heap → outcome (val * heap))
    (yaml_dump_value : heap → val → outcome string) (OS_TEMP_DIR now : string)
    (toLowerCase : string → string) (header_error : string → json → option js_error)
    (config : service) (userAgent : option string) (url profileName : string)
    (noCache : bool) (files : gmap string string) (h : heap)
    (events : list stream_event) :
  let temp := tempFilePathOf path_join OS_TEMP_DIR now profileName in
  let d := downloadSubscription md5hex CACHE_DIR path_join JSON_stringify JSON_parse
             request url (useCacheOf noCache (sc_useCache config)) files in
  let hd := convertRequest md5hex CACHE_DIR path_join JSON_stringify JSON_parse request
              compile yaml_load_value yaml_dump_value OS_TEMP_DIR now toLowerCase
              header_error config userAgent url profileName noCache files h in
  url ≠ "" → temp ≠ "" → dl_files d !! temp = None → events ≠ [] →
  settled hd events = dl_files d
  ∧ ∀ path, hd_reply hd = Piped path → path = temp ∧ is_Some (hd_files hd !! temp).
Proof.
  cbv zeta. intros Hurl Htemp Hfresh Hev. unfold convertRequest.
  apply String.eqb_neq in Hurl. rewrite Hurl.
  destruct (processSubscription_stages md5hex CACHE_DIR path_join JSON_stringify
              JSON_parse request compile yaml_load_value yaml_dump_value OS_TEMP_DIR now
              url profileName (sc_scriptPath config)
              (useCacheOf noCache (sc_useCache config)) files h)
    as [(e & _ & ->)|(content & headers & Hdl & [(e & _ & ->)|(config' & h1 & Hparse &
         [[_ ->]|(script & Hscript & [(e & _ & ->)|(v & Hexec &
           [(e & _ & ->)|(yamlStr & Hdump & ->)])])])])]; simpl; try done.
  destruct (setResponseHeaders toLowerCase header_error userAgent headers
              (fileNameOf profileName) []) as [[[]|e] res]; unfold settled; simpl.
  - rewrite afterEvents_files by done. rewrite delete_insert_id by done.
    split; [done|]. intros path [= <-]. split; [done|].
    rewrite lookup_insert_eq. by eexists.
  - pose proof Htemp as Htemp'. apply String.eqb_neq in Htemp'. rewrite Htemp'.
    unfold unlinkSync. rewrite lookup_insert_eq. by rewrite delete_insert_id.
Qed.

Lemma convertRequest_leaves_no_temp_witness :
  let d := downloadSubscription id "cache" toy_join (λ _, "{}") toy_parse
             (answering (Response 200 (Text "mode: rule") (JObj [])))
             sample_url (useCacheOf false (sc_useCache sample_service)) sample_disk in
  let hd := convertRequest id "cache" toy_join (λ _, "{}") toy_parse
              (answering (Response 200 (Text "mode: rule") (JObj [])))
              (λ _, Return (identity_after 5)) toy_load toy_dump "/tmp" "1700000000000"
              id no_line_break sample_service (Some "clash-verge/1.0")
              sample_url "home" false sample_disk [] in
  settled hd [FileEnd; ResFinish; ResClose] = dl_files d
  ∧ ∀ path, hd_reply hd = Piped path →
      path = tempFilePathOf toy_join "/tmp" "1700000000000" "home"
      ∧ is_Some (hd_files hd !! tempFilePathOf toy_join "/tmp" "1700000000000" "home").
Proof.
  apply (convertRequest_leaves_no_temp id "cache" toy_join (λ _, "{}") toy_parse
           (answering (Response 200 (Text "mode: rule") (JObj [])))
           (λ _, Return (identity_after 5)) toy_load toy_dump "/tmp" "1700000000000"
           id no_line_break sample_service (Some "clash-verge/1.0")
           sample_url "home" false sample_disk [] [FileEnd; ResFinish; ResClose]).
  - discriminate.
  - discriminate.
  - vm_compute. reflexivity.
  - discriminate.
Defined.

Section HeaderFacts.
Variable toLowerCase : string → string.
Variable header_error : string → json → option js_error.

Lemma seqR_Return (a b : resM) res res' :
  seqR a b res = (Return tt, res') →
  ∃ res1, a res = (Return tt, res1) ∧ b res1 = (Return tt, res').
Proof.
  unfold seqR. destruct (a res) as [[[]|e] res1]; [|done].
  intros Hb. by exists res1.
Qed.

Lemma seqR_Throw (a b : resM) res res' e :
  seqR a b res = (Throw e, res') →
  a res = (Throw e, res') ∨ ∃ res1, a res = (Return tt, res1) ∧ b res1 = (Throw e, res').
Proof.
  unfold seqR. destruct (a res) as [[[]|e'] res1]; [|by left].
  intros Hb. right. by exists res1.
Qed.

Lemma setHeader_Return name value res res' :
  setHeader header_error name value res = (Return tt, res') →
  res' = res ++ [(name, value)] ∧ header_error name value = None.
Proof.
  unfold setHeader. destruct (header_error name value); [done|]. by intros [= <-].
Qed.

Lemma setHeader_Throw name value res res' e :
  setHeader header_error name value res = (Throw e, res') →
  header_error name value = Some e.
Proof.
  unfold setHeader. destruct (header_error name value); [|done]. by intros [= <- _].
Qed.

Lemma forward_Return originalHeaders key name res res' :
  forward header_error originalHeaders key name res = (Return tt, res') →
  res' = res ++ match wanted originalHeaders key with
                | Some v => [(name, v)]
                | None => []
                end
  ∧ ∀ v, wanted originalHeaders key = Some v → header_error name v = None.
Proof.
  unfold forward, wanted.
  destruct (jget originalHeaders key) as [[v|]|e]; simpl.
  - destruct (jtruthy (Some v)).
    + intros [-> Hok]%setHeader_Return. split; [done|]. by intros ? [= <-].
    + intros [= <-]. split; [by rewrite app_nil_r | done].
  - intros [= <-]. split; [by rewrite app_nil_r | done].
  - done.
Qed.

Lemma forward_Throw originalHeaders key name res res' e :
  forward header_error originalHeaders key name res = (Throw e, res') →
  jget originalHeaders key = Throw e
  ∨ ∃ value, header_error name value = Some e.
Proof.
  unfold forward.
  destruct (jget originalHeaders key) as [[v|]|e0]; simpl.
  - destruct (jtruthy (Some v)); [|done].
    intros H%setHeader_Throw. right. by exists v.
  - done.
  - intros [= <- _]. by left.
Qed.

Lemma jget_Throw originalHeaders key e :
  jget originalHeaders key = Throw e →
  originalHeaders = JNull ∧ e = TypeError (msg_null_property key).
Proof. destruct originalHeaders; simpl; try done. by intros [= <-]. Qed.
End HeaderFacts.

(** X19. The headers of a piped response.  [Content-Disposition] is set
    first and [Content-Type], to YAML, last, each once.  A client that is
    not Clash gets these two only, with the encoded file name.  A Clash
    client gets the upstream [content-disposition] when it is truthy, the
    encoded file name otherwise, and, in between, exactly the truthy ones
    of the three forwarded upstream headers, in the order of the code.
    Every header set was accepted by the response. *)
Theorem setResponseHeaders_shape
    (toLowerCase : string → string) (header_error : string → json → option js_error)
    (userAgent : option string) (originalHeaders : json) (fileName : string)
    (res : list (string * json)) :
  setResponseHeaders toLowerCase header_error userAgent originalHeaders fileName []
    = (Return tt, res) →
  ∃ disposition middle,
    res = ("Content-Disposition", disposition) :: middle
          ++ [("Content-Type", JStr "application/x-yaml")]
    ∧ Forall (λ nv, header_error nv.1 nv.2 = None) res
    ∧ (isClashClient toLowerCase userAgent = false →
         disposition = attachment fileName ∧ middle = [])
    ∧ (isClashClient toLowerCase userAgent = true →
         disposition = default (attachment fileName)
                         (wanted originalHeaders "content-disposition")
         ∧ middle = omap (λ kn, (λ v, (kn.2, v)) <$> wanted originalHeaders kn.1)
                      forwarded).
Proof.
  unfold setResponseHeaders.
  intros (res1 & Hfirst & [-> Hct]%setHeader_Return)%seqR_Return.
  destruct (isClashClient toLowerCase userAgent).
  - apply seqR_Return in Hfirst as (r1 & Hcd & Hrest).
    apply seqR_Return in Hrest as (r2 & H1 & Hrest).
    apply seqR_Return in Hrest as (r3 & H2 & H3).
    apply forward_Return in H1 as [-> Hok1].
    apply forward_Return in H2 as [-> Hok2].
    apply forward_Return in H3 as [-> Hok3].
    assert (∃ disposition,
              r1 = [("Content-Disposition", disposition)]
              ∧ header_error "Content-Disposition" disposition = None
              ∧ disposition = default (attachment fileName)
                                (wanted originalHeaders "content-disposition"))
      as (disposition & -> & Hokd & Hd).
    { unfold wanted.
      destruct (jget originalHeaders "content-disposition") as [[v|]|e]; simpl in *;
        [destruct (jtruthy (Some v)); simpl in *| |done].
      all: apply setHeader_Return in Hcd as [-> Hok]; by eexists. }
    exists disposition,
      (omap (λ kn, (λ v, (kn.2, v)) <$> wanted originalHeaders kn.1) forwarded).
    split; [|split; [|split; [done|done]]].
    + unfold forwarded, omap. simpl.
      destruct (wanted originalHeaders "profile-update-interval"),
               (wanted originalHeaders "subscription-userinfo"),
               (wanted originalHeaders "profile-web-page-url"); done.
    + rewrite !Forall_app. repeat split.
      * by constructor.
      * destruct (wanted originalHeaders "profile-update-interval") as [v|];
          constructor; [by apply Hok1 | done].
      * destruct (wanted originalHeaders "subscription-userinfo") as [v|];
          constructor; [by apply Hok2 | done].
      * destruct (wanted originalHeaders "profile-web-page-url") as [v|];
          constructor; [by apply Hok3 | done].
      * by constructor.
  - apply setHeader_Return in Hfirst as [-> Hok].
    exists (attachment fileName), []. split; [done|]. split; [|done].
    repeat constructor; done.
Qed.

Lemma setResponseHeaders_shape_witness :
  let originalHeaders :=
    JObj [("subscription-userinfo", JStr "upload=1; download=2; total=3");
          ("profile-update-interval", JStr "24"); ("profile-web-page-url", JStr "")] in
  let res := [("Content-Disposition", attachment "home.yaml");
              ("Profile-Update-Interval", JStr "24");
              ("Subscription-Userinfo", JStr "upload=1; download=2; total=3");
              ("Content-Type", JStr "application/x-yaml")] in
  ∃ disposition middle,
    res = ("Content-Disposition", disposition) :: middle
          ++ [("Content-Type", JStr "application/x-yaml")]
    ∧ Forall (λ nv, no_line_break nv.1 nv.2 = None) res
    ∧ (isClashClient id (Some "clash-verge/1.0") = false →
         disposition = attachment "home.yaml" ∧ middle = [])
    ∧ (isClashClient id (Some "clash-verge/1.0") = true →
         disposition = default (attachment "home.yaml")
                         (wanted originalHeaders "content-disposition")
         ∧ middle = omap (λ kn, (λ v, (kn.2, v)) <$> wanted originalHeaders kn.1)
                      forwarded).
Proof.
  apply (setResponseHeaders_shape id no_line_break (Some "clash-verge/1.0")
           (JObj [("subscription-userinfo", JStr "upload=1; download=2; total=3");
                  ("profile-update-interval", JStr "24");
                  ("profile-web-page-url", JStr "")])
           "home.yaml").
  reflexivity.
Defined.



Lemma hex_digit_code n :
  n < 16 → nat_of_ascii (hex_digit n) = if n <? 10 then 48 + n else 55 + n.
Proof.
  intros Hn. unfold hex_digit. apply nat_ascii_embedding.
  destruct (n <? 10) eqn:Hlt; [apply Nat.ltb_lt in Hlt | apply Nat.ltb_ge in Hlt]; lia.
Qed.

Lemma hex_digit_inj n m : n < 16 → m < 16 → hex_digit n = hex_digit m → n = m.
Proof.
  intros Hn Hm Heq. apply (f_equal nat_of_ascii) in Heq.
  rewrite !hex_digit_code in Heq by done.
  destruct (n <? 10) eqn:Hn10, (m <? 10) eqn:Hm10;
    repeat match goal with
           | H : (_ <? _) = true |- _ => apply Nat.ltb_lt in H
           | H : (_ <? _) = false |- _ => apply Nat.ltb_ge in H
           end; lia.
Qed.

Lemma hex_digit_unreserved n : n < 16 → is_unreserved (hex_digit n) = true.
Proof.
  intros Hn. do 16 (destruct n as [|n]; [by vm_compute|]). lia.
Qed.

Lemma nat_of_ascii_bound a : nat_of_ascii a < 256.
Proof. destruct a as [[] [] [] [] [] [] [] []]; vm_compute; lia. Qed.

Lemma string_cons_inj a s b t : String a s = String b t → a = b ∧ s = t.
Proof. by intros [= -> ->]. Qed.

Lemma encodeURIComponent_cons a s :
  ∃ c rest, encodeURIComponent (String a s) = String c rest.
Proof. simpl. destruct (is_unreserved a); eauto. Qed.

Lemma encodeURIComponent_encoded (s : string) :
  string_forallb is_encoded_char (encodeURIComponent s) = true.
Proof.
  induction s as [|a s IH]; [done|].
  pose proof (nat_of_ascii_bound a) as Hb.
  assert (is_unreserved (hex_digit (nat_of_ascii a / 16)) = true) as Hhi.
  { apply hex_digit_unreserved, Nat.Div0.div_lt_upper_bound. lia. }
  assert (is_unreserved (hex_digit (nat_of_ascii a mod 16)) = true) as Hlo.
  { apply hex_digit_unreserved, Nat.mod_upper_bound. lia. }
  cbn [encodeURIComponent]. destruct (is_unreserved a) eqn:Ha.
  - cbn [string_forallb]. unfold is_encoded_char at 1. by rewrite Ha, IH.
  - cbn [string_forallb]. unfold is_encoded_char at 2 3. by rewrite Hhi, Hlo, IH.
Qed.

Lemma encodeURIComponent_inj (s t : string) :
  encodeURIComponent s = encodeURIComponent t → s = t.
Proof.
  revert t. induction s as [|a s IH]; intros [|b t] Heq; [done|..].
  - destruct (encodeURIComponent_cons b t) as (c & rest & Hc).
    rewrite Hc in Heq. done.
  - destruct (encodeURIComponent_cons a s) as (c & rest & Hc).
    rewrite Hc in Heq. done.
  - cbn [encodeURIComponent] in Heq.
    destruct (is_unreserved a) eqn:Ha, (is_unreserved b) eqn:Hb.
    + injection Heq as -> Heq. f_equal. by apply IH.
    + injection Heq as -> _. by vm_compute in Ha.
    + injection Heq as <- _. by vm_compute in Hb.
    + apply string_cons_inj in Heq as [_ Heq].
      apply string_cons_inj in Heq as [Hhi Heq].
      apply string_cons_inj in Heq as [Hlo Heq].
      pose proof (nat_of_ascii_bound a) as Hba.
      pose proof (nat_of_ascii_bound b) as Hbb.
      apply hex_digit_inj in Hhi;
        [|apply Nat.Div0.div_lt_upper_bound; lia..].
      apply hex_digit_inj in Hlo; [|apply Nat.mod_upper_bound; lia..].
      assert (nat_of_ascii a = nat_of_ascii b) as Hab.
      { rewrite (Nat.div_mod_eq (nat_of_ascii a) 16),
                (Nat.div_mod_eq (nat_of_ascii b) 16).
        by rewrite Hhi, Hlo. }
      apply (f_equal ascii_of_nat) in Hab.
      rewrite !ascii_nat_embedding in Hab. subst b. f_equal. by apply IH.
Qed.


(** X22. With [noCache] set, [1] in the query of a GET or any truthy value
    in the body of a POST, a request whose download fails is answered 500
    with the message of a download without cache, whatever the cache and
    the configuration hold; no header is set and no file is touched. *)
Theorem convert_noCache_offline
    (md5hex : string → string) (CACHE_DIR : string) (path_join : string → string → string)
    (JSON_stringify : json → string) (JSON_parse : string → outcome json)
    (request : string → outcome response) (compile : string → outcome script_fn)
    (yaml_load_value : content → heap → outcome (val * heap))
    (yaml_dump_value : heap → val → outcome string) (OS_TEMP_DIR now : string)
    (toLowerCase : string → string) (header_error : string → json → option js_error)
    (config : service) (userAgent : option string) (q : query) (b : body)
    (url : string) (files : gmap string string) (h : heap) (e : js_error) :
  url ≠ "" → axios_get request url = Throw e →
  q_url q = Some url → q_noCache q = Some "1" →
  b_url b = Some url → jtruthy (b_noCache b) = true →
  let failed :=
    Handled (Sent 500 (msg_convert_failed +:+ msg_no_cache url)) [] files h in
  getConvert md5hex CACHE_DIR path_join JSON_stringify JSON_parse request compile
    yaml_load_value yaml_dump_value OS_TEMP_DIR now toLowerCase header_error
    config userAgent q files h = failed
  ∧ postConvert md5hex CACHE_DIR path_join JSON_stringify JSON_parse request compile
      yaml_load_value yaml_dump_value OS_TEMP_DIR now toLowerCase header_error
      config userAgent b files h = failed.
Proof.
  intros Hurl He Hq Hq1 Hb Hb1. cbv zeta.
  unfold getConvert, postConvert, convertRequest.
  rewrite Hq, Hq1, Hb, Hb1. rewrite bool_decide_eq_true_2 by done. simpl.
  apply String.eqb_neq in Hurl. rewrite Hurl.
  unfold processSubscription, downloadSubscription. rewrite He. done.
Qed.

Lemma convert_noCache_offline_witness :
  let failed :=
    Handled (Sent 500 (msg_convert_failed +:+ msg_no_cache sample_url)) []
      sample_cache [] in
  getConvert id "cache" toy_join (λ _, "{}") toy_parse offline
    (λ _, Return (identity_after 5)) toy_load toy_dump "/tmp" "1700000000000"
    id no_line_break sample_service None
    (Query (Some sample_url) None (Some "1")) sample_cache [] = failed
  ∧ postConvert id "cache" toy_join (λ _, "{}") toy_parse offline
      (λ _, Return (identity_after 5)) toy_load toy_dump "/tmp" "1700000000000"
      id no_line_break sample_service None
      (Body (Some sample_url) None (Some (JStr "0"))) sample_cache [] = failed.
Proof.
  apply (convert_noCache_offline id "cache" toy_join (λ _, "{}") toy_parse offline
           (λ _, Return (identity_after 5)) toy_load toy_dump "/tmp" "1700000000000"
           id no_line_break sample_service None
           (Query (Some sample_url) None (Some "1"))
           (Body (Some sample_url) None (Some (JStr "0")))
           sample_url sample_cache [] (Error "connect ECONNREFUSED")).
  - discriminate.
  - reflexivity.
  - reflexivity.
  - reflexivity.
  - reflexivity.
  - reflexivity.
Defined.

(** ** The service configuration *)

Lemma set_prop_assoc_eq k v props : assoc k (set_prop k v props) = Some v.
Proof.
  induction props as [|[k0 v0] rest IH]; simpl.
  - by rewrite String.eqb_refl.
  - destruct (String.eqb k k0) eqn:E; simpl; [by rewrite String.eqb_refl|].
    by rewrite E.
Qed.

Lemma assign_plain h t k x : plain h t → ∃ h', assign h t k x = Some h'.
Proof.
  destruct t as [| | | | | | |l]; simpl; try done; eauto.
  intros [props ->]. eauto.
Qed.

Lemma assign_lookup h t k x h' l' :
  assign h t k x = Some h' →
  h' !! l' = h !! l'
  ∨ ∃ props, t = VRef l' ∧ h !! l' = Some (CObj props)
             ∧ h' !! l' = Some (CObj (set_prop k x props)).
Proof.
  destruct t as [| | | | | | |l]; simpl; try (intros [= <-]; by left); try done.
  destruct (h !! l) as [[props|elems]|] eqn:Hl; try done.
  intros [= <-]. destruct (decide (l = l')) as [<-|Hne].
  - right. exists props. rewrite list_lookup_insert_eq by (by eapply lookup_lt_Some).
    done.
  - left. by rewrite list_lookup_insert_ne.
Qed.

Lemma assign_get h t k x h' t' k' :
  assign h t k x = Some h' →
  get h' t' k' = get h t' k' ∨ (t' = t ∧ k' = k ∧ get h' t' k' = x).
Proof.
  intros Ha. destruct t' as [| | | | | | |l']; try by left.
  destruct (assign_lookup h t k x h' l' Ha) as [Heq|(props & -> & Hl & Hl')].
  - left. simpl. by rewrite Heq.
  - simpl. rewrite Hl, Hl'. destruct (decide (k' = k)) as [->|Hne].
    + right. by rewrite set_prop_assoc_eq.
    + left. by rewrite set_prop_assoc_ne.
Qed.

Lemma assign_object h l props k x h' :
  h !! l = Some (CObj props) → assign h (VRef l) k x = Some h' →
  get h' (VRef l) k = x.
Proof.
  intros Hl. simpl. rewrite Hl. intros [= <-]. simpl.
  rewrite list_lookup_insert_eq by (by eapply lookup_lt_Some).
  by rewrite set_prop_assoc_eq.
Qed.

Lemma assign_plain_preserved h t k x h' v :
  assign h t k x = Some h' → plain h v → plain h' v.
Proof.
  intros Ha. destruct v as [| | | | | | |l']; simpl; try done.
  intros [props Hl].
  destruct (assign_lookup h t k x h' l' Ha) as [Heq|(props' & _ & _ & Hl')].
  - exists props. by rewrite Heq.
  - eauto.
Qed.

Lemma assign_holds_defaults h t k x h' d dh :
  assign h t k x = Some h' → t ≠ VRef d → t ≠ VRef dh →
  holds_defaults h d dh → holds_defaults h' d dh.
Proof.
  intros Ha Hd Hdh [H1 H2]. split.
  - destruct (assign_lookup h t k x h' d Ha) as [->|(? & -> & _)]; done.
  - destruct (assign_lookup h t k x h' dh Ha) as [->|(? & -> & _)]; done.
Qed.

Lemma setDefault_plain m h t k x : plain h t → ∃ h', setDefault m h t k x = Some h'.
Proof.
  intros Hp. unfold setDefault. destruct (m (get h t k)); [|eauto].
  by apply assign_plain.
Qed.

Lemma setDefault_get m h t k x h' t' k' :
  setDefault m h t k x = Some h' →
  get h' t' k' = get h t' k'
  ∨ (t' = t ∧ k' = k ∧ get h' t' k' = x ∧ m (get h t' k') = true).
Proof.
  unfold setDefault. destruct (m (get h t k)) eqn:Hm.
  - intros [Heq|(-> & -> & Hx)]%(assign_get _ _ _ _ _ t' k'); [by left|].
    right. done.
  - intros [= <-]. by left.
Qed.

Lemma setDefault_keeps m h t k x h' t' k' :
  setDefault m h t k x = Some h' → (k' ≠ k ∨ m (get h t' k') = false) →
  get h' t' k' = get h t' k'.
Proof.
  intros [Heq|(_ & -> & _ & Hm)]%(setDefault_get _ _ _ _ _ _ t' k'); [done|].
  intros [?|?]; congruence.
Qed.

Lemma setDefault_sets m h l props k x h' :
  h !! l = Some (CObj props) → setDefault m h (VRef l) k x = Some h' → m x = false →
  m (get h' (VRef l) k) = false.
Proof.
  intros Hl Hs Hx. unfold setDefault in Hs.
  destruct (m (get h (VRef l) k)) eqn:Hm.
  - by rewrite (assign_object h l props k x h').
  - by injection Hs as <-.
Qed.

Lemma setDefault_plain_preserved m h t k x h' v :
  setDefault m h t k x = Some h' → plain h v → plain h' v.
Proof.
  unfold setDefault. destruct (m (get h t k)); [apply assign_plain_preserved|].
  by intros [= <-].
Qed.

Lemma setDefault_holds_defaults m h t k x h' d dh :
  setDefault m h t k x = Some h' → t ≠ VRef d → t ≠ VRef dh →
  holds_defaults h d dh → holds_defaults h' d dh.
Proof.
  unfold setDefault. destruct (m (get h t k)); [apply assign_holds_defaults|].
  by intros [= <-].
Qed.

Lemma holds_defaults_get h d dh :
  holds_defaults h d dh →
  get h (VRef d) "scriptPath" = VStr "./rules-script.js"
  ∧ get h (VRef d) "port" = VNum (num_of_Z 3000)
  ∧ get h (VRef d) "useCache" = VBool true
  ∧ get h (VRef d) "https" = VRef dh
  ∧ get h (VRef dh) "enabled" = VBool false
  ∧ get h (VRef dh) "forceHttps" = VBool false
  ∧ get h (VRef dh) "port" = VNum (num_of_Z 443)
  ∧ get h (VRef dh) "certPath" = VStr "./cert/server.crt"
  ∧ get h (VRef dh) "keyPath" = VStr "./cert/server.key".
Proof. intros [H1 H2]. simpl. rewrite H1, H2. done. Qed.

Lemma assign_keeps h t k x h' t' k' :
  assign h t k x = Some h' → k' ≠ k → get h' t' k' = get h t' k'.
Proof. intros [Heq|(_ & -> & _)]%(assign_get _ _ _ _ _ t' k'); done. Qed.

Lemma setDefault_keeps_truthy m h t k x h' t' k' :
  (∀ v, m v = true → truthy v = false) →
  setDefault m h t k x = Some h' → truthy (get h t' k') = true →
  get h' t' k' = get h t' k'.
Proof.
  intros Hm Hs Ht. eapply setDefault_keeps; [done|]. right.
  destruct (m (get h t' k')) eqn:E; [|done]. apply Hm in E. congruence.
Qed.

Lemma falsy_not_truthy v : falsy v = true → truthy v = false.
Proof. unfold falsy. by destruct (truthy v). Qed.

Lemma is_undefined_not_truthy v : is_undefined v = true → truthy v = false.
Proof. by destruct v. Qed.

Lemma is_undefined_false v : is_undefined v = false ↔ v ≠ VUndef.
Proof. destruct v; simpl; split; try done. Qed.

Lemma falsy_false v : falsy v = false ↔ truthy v = true.
Proof. unfold falsy. destruct (truthy v); simpl; split; done. Qed.

(** X23. The defaults never replace a value that is there: after them,
    every property that was truthy, of the document or of any other
    object, has the value it had, and so has a [useCache] that was given,
    be it [false] or [null]. *)
Theorem applyDefaults_keeps (DEFAULT_CONFIG : val) (h : heap) (config : val) (h' : heap) :
  applyDefaults DEFAULT_CONFIG h config = Some h' →
  (∀ target k, truthy (get h target k) = true → get h' target k = get h target k)
  ∧ (get h config "useCache" ≠ VUndef →
       get h' config "useCache" = get h config "useCache").
Proof.
  unfold applyDefaults. intros H.
  destruct (setDefault falsy h config "scriptPath" _) as [h1|] eqn:E1; [|done].
  cbn [mbind option_bind] in H.
  destruct (setDefault falsy h1 config "port" _) as [h2|] eqn:E2; [|done].
  cbn [mbind option_bind] in H.
  destruct (setDefault is_undefined h2 config "useCache" _) as [h3|] eqn:E3; [|done].
  cbn [mbind option_bind] in H.
  assert (∀ target k, truthy (get h target k) = true →
                      get h3 target k = get h target k) as K3.
  { intros target k Ht.
    pose proof (setDefault_keeps_truthy _ _ _ _ _ _ target k
                  falsy_not_truthy E1 Ht) as K1.
    rewrite <-K1 in Ht.
    pose proof (setDefault_keeps_truthy _ _ _ _ _ _ target k
                  falsy_not_truthy E2 Ht) as K2.
    rewrite <-K2 in Ht.
    pose proof (setDefault_keeps_truthy _ _ _ _ _ _ target k
                  is_undefined_not_truthy E3 Ht) as K3.
    by rewrite K3, K2, K1. }
  assert (get h config "useCache" ≠ VUndef →
          get h3 config "useCache" = get h config "useCache") as U3.
  { intros Hu.
    rewrite (setDefault_keeps _ _ _ _ _ _ config "useCache" E3).
    - rewrite (setDefault_keeps _ _ _ _ _ _ config "useCache" E2) by (by left).
      by rewrite (setDefault_keeps _ _ _ _ _ _ config "useCache" E1) by (by left).
    - right. apply is_undefined_false.
      rewrite (setDefault_keeps _ _ _ _ _ _ config "useCache" E2) by (by left).
      by rewrite (setDefault_keeps _ _ _ _ _ _ config "useCache" E1) by (by left). }
  destruct (falsy (get h3 config "https")) eqn:Hhttps.
  - split.
    + intros target k Ht. rewrite <-(K3 target k Ht).
      destruct (assign_get _ _ _ _ _ target k H) as [Heq|(-> & -> & _)]; [done|].
      apply falsy_not_truthy in Hhttps. rewrite K3 in Hhttps by done. congruence.
    + intros Hu. rewrite <-(U3 Hu). by apply (assign_keeps _ _ _ _ _ _ _ H).
  - destruct (setDefault is_undefined h3 _ "enabled" _) as [h4|] eqn:E4; [|done].
    cbn [mbind option_bind] in H.
    destruct (setDefault is_undefined h4 _ "forceHttps" _) as [h5|] eqn:E5; [|done].
    cbn [mbind option_bind] in H.
    destruct (setDefault falsy h5 _ "port" _) as [h6|] eqn:E6; [|done].
    cbn [mbind option_bind] in H.
    destruct (setDefault falsy h6 _ "certPath" _) as [h7|] eqn:E7; [|done].
    cbn [mbind option_bind] in H.
    split.
    + intros target k Ht. pose proof (K3 target k Ht) as K.
      rewrite <-K in Ht.
      pose proof (setDefault_keeps_truthy _ _ _ _ _ _ target k
                    is_undefined_not_truthy E4 Ht) as K4.
      rewrite <-K4 in Ht.
      pose proof (setDefault_keeps_truthy _ _ _ _ _ _ target k
                    is_undefined_not_truthy E5 Ht) as K5.
      rewrite <-K5 in Ht.
      pose proof (setDefault_keeps_truthy _ _ _ _ _ _ target k
                    falsy_not_truthy E6 Ht) as K6.
      rewrite <-K6 in Ht.
      pose proof (setDefault_keeps_truthy _ _ _ _ _ _ target k
                    falsy_not_truthy E7 Ht) as K7.
      rewrite <-K7 in Ht.
      pose proof (setDefault_keeps_truthy _ _ _ _ _ _ target k
                    falsy_not_truthy H Ht) as K8.
      by rewrite K8, K7, K6, K5, K4, K.
    + intros Hu. rewrite <-(U3 Hu).
      rewrite (setDefault_keeps _ _ _ _ _ _ config "useCache" H) by (by left).
      rewrite (setDefault_keeps _ _ _ _ _ _ config "useCache" E7) by (by left).
      rewrite (setDefault_keeps _ _ _ _ _ _ config "useCache" E6) by (by left).
      rewrite (setDefault_keeps _ _ _ _ _ _ config "useCache" E5) by (by left).
      by rewrite (setDefault_keeps _ _ _ _ _ _ config "useCache" E4) by (by left).
Qed.

Lemma applyDefaults_keeps_witness :
  let h' := [CObj (default_props (VRef 1)); CObj default_https_props;
             CObj [("port", VNum (num_of_Z 8080)); ("https", VRef 3);
                   ("scriptPath", VStr "./rules-script.js"); ("useCache", VBool true)];
             CObj [("enabled", VBool true); ("port", VNum (num_of_Z 443));
                   ("forceHttps", VBool false); ("certPath", VStr "./cert/server.crt");
                   ("keyPath", VStr "./cert/server.key")]] in
  (∀ target k, truthy (get service_heap target k) = true →
               get h' target k = get service_heap target k)
  ∧ (get service_heap (VRef 2) "useCache" ≠ VUndef →
       get h' (VRef 2) "useCache" = get service_heap (VRef 2) "useCache").
Proof.
  apply (applyDefaults_keeps (VRef 0) service_heap (VRef 2)).
  reflexivity.
Defined.

Ltac default_step h' E :=
  match goal with
  | |- context [setDefault ?m ?h ?t ?k ?x] =>
      let Hp := fresh "Hp" in
      assert (plain h t) as Hp by (first [assumption | congruence]);
      destruct (setDefault_plain m h t k x Hp) as [h' E];
      rewrite E; cbn [mbind option_bind]; clear Hp
  end.

(** X24. The defaults complete a document.  For a document that is an
    object, with an [https] that is a primitive or an object, and neither
    of them one of the two default objects: the defaults are left as they
    were, and afterwards [scriptPath], [port] and [https] are truthy,
    [useCache] is defined, and an [https] that is an object has its five
    settings, [enabled] and [forceHttps] defined and the other three
    truthy. *)
Theorem applyDefaults_complete (h : heap) (d dh l : loc) :
  holds_defaults h d dh →
  plain h (VRef l) → l ≠ d → l ≠ dh →
  plain h (get h (VRef l) "https") →
  get h (VRef l) "https" ≠ VRef d → get h (VRef l) "https" ≠ VRef dh →
  ∃ h', applyDefaults (VRef d) h (VRef l) = Some h'
    ∧ holds_defaults h' d dh
    ∧ truthy (get h' (VRef l) "scriptPath") = true
    ∧ truthy (get h' (VRef l) "port") = true
    ∧ get h' (VRef l) "useCache" ≠ VUndef
    ∧ truthy (get h' (VRef l) "https") = true
    ∧ ∀ lh, get h' (VRef l) "https" = VRef lh →
        get h' (VRef lh) "enabled" ≠ VUndef
        ∧ get h' (VRef lh) "forceHttps" ≠ VUndef
        ∧ truthy (get h' (VRef lh) "port") = true
        ∧ truthy (get h' (VRef lh) "certPath") = true
        ∧ truthy (get h' (VRef lh) "keyPath") = true.
Proof.
  intros Hdef Hobj Hld Hldh HT HTd HTdh.
  set (T := get h (VRef l) "https") in *.
  assert (VRef l ≠ VRef d) as Hcd by congruence.
  assert (VRef l ≠ VRef dh) as Hcdh by congruence.
  unfold applyDefaults.
  (* scriptPath *)
  default_step h1 E1.
  pose proof (setDefault_holds_defaults _ _ _ _ _ _ _ _ E1 Hcd Hcdh Hdef) as Hdef1.
  pose proof (setDefault_plain_preserved _ _ _ _ _ _ _ E1 Hobj) as Hobj1.
  pose proof (setDefault_plain_preserved _ _ _ _ _ _ _ E1 HT) as HT1.
  assert (get h1 (VRef l) "https" = T) as Hh1
    by (by apply (setDefault_keeps _ _ _ _ _ _ _ _ E1); left).
  assert (falsy (get h1 (VRef l) "scriptPath") = false) as S1.
  { destruct Hobj as [props Hl]. eapply setDefault_sets; [done..|].
    by destruct (holds_defaults_get _ _ _ Hdef) as (-> & _). }
  (* port *)
  default_step h2 E2.
  pose proof (setDefault_holds_defaults _ _ _ _ _ _ _ _ E2 Hcd Hcdh Hdef1) as Hdef2.
  pose proof (setDefault_plain_preserved _ _ _ _ _ _ _ E2 Hobj1) as Hobj2.
  pose proof (setDefault_plain_preserved _ _ _ _ _ _ _ E2 HT1) as HT2.
  assert (get h2 (VRef l) "https" = T) as Hh2
    by (by rewrite (setDefault_keeps _ _ _ _ _ _ (VRef l) "https" E2); [|left]).
  assert (falsy (get h2 (VRef l) "scriptPath") = false) as S2
    by (by rewrite (setDefault_keeps _ _ _ _ _ _ (VRef l) "scriptPath" E2); [|left]).
  assert (falsy (get h2 (VRef l) "port") = false) as P2.
  { destruct Hobj1 as [props Hl]. eapply setDefault_sets; [done..|].
    by destruct (holds_defaults_get _ _ _ Hdef1) as (_ & -> & _). }
  (* useCache *)
  default_step h3 E3.
  pose proof (setDefault_holds_defaults _ _ _ _ _ _ _ _ E3 Hcd Hcdh Hdef2) as Hdef3.
  pose proof (setDefault_plain_preserved _ _ _ _ _ _ _ E3 Hobj2) as Hobj3.
  pose proof (setDefault_plain_preserved _ _ _ _ _ _ _ E3 HT2) as HT3.
  assert (get h3 (VRef l) "https" = T) as Hh3
    by (by rewrite (setDefault_keeps _ _ _ _ _ _ (VRef l) "https" E3); [|left]).
  assert (falsy (get h3 (VRef l) "scriptPath") = false) as S3
    by (by rewrite (setDefault_keeps _ _ _ _ _ _ (VRef l) "scriptPath" E3); [|left]).
  assert (falsy (get h3 (VRef l) "port") = false) as P3
    by (by rewrite (setDefault_keeps _ _ _ _ _ _ (VRef l) "port" E3); [|left]).
  assert (is_undefined (get h3 (VRef l) "useCache") = false) as U3.
  { destruct Hobj2 as [props Hl]. eapply setDefault_sets; [done..|].
    by destruct (holds_defaults_get _ _ _ Hdef2) as (_ & _ & -> & _). }
  rewrite Hh3.
  destruct (falsy T) eqn:HfT.
  - (* no https given: the default object itself *)
    destruct (assign_plain h3 (VRef l) "https" (get h3 (VRef d) "https") Hobj3)
      as [h4 E4].
    exists h4. split; [done|].
    pose proof (assign_holds_defaults _ _ _ _ _ _ _ E4 Hcd Hcdh Hdef3) as Hdef4.
    destruct (holds_defaults_get _ _ _ Hdef3) as (_ & _ & _ & Hdh3 & _).
    destruct (holds_defaults_get _ _ _ Hdef4)
      as (_ & _ & _ & _ & He & Hf & Hp & Hc & Hk).
    assert (get h4 (VRef l) "https" = VRef dh) as Hh4.
    { destruct Hobj3 as [props Hl]. rewrite <-Hdh3. by eapply assign_object. }
    split; [done|].
    rewrite !(assign_keeps _ _ _ _ _ _ _ E4) by done.
    apply falsy_false in S3, P3. apply is_undefined_false in U3.
    rewrite Hh4. do 4 (split; [done|]).
    intros lh [= <-]. by rewrite He, Hf, Hp, Hc, Hk.
  - (* an https given: its settings, one by one *)
    assert (T ≠ VRef d) as HTd' by done.
    assert (T ≠ VRef dh) as HTdh' by done.
    destruct (holds_defaults_get _ _ _ Hdef3) as (_ & _ & _ & -> & _).
    default_step h4 E4.
    pose proof (setDefault_holds_defaults _ _ _ _ _ _ _ _ E4 HTd' HTdh' Hdef3) as Hdef4.
    pose proof (setDefault_plain_preserved _ _ _ _ _ _ _ E4 HT3) as HT4.
    assert (get h4 (VRef l) "https" = T) as Hh4
      by (by rewrite (setDefault_keeps _ _ _ _ _ _ (VRef l) "https" E4); [|left]).
    rewrite Hh4. destruct (holds_defaults_get _ _ _ Hdef4) as (_ & _ & _ & -> & _).
    default_step h5 E5.
    pose proof (setDefault_holds_defaults _ _ _ _ _ _ _ _ E5 HTd' HTdh' Hdef4) as Hdef5.
    pose proof (setDefault_plain_preserved _ _ _ _ _ _ _ E5 HT4) as HT5.
    assert (get h5 (VRef l) "https" = T) as Hh5
      by (by rewrite (setDefault_keeps _ _ _ _ _ _ (VRef l) "https" E5); [|left]).
    rewrite Hh5. destruct (holds_defaults_get _ _ _ Hdef5) as (_ & _ & _ & -> & _).
    default_step h6 E6.
    pose proof (setDefault_holds_defaults _ _ _ _ _ _ _ _ E6 HTd' HTdh' Hdef5) as Hdef6.
    pose proof (setDefault_plain_preserved _ _ _ _ _ _ _ E6 HT5) as HT6.
    assert (get h6 (VRef l) "https" = T) as Hh6
      by (by rewrite (setDefault_keeps _ _ _ _ _ _ (VRef l) "https" E6); [|left]).
    rewrite Hh6. destruct (holds_defaults_get _ _ _ Hdef6) as (_ & _ & _ & -> & _).
    default_step h7 E7.
    pose proof (setDefault_holds_defaults _ _ _ _ _ _ _ _ E7 HTd' HTdh' Hdef6) as Hdef7.
    pose proof (setDefault_plain_preserved _ _ _ _ _ _ _ E7 HT6) as HT7.
    assert (get h7 (VRef l) "https" = T) as Hh7
      by (by rewrite (setDefault_keeps _ _ _ _ _ _ (VRef l) "https" E7); [|left]).
    rewrite Hh7. destruct (holds_defaults_get _ _ _ Hdef7) as (_ & _ & _ & -> & _).
    default_step h8 E8.
    pose proof (setDefault_holds_defaults _ _ _ _ _ _ _ _ E8 HTd' HTdh' Hdef7) as Hdef8.
    exists h8. split; [done|]. split; [done|].
    assert (get h8 (VRef l) "https" = T) as Hh8
      by (by rewrite (setDefault_keeps _ _ _ _ _ _ (VRef l) "https" E8); [|left]).
    assert (falsy (get h5 (VRef l) "port") = false) as P5.
    { rewrite (setDefault_keeps _ _ _ _ _ _ (VRef l) "port" E5) by (by left).
      by rewrite (setDefault_keeps _ _ _ _ _ _ (VRef l) "port" E4) by (by left). }
    split; [|split; [|split; [|split]]].
    + apply falsy_false.
      rewrite (setDefault_keeps _ _ _ _ _ _ (VRef l) "scriptPath" E8) by (by left).
      rewrite (setDefault_keeps _ _ _ _ _ _ (VRef l) "scriptPath" E7) by (by left).
      rewrite (setDefault_keeps _ _ _ _ _ _ (VRef l) "scriptPath" E6) by (by left).
      rewrite (setDefault_keeps _ _ _ _ _ _ (VRef l) "scriptPath" E5) by (by left).
      rewrite (setDefault_keeps _ _ _ _ _ _ (VRef l) "scriptPath" E4) by (by left).
      exact S3.
    + apply falsy_false.
      rewrite (setDefault_keeps _ _ _ _ _ _ (VRef l) "port" E8) by (by left).
      rewrite (setDefault_keeps _ _ _ _ _ _ (VRef l) "port" E7) by (by left).
      rewrite (setDefault_keeps _ _ _ _ _ _ (VRef l) "port" E6) by (by right).
      exact P5.
    + apply is_undefined_false.
      rewrite (setDefault_keeps _ _ _ _ _ _ (VRef l) "useCache" E8) by (by left).
      rewrite (setDefault_keeps _ _ _ _ _ _ (VRef l) "useCache" E7) by (by left).
      rewrite (setDefault_keeps _ _ _ _ _ _ (VRef l) "useCache" E6) by (by left).
      rewrite (setDefault_keeps _ _ _ _ _ _ (VRef l) "useCache" E5) by (by left).
      rewrite (setDefault_keeps _ _ _ _ _ _ (VRef l) "useCache" E4) by (by left).
      exact U3.
    + rewrite Hh8. by apply falsy_false.
    + rewrite Hh8. intros lh HTlh.
      destruct (holds_defaults_get _ _ _ Hdef3) as (_ & _ & _ & _ & He & _).
      destruct (holds_defaults_get _ _ _ Hdef4) as (_ & _ & _ & _ & _ & Hf & _).
      destruct (holds_defaults_get _ _ _ Hdef5) as (_ & _ & _ & _ & _ & _ & Hp & _).
      destruct (holds_defaults_get _ _ _ Hdef6) as (_ & _ & _ & _ & _ & _ & _ & Hc & _).
      destruct (holds_defaults_get _ _ _ Hdef7) as (_ & _ & _ & _ & _ & _ & _ & _ & Hk).
      rewrite HTlh in *.
      destruct HT3 as [p3 Hl3]. destruct HT4 as [p4 Hl4]. destruct HT5 as [p5 Hl5].
      destruct HT6 as [p6 Hl6]. destruct HT7 as [p7 Hl7].
      assert (is_undefined (get h4 (VRef lh) "enabled") = false) as X4
        by (apply (setDefault_sets _ _ _ _ _ _ _ Hl3 E4); by rewrite He).
      assert (is_undefined (get h5 (VRef lh) "forceHttps") = false) as X5
        by (apply (setDefault_sets _ _ _ _ _ _ _ Hl4 E5); by rewrite Hf).
      assert (falsy (get h6 (VRef lh) "port") = false) as X6
        by (apply (setDefault_sets _ _ _ _ _ _ _ Hl5 E6); by rewrite Hp).
      assert (falsy (get h7 (VRef lh) "certPath") = false) as X7
        by (apply (setDefault_sets _ _ _ _ _ _ _ Hl6 E7); by rewrite Hc).
      assert (falsy (get h8 (VRef lh) "keyPath") = false) as X8
        by (apply (setDefault_sets _ _ _ _ _ _ _ Hl7 E8); by rewrite Hk).
      split; [|split; [|split; [|split]]].
      * apply is_undefined_false.
        rewrite (setDefault_keeps _ _ _ _ _ _ (VRef lh) "enabled" E8) by (by left).
        rewrite (setDefault_keeps _ _ _ _ _ _ (VRef lh) "enabled" E7) by (by left).
        rewrite (setDefault_keeps _ _ _ _ _ _ (VRef lh) "enabled" E6) by (by left).
        rewrite (setDefault_keeps _ _ _ _ _ _ (VRef lh) "enabled" E5) by (by left).
        exact X4.
      * apply is_undefined_false.
        rewrite (setDefault_keeps _ _ _ _ _ _ (VRef lh) "forceHttps" E8) by (by left).
        rewrite (setDefault_keeps _ _ _ _ _ _ (VRef lh) "forceHttps" E7) by (by left).
        rewrite (setDefault_keeps _ _ _ _ _ _ (VRef lh) "forceHttps" E6) by (by left).
        exact X5.
      * apply falsy_false.
        rewrite (setDefault_keeps _ _ _ _ _ _ (VRef lh) "port" E8) by (by left).
        rewrite (setDefault_keeps _ _ _ _ _ _ (VRef lh) "port" E7) by (by left).
        exact X6.
      * apply falsy_false.
        rewrite (setDefault_keeps _ _ _ _ _ _ (VRef lh) "certPath" E8) by (by left).
        exact X7.
      * by apply falsy_false.
Qed.

Lemma applyDefaults_complete_witness :
  ∃ h', applyDefaults (VRef 0) service_heap (VRef 2) = Some h'
    ∧ holds_defaults h' 0 1
    ∧ truthy (get h' (VRef 2) "scriptPath") = true
    ∧ truthy (get h' (VRef 2) "port") = true
    ∧ get h' (VRef 2) "useCache" ≠ VUndef
    ∧ truthy (get h' (VRef 2) "https") = true
    ∧ ∀ lh, get h' (VRef 2) "https" = VRef lh →
        get h' (VRef lh) "enabled" ≠ VUndef
        ∧ get h' (VRef lh) "forceHttps" ≠ VUndef
        ∧ truthy (get h' (VRef lh) "port") = true
        ∧ truthy (get h' (VRef lh) "certPath") = true
        ∧ truthy (get h' (VRef lh) "keyPath") = true.
Proof.
  apply (applyDefaults_complete service_heap 0 1 2).
  - split; reflexivity.
  - eexists. reflexivity.
  - lia.
  - lia.
  - eexists. reflexivity.
  - discriminate.
  - discriminate.
Defined.

Lemma defaults_then_inv {A B} (m : option heap) (c c' : A) (f f' : B) (h' : heap) :
  m ≫= (λ h2, Some (c, f, h2)) = Some (c', f', h') →
  c = c' ∧ f = f' ∧ m = Some h'.
Proof. destruct m; [|done]. by intros [= <- <- <-]. Qed.



(** ** The single-file command *)

(** X26. The single-file command without [--output] and [--name], on an
    input path that is resolved already, does to the files what the batch
    runner does to that file when it overwrites: the same files are left,
    and the command finishes exactly when the batch entry is a success. *)
Theorem cliMain_as_batch_overwrite {W Doc} {host : Host W Doc}
    (resolve : string → string) (opts : options Doc)
    (input_ script scriptText : string) (w : W) :
  overwrite opts = true →
  resolve input_ = input_ →
  readFileSync w (resolve script) = Return scriptText →
  let single := cliMain resolve (opt_executeScript opts) input_ script None "" w in
  let batch := convertFile opts scriptText w input_ in
  single.1 = batch.1
  ∧ (single.2 = Finished ↔ success batch.2 = true)
  ∧ (single.2 ≠ Finished → single.1 = w).
Proof.
  intros Hover Hres Hscript. cbv zeta. unfold cliMain, convertFile, outputPathOf.
  rewrite Hres, Hover.
  destruct (readFileSync w input_) as [content|e]; simpl; [|by repeat split].
  destruct (yaml_load content) as [config|e]; simpl; [|by repeat split].
  rewrite Hscript.
  destruct (opt_executeScript opts config scriptText
              (basename input_ (Some (extname input_)))) as [processed|e]; simpl;
    [|by repeat split].
  destruct (yaml_dump processed) as [yamlStr|e]; simpl; [|by repeat split].
  destruct (writeFileSync w input_ yamlStr) as [w'|e]; simpl; by repeat split.
Qed.

Lemma cliMain_as_batch_overwrite_witness :
  let opts := Options "*.yaml" "script.js" None true
                (λ config (_ _ : string), Return config) 4 in
  let w : gmap string string :=
    {[ "a.yaml" := "mode: rule"; "script.js" := sample_script ]} in
  let single := cliMain (host := mem_host ["a.yaml"]) id (opt_executeScript opts)
                  "a.yaml" "script.js" None "" w in
  let batch := convertFile (host := mem_host ["a.yaml"]) opts sample_script w "a.yaml" in
  single.1 = batch.1
  ∧ (single.2 = Finished ↔ success batch.2 = true)
  ∧ (single.2 ≠ Finished → single.1 = w).
Proof.
  apply (cliMain_as_batch_overwrite (host := mem_host ["a.yaml"]) id
           (Options "*.yaml" "script.js" None true
              (λ config (_ _ : string), Return config) 4)
           "a.yaml" "script.js" sample_script
           {[ "a.yaml" := "mode: rule"; "script.js" := sample_script ]}).
  - reflexivity.
  - reflexivity.
  - reflexivity.
Defined.
